(** * redisx: a RESP2 key/value server

    A shallow embedding of the codec ([src/proto/resp.cpp]), the sharded
    store ([src/core/store.cpp]), the command router ([src/core/router.cpp])
    and the connection pipeline ([src/net/session.cpp],
    [include/redisx/util/thread_pool.hpp]), with the properties of the
    design specification stated and settled against them; then the
    command-line client ([app/redis-cli.cpp]), the expiry helpers
    ([include/redisx/time/ttl.hpp]) and the expiry index
    ([src/time/ttl.cpp]), and further properties of all of these. *)

From Stdlib Require Import ZArith Ascii String List Lia Bool.
From stdpp Require Import base option list gmap strings fin_maps.

Local Open Scope Z_scope.

(** ** Byte strings

    [std::string] is a binary-safe sequence of 8-bit characters. *)

Abbreviation bytes := (list ascii).

(** A string literal of the source as a byte string. *)
Definition b (s : string) : bytes := list_ascii_of_string s.

Definition CR : ascii := "013"%char.
Definition LF : ascii := "010"%char.
Definition CRLF : bytes := [CR; LF].

(** The numeric value of a character. *)
Definition code (c : ascii) : Z := Z.of_N (N_of_ascii c).

(** [data[i]] for an index inside the buffer. *)
Definition at_ (data : bytes) (i : Z) : ascii := nth (Z.to_nat i) data zero.

(** The bytes [data + off, data + off + n). *)
Definition sub (data : bytes) (off n : Z) : bytes :=
  firstn (Z.to_nat n) (skipn (Z.to_nat off) data).

(** ** 64-bit integers *)

Definition LLONG_MAX : Z := 9223372036854775807.
Definition LLONG_MIN : Z := -9223372036854775808.
Definition SIZE_MOD : Z := 18446744073709551616.

(** Arithmetic on [std::size_t] is modulo 2^64. *)
Definition wrap_size (x : Z) : Z := x mod SIZE_MOD.

(** Two's complement wrap-around of a [long long]. *)
Definition wrap_ll (x : Z) : Z := (x - LLONG_MIN) mod SIZE_MOD + LLONG_MIN.

(** ** Decimal output ([operator<<] on an integer) *)

Definition digit_char (d : Z) : ascii := ascii_of_N (Z.to_N (48 + d)).

Fixpoint dec_digits (fuel : nat) (n : Z) (acc : bytes) : bytes :=
  let acc' := digit_char (n mod 10) :: acc in
  match fuel with
  | O => acc'
  | S fuel' => if n <? 10 then acc' else dec_digits fuel' (n / 10) acc'
  end.

(** Decimal digits of a non-negative integer, most significant first. *)
Definition dec_nonneg (n : Z) : bytes := dec_digits (Z.to_nat (Z.log2 n)) n [].

(** Decimal text of a signed integer. *)
Definition dec (n : Z) : bytes :=
  if n <? 0 then "-"%char :: dec_nonneg (- n) else dec_nonneg n.

(** ** RESP codec (src/proto/resp.cpp) *)

(** The digit loop of [parse_ll]: [None] on a non-digit or on overflow. *)
Fixpoint parse_ll_loop (s : bytes) (v : Z) : option Z :=
  match s with
  | [] => Some v
  | c :: s' =>
      if (code c <? 48) || (57 <? code c) then None
      else
        let d := code c - 48 in
        if (LLONG_MAX - d) / 10 <? v then None
        else parse_ll_loop s' (v * 10 + d)
  end.

(** [parse_ll(s, ok)] as the pair [(ok, result)]. *)
Definition parse_ll (s : bytes) : bool * Z :=
  match s with
  | [] => (false, 0)
  | c :: s' =>
      let '(sign, ds) := if Ascii.eqb c "-" then (-1, s') else (1, s) in
      match parse_ll_loop ds 0 with
      | None => (false, 0)
      | Some v => (true, v * sign)
      end
  end.

(** The search loop of [read_line], from index [i]; one unit of fuel per
    iteration. *)
Fixpoint read_line_from (fuel : nat) (data : bytes) (len i : Z) : option Z :=
  match fuel with
  | O => None
  | S fuel' =>
      if i + 1 <? len then
        if Ascii.eqb (at_ data i) CR && Ascii.eqb (at_ data (i + 1)) LF
        then Some i
        else read_line_from fuel' data len (i + 1)
      else None
  end.

(** [read_line(data, len, off, line_end)]: [Some line_end] when it returns
    true. The loop runs while [i + 1 < len], so [len - off] iterations are
    never exceeded. *)
Definition read_line (data : bytes) (len off : Z) : option Z :=
  read_line_from (Z.to_nat (len - off)) data len off.

Record Line := mkLine { l_start : Z; l_end : Z; l_next : Z }.

(** [get_line]: [None] stands for [L.ok = false]. *)
Definition get_line (data : bytes) (len off : Z) : option Line :=
  match read_line data len off with
  | None => None
  | Some e => Some (mkLine off e (e + 2))
  end.

Record RespParseResult := mkResult {
  arr : option (list bytes);
  error : string;
  consumed : Z
}.

(** A default-constructed result: "need more". *)
Definition need_more : RespParseResult := mkResult None "" 0.

Definition proto_error (msg : string) (n : Z) : RespParseResult :=
  mkResult None msg n.

(** The [for (long long i = 0; i < n; ++i)] loop of [parse_resp]. Every
    iteration that continues moves [off] forward, and the loop returns as
    soon as [off >= len]; the fuel bounds the number of iterations and
    [None] is returned only if it runs out. *)
Fixpoint parse_bulks (fuel : nat) (data : bytes) (len n i off : Z)
    (args : list bytes) : option RespParseResult :=
  if i <? n then
    match fuel with
    | O => None
    | S fuel' =>
        if len <=? off then Some need_more
        else if negb (Ascii.eqb (at_ data off) "$") then
          Some (proto_error "protocol error: expected bulk string" off)
        else
          match get_line data len (off + 1) with
          | None => Some need_more
          | Some L2 =>
              let '(ok, blen) :=
                parse_ll (sub data (off + 1) (l_end L2 - (off + 1))) in
              if negb ok then
                Some (proto_error "protocol error: bad bulk length" (l_next L2))
              else
                let off := l_next L2 in
                if blen =? -1 then
                  parse_bulks fuel' data len n (i + 1) off (args ++ [[]])
                else if blen <? 0 then
                  Some (proto_error "protocol error: negative bulk length" off)
                else if len <? wrap_size (off + blen + 2) then Some need_more
                else
                  let arg := sub data off blen in
                  let off := off + blen in
                  if (len <=? off + 1)
                     || negb (Ascii.eqb (at_ data off) CR)
                     || negb (Ascii.eqb (at_ data (off + 1)) LF)
                  then Some (proto_error "protocol error: bulk missing CRLF" off)
                  else parse_bulks fuel' data len n (i + 1) (off + 2)
                         (args ++ [arg])
          end
    end
  else Some (mkResult (Some args) "" off).

(** [parse_resp(data, len)] with [len] the size of the buffer.
    [arr.args.reserve(n)] only sizes the storage of the vector; a failure
    to allocate it is not part of the model. *)
Definition parse_resp (data : bytes) : option RespParseResult :=
  let len := Z.of_nat (length data) in
  if len =? 0 then Some need_more
  else if negb (Ascii.eqb (at_ data 0) "*") then
    Some (proto_error "protocol error: expected array" 0)
  else
    match get_line data len 1 with
    | None => Some need_more
    | Some L =>
        let '(ok, n) := parse_ll (sub data 1 (l_end L - 1)) in
        if negb ok || (n <? 0) then
          Some (proto_error "protocol error: bad array length" (l_next L))
        else parse_bulks (length data) data len n 0 (l_next L) []
    end.

(** Emitters. *)
Definition resp_simple (s : bytes) : bytes := "+"%char :: s ++ CRLF.
Definition resp_error (s : bytes) : bytes := b "-ERR " ++ s ++ CRLF.

Definition resp_bulk (s : bytes) : bytes :=
  "$"%char :: dec (Z.of_nat (length s)) ++ CRLF ++ s ++ CRLF.

Definition resp_nil : bytes := b "$-1" ++ CRLF.

Definition resp_int (v : Z) : bytes := ":"%char :: dec v ++ CRLF.

Definition resp_array (items : list bytes) (as_bulk : bool) : bytes :=
  "*"%char :: dec (Z.of_nat (length items)) ++ CRLF ++
  concat (map (fun it => if as_bulk then
                           "$"%char :: dec (Z.of_nat (length it)) ++ CRLF ++ it ++ CRLF
                         else it) items).

(** ** Time

    A [steady_clock::time_point] is a count of clock ticks; the clock of the
    standard libraries counts nanoseconds. *)

Abbreviation time_point := Z.
Definition ticks_per_ms : Z := 1000000.

(** [duration_cast<milliseconds>(d).count()]: truncation toward zero. *)
Definition to_ms (d : Z) : Z := Z.quot d ticks_per_ms.

(** ** Shard (src/core/store.cpp) *)

Inductive ValueType := VNone | VString | VHash.

Record Shard := mkShard {
  map_ : gmap bytes bytes;                (* string keys *)
  ttl_ : gmap bytes time_point;           (* key -> expire time *)
  hmap_ : gmap bytes (gmap bytes bytes)   (* key -> (field -> value) *)
}.

(** [m.find(k) != m.end()] *)
Definition contains {V} (m : gmap bytes V) (k : bytes) : bool :=
  match m !! k with Some _ => true | None => false end.

Module Shard.

Definition empty : Shard := mkShard ∅ ∅ ∅.

Definition is_expired_unlocked (s : Shard) (k : bytes) (now : time_point)
    : bool :=
  match ttl_ s !! k with
  | None => false
  | Some tp => tp <=? now
  end.

(** The three erasures of a lazy eviction. *)
Definition erase_all (k : bytes) (s : Shard) : Shard :=
  mkShard (delete k (map_ s)) (delete k (ttl_ s)) (delete k (hmap_ s)).

(** The operations that call [steady_clock::now()] themselves take the
    value it returned as [now]. *)

Definition get (k : bytes) (now : time_point) (s : Shard)
    : option bytes * Shard :=
  if is_expired_unlocked s k now then (None, erase_all k s)
  else (map_ s !! k, s).

Definition set (k v : bytes) (now : time_point) (s : Shard) : Shard :=
  let s1 :=
    if is_expired_unlocked s k now
    then mkShard (map_ s) (delete k (ttl_ s)) (delete k (hmap_ s))
    else s in
  mkShard (<[k := v]> (map_ s1)) (ttl_ s1) (delete k (hmap_ s1)).

Definition del (k : bytes) (s : Shard) : bool * Shard :=
  let sb := contains (map_ s) k in
  let hb := contains (hmap_ s) k in
  (sb || hb, mkShard (delete k (map_ s)) (delete k (ttl_ s)) (delete k (hmap_ s))).

Definition set_expire (k : bytes) (tp : time_point) (s : Shard) : Shard :=
  if contains (map_ s) k || contains (hmap_ s) k
  then mkShard (map_ s) (<[k := tp]> (ttl_ s)) (hmap_ s)
  else s.

Definition ttl_ms (k : bytes) (now : time_point) (s : Shard) : Z :=
  let exists_ := contains (map_ s) k || contains (hmap_ s) k in
  if negb exists_ then -2
  else
    match ttl_ s !! k with
    | None => -1
    | Some tp =>
        let remain := to_ms (tp - now) in
        if remain <=? 0 then -2 else remain
    end.

Definition clear_expire (k : bytes) (s : Shard) : Shard :=
  mkShard (map_ s) (delete k (ttl_ s)) (hmap_ s).

Definition sweep (now : time_point) (s : Shard) : Shard :=
  let to_erase :=
    (filter (fun kv => kv.2 <= now) (map_to_list (ttl_ s))).*1 in
  foldl (fun s k => erase_all k s) s to_erase.

Definition hset (key field value : bytes) (now : time_point) (s : Shard)
    : Z * Shard :=
  let s1 := if is_expired_unlocked s key now then erase_all key s else s in
  (* [hmap_[key]] creates an empty hash when the key has none *)
  let hm := default ∅ (hmap_ s1 !! key) in
  let s2 := mkShard (map_ s1) (ttl_ s1)
              (<[key := <[field := value]> hm]> (hmap_ s1)) in
  match hm !! field with
  | None => (1, s2)
  | Some _ => (0, s2)
  end.

Definition hget (key field : bytes) (now : time_point) (s : Shard)
    : option bytes :=
  if is_expired_unlocked s key now then None
  else
    match hmap_ s !! key with
    | None => None
    | Some hm => hm !! field
    end.

Definition hdel (key field : bytes) (now : time_point) (s : Shard)
    : Z * Shard :=
  if is_expired_unlocked s key now then (0, erase_all key s)
  else
    match hmap_ s !! key with
    | None => (0, s)
    | Some hm =>
        let removed := if contains hm field then 1 else 0 in
        let hm' := delete field hm in
        if decide (hm' = ∅)
        then (removed, mkShard (map_ s) (ttl_ s) (delete key (hmap_ s)))
        else (removed, mkShard (map_ s) (ttl_ s) (<[key := hm']> (hmap_ s)))
    end.

Definition hexists (key field : bytes) (now : time_point) (s : Shard) : Z :=
  if is_expired_unlocked s key now then 0
  else
    match hmap_ s !! key with
    | None => 0
    | Some hm => if contains hm field then 1 else 0
    end.

Definition hlen (key : bytes) (now : time_point) (s : Shard) : Z :=
  if is_expired_unlocked s key now then 0
  else
    match hmap_ s !! key with
    | None => 0
    | Some hm => Z.of_nat (size hm)
    end.

Definition hgetall (key : bytes) (now : time_point) (s : Shard)
    : list bytes :=
  if is_expired_unlocked s key now then []
  else
    match hmap_ s !! key with
    | None => []
    | Some hm => concat (map (fun fv => [fv.1; fv.2]) (map_to_list hm))
    end.

Definition type_of (key : bytes) (now : time_point) (s : Shard)
    : ValueType * Shard :=
  if is_expired_unlocked s key now then (VNone, erase_all key s)
  else if contains (map_ s) key then (VString, s)
  else if contains (hmap_ s) key then (VHash, s)
  else (VNone, s).

End Shard.

(** ** Standard library functions used by the router *)

(** [std::toupper] in the "C" locale. *)
Definition toupper (c : ascii) : ascii :=
  if (97 <=? code c) && (code c <=? 122)
  then ascii_of_N (Z.to_N (code c - 32)) else c.

(** [upper(s)] of router.cpp *)
Definition upper (s : bytes) : bytes := map toupper s.

Definition is_digit (c : ascii) : bool := (48 <=? code c) && (code c <=? 57).

(** [isspace] in the "C" locale. *)
Definition is_space (c : ascii) : bool :=
  (code c =? 32) || ((9 <=? code c) && (code c <=? 13)).

Fixpoint skip_spaces (s : bytes) : bytes :=
  match s with
  | c :: s' => if is_space c then skip_spaces s' else s
  | [] => []
  end.

(** The digits at the head of [s] read in base 10, from the value [acc];
    [seen] tells whether a digit was read. *)
Fixpoint read_digits (s : bytes) (acc : Z) (seen : bool) : Z * bool :=
  match s with
  | c :: s' =>
      if is_digit c then read_digits s' (acc * 10 + (code c - 48)) true
      else (acc, seen)
  | [] => (acc, seen)
  end.

(** [std::stoll(s)]: leading white space, an optional sign, then digits up
    to the first other character; [None] when it throws
    ([invalid_argument] without a digit, [out_of_range] outside
    [long long]). *)
Definition stoll (s : bytes) : option Z :=
  let s1 := skip_spaces s in
  let '(sign, s2) :=
    match s1 with
    | c :: s' =>
        if Ascii.eqb c "-" then (-1, s')
        else if Ascii.eqb c "+" then (1, s')
        else (1, s1)
    | [] => (1, s1)
    end in
  let '(v, seen) := read_digits s2 0 false in
  if negb seen then None
  else
    let r := sign * v in
    if (r <? LLONG_MIN) || (LLONG_MAX <? r) then None else Some r.

(** [now + std::chrono::milliseconds(ms)] and [now + std::chrono::seconds(sec)]
    on the 64-bit tick count, which wraps around on overflow. *)
Definition add_ms (now : time_point) (ms : Z) : time_point :=
  wrap_ll (now + wrap_ll (ms * ticks_per_ms)).
Definition add_sec (now : time_point) (sec : Z) : time_point :=
  wrap_ll (now + wrap_ll (sec * (1000 * ticks_per_ms))).

(** ** Store and the world a command runs in *)

(** The state a handler acts on: the shards of the store, and the monotonic
    clock as the sequence of values its successive readings return. *)
Record World := mkWorld {
  shards_ : list Shard;
  clock_ : nat -> time_point;
  reads_ : nat
}.

(** Commands are state transformers on the world. *)
Definition M (A : Type) : Type := World -> A * World.

Definition ret {A} (a : A) : M A := fun w => (a, w).
Definition bind {A B} (m : M A) (f : A -> M B) : M B :=
  fun w => let '(a, w') := m w in f a w'.

Declare Scope cmd_scope.
Delimit Scope cmd_scope with cmd.
Notation "'let*' x := m 'in' k" := (bind m (fun x => k))
  (at level 10, x name, m at level 100, k at level 200) : cmd_scope.
Notation "m ;;; k" := (bind m (fun _ => k))
  (at level 100, k at level 200, right associativity) : cmd_scope.

(** [std::chrono::steady_clock::now()] *)
Definition steady_now : M time_point :=
  fun w => (clock_ w (reads_ w),
            mkWorld (shards_ w) (clock_ w) (S (reads_ w))).

(** [Store::Store(n)] *)
Definition Store_new (n : nat) : list Shard :=
  replicate (if Nat.eqb n 0 then 1%nat else n) Shard.empty.

(** Lifting a shard mutator or observer to a result-and-state function. *)
Definition upd (f : Shard -> Shard) : Shard -> unit * Shard :=
  fun s => (tt, f s).
Definition obs {A} (f : Shard -> A) : Shard -> A * Shard :=
  fun s => (f s, s).

(** ** Router (src/core/router.cpp) *)

Abbreviation Handler := (list bytes -> M bytes).

Definition resp_wrongtype : bytes :=
  b "-WRONGTYPE Operation against a key holding the wrong kind of value" ++ CRLF.

Definition not_an_integer : bytes := b "value is not an integer or out of range".

(** [a[i]], read only below [a.size()]. *)
Definition arg (a : list bytes) (i : nat) : bytes := nth i a [].

(** [a.size()] *)
Definition nargs (a : list bytes) : Z := Z.of_nat (length a).

Local Open Scope cmd_scope.

Section Router.

(** [std::hash<std::string>], left to the implementation. *)
Variable str_hash : bytes -> nat.

(** [h % shards_.size()] *)
Definition shard_index (w : World) (key : bytes) : nat :=
  (str_hash key mod length (shards_ w))%nat.

(** [*shards_[h % shards_.size()]]; the store always has a shard. *)
Definition shard_at (w : World) (key : bytes) : Shard :=
  default Shard.empty (shards_ w !! shard_index w key).

(** [Store::shard_for(key)], followed by one operation of that shard. *)
Definition shard_for {A} (key : bytes) (op : Shard -> A * Shard) : M A :=
  fun w =>
    let '(r, s') := op (shard_at w key) in
    (r, mkWorld (<[shard_index w key := s']> (shards_ w))
                (clock_ w) (reads_ w)).


Definition h_PING : Handler := fun a =>
  if 1 <? nargs a then ret (resp_bulk (arg a 1))
  else ret (resp_simple (b "PONG")).

Definition h_ECHO : Handler := fun a =>
  if nargs a <? 2 then ret (resp_error (b "wrong #args for 'echo'"))
  else ret (resp_bulk (arg a 1)).

(** The first handler registered for SET; the table entry is overwritten
    by [h_SET] below. *)
Definition h_SET_plain : Handler := fun a =>
  if nargs a <? 3 then ret (resp_error (b "wrong #args for 'set'"))
  else
    let* now := steady_now in
    shard_for (arg a 1) (upd (Shard.set (arg a 1) (arg a 2) now)) ;;;
    ret (resp_simple (b "OK")).

Definition h_GET : Handler := fun a =>
  if nargs a <? 2 then ret (resp_error (b "wrong #args for 'get'"))
  else
    let key := arg a 1 in
    let* now := steady_now in
    let* t := shard_for key (Shard.type_of key now) in
    match t with
    | VHash => ret resp_wrongtype
    | _ =>
        let* now' := steady_now in
        let* v := shard_for key (Shard.get key now') in
        match v with
        | None => ret resp_nil
        | Some x => ret (resp_bulk x)
        end
    end.

Definition h_DEL : Handler := fun a =>
  if nargs a <? 2 then ret (resp_error (b "wrong #args for 'del'"))
  else
    let* ok := shard_for (arg a 1) (Shard.del (arg a 1)) in
    ret (resp_int (if ok : bool then 1 else 0)).

Definition h_EXPIRE : Handler := fun a =>
  if nargs a <? 3
  then ret (resp_error (b "wrong number of arguments for 'expire'"))
  else
    let key := arg a 1 in
    match stoll (arg a 2) with
    | None => ret (resp_error not_an_integer)
    | Some sec0 =>
        let sec := if sec0 <? 0 then 0 else sec0 in
        (* check existence by get (which also lazily evicts) *)
        let* now := steady_now in
        let* cur := shard_for key (Shard.get key now) in
        match cur with
        | None => ret (resp_int 0)
        | Some _ =>
            let* now' := steady_now in
            shard_for key (upd (Shard.set_expire key (add_sec now' sec))) ;;;
            ret (resp_int 1)
        end
    end.

Definition h_TTL : Handler := fun a =>
  if nargs a <? 2
  then ret (resp_error (b "wrong number of arguments for 'ttl'"))
  else
    let key := arg a 1 in
    let* now := steady_now in
    let* ms := shard_for key (obs (Shard.ttl_ms key now)) in
    if ms =? -2 then ret (resp_int (-2))
    else if ms =? -1 then ret (resp_int (-1))
    else ret (resp_int (Z.quot (ms + 999) 1000)).

(** The optional [EX n | PX n] of SET: an error reply, or the TTL in
    milliseconds ([-1] for none). *)
Definition set_options (a : list bytes) : bytes + Z :=
  if 5 <=? nargs a then
    let opt := map toupper (arg a 3) in
    let clamp (t : Z) : Z := if t <? 0 then 0 else t in
    if decide (opt = b "EX") then
      match stoll (arg a 4) with
      | None => inl (resp_error not_an_integer)
      | Some n => inr (clamp (wrap_ll (n * 1000)))
      end
    else if decide (opt = b "PX") then
      match stoll (arg a 4) with
      | None => inl (resp_error not_an_integer)
      | Some n => inr (clamp n)
      end
    else inl (resp_error (b "syntax error"))
  else if negb (nargs a =? 3) then inl (resp_error (b "syntax error"))
  else inr (-1).

(** SET with EX/PX: the handler in force. *)
Definition h_SET : Handler := fun a =>
  if nargs a <? 3 then ret (resp_error (b "wrong #args for 'set'"))
  else
    let key := arg a 1 in
    let val := arg a 2 in
    match set_options a with
    | inl e => ret e
    | inr ttl =>
        let* now := steady_now in
        shard_for key (upd (Shard.set key val now)) ;;;
        (if 0 <=? ttl then
           let* now' := steady_now in
           shard_for key (upd (Shard.set_expire key (add_ms now' ttl)))
         else ret tt) ;;;
        ret (resp_simple (b "OK"))
    end.

Definition h_PEXPIRE : Handler := fun a =>
  if nargs a <? 3 then ret (resp_error (b "wrong #args for 'pexpire'"))
  else
    let key := arg a 1 in
    match stoll (arg a 2) with
    | None => ret (resp_error not_an_integer)
    | Some ms0 =>
        let ms := if ms0 <? 0 then 0 else ms0 in
        let* now := steady_now in
        let* cur := shard_for key (Shard.get key now) in
        match cur with
        | None => ret (resp_int 0)
        | Some _ =>
            let* now' := steady_now in
            shard_for key (upd (Shard.set_expire key (add_ms now' ms))) ;;;
            ret (resp_int 1)
        end
    end.

Definition h_PERSIST : Handler := fun a =>
  if nargs a <? 2 then ret (resp_error (b "wrong #args for 'persist'"))
  else
    let key := arg a 1 in
    (* Check existence (also lazily evicts if expired) *)
    let* now := steady_now in
    let* v := shard_for key (Shard.get key now) in
    match v with
    | None => ret (resp_int 0)
    | Some _ =>
        shard_for key (upd (Shard.clear_expire key)) ;;;
        ret (resp_int 1)
    end.

(** The loop of EXISTS over [a[1..]], all with the same [now]. *)
Fixpoint exists_loop (now : time_point) (keys : list bytes) (count : Z)
    : M Z :=
  match keys with
  | [] => ret count
  | key :: keys' =>
      let* t := shard_for key (Shard.type_of key now) in
      exists_loop now keys'
        (match t with VNone => count | _ => count + 1 end)
  end.

Definition h_EXISTS : Handler := fun a =>
  if nargs a <? 2 then ret (resp_error (b "wrong #args for 'exists'"))
  else
    let* now := steady_now in
    let* count := exists_loop now (skipn 1 a) 0 in
    ret (resp_int count).

(** The loop of HSET over the field/value pairs [a[2..]]. *)
Fixpoint hset_loop (key : bytes) (fvs : list bytes) (added : Z) : M Z :=
  match fvs with
  | field :: value :: fvs' =>
      let* now := steady_now in
      let* n := shard_for key (Shard.hset key field value now) in
      hset_loop key fvs' (added + n)
  | _ => ret added
  end.

Definition h_HSET : Handler := fun a =>
  if (nargs a <? 4) || negb ((nargs a - 2) mod 2 =? 0)
  then ret (resp_error (b "wrong #args for 'hset'"))
  else
    let key := arg a 1 in
    let* now := steady_now in
    let* t := shard_for key (Shard.type_of key now) in
    match t with
    | VString => ret resp_wrongtype
    | _ =>
        let* added := hset_loop key (skipn 2 a) 0 in
        ret (resp_int added)
    end.

Definition h_HGET : Handler := fun a =>
  if nargs a <? 3 then ret (resp_error (b "wrong #args for 'hget'"))
  else
    let key := arg a 1 in
    let field := arg a 2 in
    let* now := steady_now in
    let* t := shard_for key (Shard.type_of key now) in
    match t with
    | VString => ret resp_wrongtype
    | _ =>
        let* now' := steady_now in
        let* v := shard_for key (obs (Shard.hget key field now')) in
        match v with
        | None => ret resp_nil
        | Some x => ret (resp_bulk x)
        end
    end.

Definition h_HDEL : Handler := fun a =>
  if nargs a <? 3 then ret (resp_error (b "wrong #args for 'hdel'"))
  else
    let key := arg a 1 in
    let field := arg a 2 in
    let* now := steady_now in
    let* t := shard_for key (Shard.type_of key now) in
    match t with
    | VString => ret resp_wrongtype
    | _ =>
        let* now' := steady_now in
        let* removed := shard_for key (Shard.hdel key field now') in
        ret (resp_int removed)
    end.

Definition h_HEXISTS : Handler := fun a =>
  if nargs a <? 3 then ret (resp_error (b "wrong #args for 'hexists'"))
  else
    let key := arg a 1 in
    let field := arg a 2 in
    let* now := steady_now in
    let* t := shard_for key (Shard.type_of key now) in
    match t with
    | VString => ret resp_wrongtype
    | _ =>
        let* now' := steady_now in
        let* ex := shard_for key (obs (Shard.hexists key field now')) in
        ret (resp_int ex)
    end.

Definition h_HLEN : Handler := fun a =>
  if nargs a <? 2 then ret (resp_error (b "wrong #args for 'hlen'"))
  else
    let key := arg a 1 in
    let* now := steady_now in
    let* t := shard_for key (Shard.type_of key now) in
    match t with
    | VString => ret resp_wrongtype
    | _ =>
        let* now' := steady_now in
        let* n := shard_for key (obs (Shard.hlen key now')) in
        ret (resp_int n)
    end.

Definition h_HGETALL : Handler := fun a =>
  if nargs a <? 2 then ret (resp_error (b "wrong #args for 'hgetall'"))
  else
    let key := arg a 1 in
    let* now := steady_now in
    let* t := shard_for key (Shard.type_of key now) in
    match t with
    | VString => ret resp_wrongtype
    | _ =>
        let* now' := steady_now in
        let* vec := shard_for key (obs (Shard.hgetall key now')) in
        ret (resp_array vec true)
    end.

Definition h_TYPE : Handler := fun a =>
  if nargs a <? 2 then ret (resp_error (b "wrong #args for 'type'"))
  else
    let key := arg a 1 in
    let* now := steady_now in
    let* t := shard_for key (Shard.type_of key now) in
    match t with
    | VNone => ret (resp_bulk (b "none"))
    | VString => ret (resp_bulk (b "string"))
    | VHash => ret (resp_bulk (b "hash"))
    end.

(** One element of the reply of MGET and HMGET. *)
Definition bulk_or_nil (v : option bytes) : bytes :=
  match v with
  | None => b "$-1" ++ CRLF
  | Some x => "$"%char :: dec (Z.of_nat (length x)) ++ CRLF ++ x ++ CRLF
  end.

(** The type check of MGET: [true] as soon as a key holds a hash. *)
Fixpoint mget_check (now : time_point) (keys : list bytes) : M bool :=
  match keys with
  | [] => ret false
  | key :: keys' =>
      let* t := shard_for key (Shard.type_of key now) in
      match t with
      | VHash => ret true
      | _ => mget_check now keys'
      end
  end.

Fixpoint mget_loop (keys : list bytes) (out : bytes) : M bytes :=
  match keys with
  | [] => ret out
  | key :: keys' =>
      let* now := steady_now in
      let* v := shard_for key (Shard.get key now) in
      mget_loop keys' (out ++ bulk_or_nil v)
  end.

Definition h_MGET : Handler := fun a =>
  if nargs a <? 2 then ret (resp_error (b "wrong #args for 'mget'"))
  else
    let* now := steady_now in
    let* bad := mget_check now (skipn 1 a) in
    if bad : bool then ret resp_wrongtype
    else mget_loop (skipn 1 a) ("*"%char :: dec (nargs a - 1) ++ CRLF).

Fixpoint hmget_loop (key : bytes) (fields : list bytes) (out : bytes)
    : M bytes :=
  match fields with
  | [] => ret out
  | f :: fields' =>
      let* now := steady_now in
      let* v := shard_for key (obs (Shard.hget key f now)) in
      hmget_loop key fields' (out ++ bulk_or_nil v)
  end.

Definition h_HMGET : Handler := fun a =>
  if nargs a <? 3 then ret (resp_error (b "wrong #args for 'hmget'"))
  else
    let key := arg a 1 in
    let* now := steady_now in
    let* t := shard_for key (Shard.type_of key now) in
    match t with
    | VString => ret resp_wrongtype
    | _ => hmget_loop key (skipn 2 a) ("*"%char :: dec (nargs a - 2) ++ CRLF)
    end.

(** The loop of MSET over the key/value pairs [a[1..]]. *)
Fixpoint mset_loop (kvs : list bytes) : M unit :=
  match kvs with
  | key :: val :: kvs' =>
      let* now := steady_now in
      shard_for key (upd (Shard.set key val now)) ;;;
      mset_loop kvs'
  | _ => ret tt
  end.

Definition h_MSET : Handler := fun a =>
  if (nargs a <? 3) || negb ((nargs a - 1) mod 2 =? 0)
  then ret (resp_error (b "wrong #args for 'mset'"))
  else mset_loop (skipn 1 a) ;;; ret (resp_simple (b "OK")).

(** The assignments [h_[name] = handler] of the constructor, in order. *)
Definition registrations : list (bytes * Handler) :=
  [ (b "PING", h_PING); (b "ECHO", h_ECHO); (b "SET", h_SET_plain);
    (b "GET", h_GET); (b "DEL", h_DEL); (b "EXPIRE", h_EXPIRE);
    (b "TTL", h_TTL); (b "SET", h_SET); (b "PEXPIRE", h_PEXPIRE);
    (b "PERSIST", h_PERSIST); (b "EXISTS", h_EXISTS); (b "HSET", h_HSET);
    (b "HGET", h_HGET); (b "HDEL", h_HDEL); (b "HEXISTS", h_HEXISTS);
    (b "HLEN", h_HLEN); (b "HGETALL", h_HGETALL); (b "TYPE", h_TYPE);
    (b "MGET", h_MGET); (b "HMGET", h_HMGET); (b "MSET", h_MSET) ].

(** The command table after the constructor has run. *)
Definition h_ : gmap bytes Handler :=
  foldl (fun m nh => <[nh.1 := nh.2]> m) ∅ registrations.

(** [Router::dispatch(args)] *)
Definition dispatch (args : list bytes) : M bytes :=
  match args with
  | [] => ret (resp_error (b "empty"))
  | name :: _ =>
      match h_ !! upper name with
      | None => ret (resp_error (b "unknown command"))
      | Some h => h args
      end
  end.

End Router.

(** ** Session (src/net/session.cpp) and ThreadPool
       (include/redisx/util/thread_pool.hpp) *)

(** What the read handler does with one parse result: post the generic
    protocol error to the strand, or hand a frame to [handle_frame]. *)
Inductive Action :=
  | PostProtoError
  | HandleFrame (args : list bytes).

(** [pending_.erase(0, n)] *)
Definition erase_head (pending : bytes) (n : Z) : bytes :=
  skipn (Z.to_nat n) pending.

(** The [for (;;)] loop of the read handler of [Session::do_read] on the
    pending buffer: the actions taken, in order, and the buffer left when
    the loop breaks. One unit of fuel per iteration; [None] when the loop
    has not ended within the fuel. *)
Fixpoint drain (fuel : nat) (pending : bytes) : option (list Action * bytes) :=
  match fuel with
  | O => None
  | S fuel' =>
      match parse_resp pending with
      | None => None
      | Some res =>
          match arr res, String.eqb (error res) "" with
          | None, true => Some ([], pending)               (* need more *)
          | _, false =>
              match drain fuel' (erase_head pending (consumed res)) with
              | None => None
              | Some (acts, rest) => Some (PostProtoError :: acts, rest)
              end
          | Some args, true =>
              match drain fuel' (erase_head pending (consumed res)) with
              | None => None
              | Some (acts, rest) => Some (HandleFrame args :: acts, rest)
              end
          end
      end
  end.

(** One connection served by the pool. The handlers posted to the strand
    run one at a time in the order of their posting, so the strand and
    [outq_] are one queue here. *)
Record Pipeline := mkPipeline {
  world_ : World;                          (* the store, shared by the workers *)
  pending_ : bytes;                        (* Session::pending_ *)
  q_ : list (list bytes);                  (* ThreadPool::q_, jobs not yet taken *)
  workers_ : list (option (list bytes));   (* the job each worker thread runs *)
  outq_ : list bytes;                      (* Session::outq_ *)
  sent_ : list bytes                       (* messages written to the socket *)
}.

(** The moves of the threads, as the scheduler orders them. *)
Inductive Event :=
  | Read (chunk : bytes)    (* the read handler runs on a received chunk *)
  | Take (i : nat)          (* worker [i] pops the front job of [q_] *)
  | Finish (i : nat)        (* worker [i] ends its job and posts the reply *)
  | Written.                (* the write of [outq_.front()] completes *)

Definition proto_reply : bytes := b "-ERR proto" ++ CRLF.

Section Pipeline.

Variable str_hash : bytes -> nat.

(** The effect of the actions of one read, in order. *)
Fixpoint perform (acts : list Action) (p : Pipeline) : Pipeline :=
  match acts with
  | [] => p
  | PostProtoError :: acts' =>
      perform acts'
        (mkPipeline (world_ p) (pending_ p) (q_ p) (workers_ p)
           (outq_ p ++ [proto_reply]) (sent_ p))
  | HandleFrame args :: acts' =>
      perform acts'
        (mkPipeline (world_ p) (pending_ p) (q_ p ++ [args]) (workers_ p)
           (outq_ p) (sent_ p))
  end.

(** One move; [None] when the move is not possible in the state (or, for
    a read, when its loop does not end). *)
Definition exec (e : Event) (p : Pipeline) : option Pipeline :=
  match e with
  | Read chunk =>
      let buf := pending_ p ++ chunk in
      match drain (S (length buf)) buf with
      | None => None
      | Some (acts, rest) =>
          Some (perform acts
                  (mkPipeline (world_ p) rest (q_ p) (workers_ p)
                     (outq_ p) (sent_ p)))
      end
  | Take i =>
      match workers_ p !! i, q_ p with
      | Some None, job :: jobs =>
          Some (mkPipeline (world_ p) (pending_ p) jobs
                  (<[i := Some job]> (workers_ p)) (outq_ p) (sent_ p))
      | _, _ => None
      end
  | Finish i =>
      match workers_ p !! i with
      | Some (Some job) =>
          let '(reply, w') := dispatch str_hash job (world_ p) in
          Some (mkPipeline w' (pending_ p) (q_ p)
                  (<[i := None]> (workers_ p)) (outq_ p ++ [reply]) (sent_ p))
      | _ => None
      end
  | Written =>
      match outq_ p with
      | msg :: msgs =>
          Some (mkPipeline (world_ p) (pending_ p) (q_ p) (workers_ p)
                  msgs (sent_ p ++ [msg]))
      | [] => None
      end
  end.

Fixpoint run (es : list Event) (p : Pipeline) : option Pipeline :=
  match es with
  | [] => Some p
  | e :: es' =>
      match exec e p with
      | None => None
      | Some p' => run es' p'
      end
  end.

(** A fresh connection on a server with [n] worker threads. *)
Definition connect (w : World) (n : nat) : Pipeline :=
  mkPipeline w [] [] (replicate n None) [] [].

End Pipeline.

(** ** The command-line client (app/redis-cli.cpp) *)

Definition DQUOTE : ascii := ascii_of_nat 34.
Definition SQUOTE : ascii := ascii_of_nat 39.
Definition BACKSLASH : ascii := ascii_of_nat 92.
Definition TAB : ascii := ascii_of_nat 9.

(** The [switch] on the character after a backslash. *)
Definition unescape (n : ascii) : ascii :=
  if Ascii.eqb n "n" then LF
  else if Ascii.eqb n "r" then CR
  else if Ascii.eqb n "t" then TAB
  else n.

(** The loop of [tokenize] from position [i] on, [line] being the
    characters from [i]: [out] and [cur] as the code has them, [inq] and
    [q] the quoting state. *)
Fixpoint tokenize_loop (line : bytes) (out : list bytes) (cur : bytes)
    (inq : bool) (q : ascii) : list bytes :=
  match line with
  | [] => if decide (cur = []) then out else out ++ [cur]
  | c :: rest =>
      if negb inq && is_space c then
        if decide (cur = []) then tokenize_loop rest out cur inq q
        else tokenize_loop rest (out ++ [cur]) [] inq q
      else if negb inq && (Ascii.eqb c DQUOTE || Ascii.eqb c SQUOTE) then
        tokenize_loop rest out cur true c
      else if inq && Ascii.eqb c q then
        tokenize_loop rest out cur false q
      else if inq && Ascii.eqb c BACKSLASH then
        match rest with
        | n :: rest' => tokenize_loop rest' out (cur ++ [unescape n]) inq q
        | [] => tokenize_loop rest out (cur ++ [c]) inq q
        end
      else tokenize_loop rest out (cur ++ [c]) inq q
  end.

(** [tokenize(line)] *)
Definition tokenize (line : bytes) : list bytes :=
  tokenize_loop line [] [] false zero.

(** [to_resp(args)] *)
Definition to_resp (args : list bytes) : bytes :=
  b "*" ++ dec (Z.of_nat (length args)) ++ CRLF ++
  concat (map (fun a => b "$" ++ dec (Z.of_nat (length a)) ++ CRLF ++ a ++ CRLF)
              args).

(** ** Expiry helpers (include/redisx/time/ttl.hpp) *)

Module Ttl.

Definition TTL_NO_KEY : Z := -2.
Definition TTL_NO_TTL : Z := -1.

Definition from_seconds (sec : Z) (base : time_point) : time_point :=
  add_sec base (if sec <? 0 then 0 else sec).

Definition from_milliseconds (ms : Z) (base : time_point) : time_point :=
  add_ms base (if ms <? 0 then 0 else ms).

Definition is_expired (when : option time_point) (t : time_point) : bool :=
  match when with
  | Some w => w <=? t
  | None => false
  end.

Definition remaining_ms (when : option time_point) (t : time_point) : Z :=
  match when with
  | None => TTL_NO_TTL
  | Some w =>
      let diff := to_ms (wrap_ll (w - t)) in
      if diff <? 0 then 0 else diff
  end.

End Ttl.

(** ** Expiry index (src/time/ttl.cpp) *)


(** A heap node: (when, key, generation). *)
Record HeapNode := mkNode {
  n_when : time_point;
  n_key : bytes;
  n_gen : Z
}.

#[global] Instance HeapNode_eq_dec : EqDecision HeapNode.
Proof. solve_decision. Defined.






(** [Index::Impl]; the heap as the collection of its nodes. *)
Record Index := mkIndex {
  heap : list HeapNode;
  gens : gmap bytes Z;              (* current generation per key *)
  expires : gmap bytes time_point;  (* current expiry per key *)
  next_gen : Z
}.

Module Index.


(** [Index::set(key, when)] *)
Definition set (key : bytes) (when : time_point) (I : Index) : Index :=
  let g := wrap_size (next_gen I + 1) in
  mkIndex (mkNode when key g :: heap I) (<[key := g]> (gens I))
          (<[key := when]> (expires I)) g.

(** [Index::clear(key)] *)
Definition clear (key : bytes) (I : Index) : Index :=
  match gens I !! key with
  | Some _ =>
      let g := wrap_size (next_gen I + 1) in
      mkIndex (heap I) (<[key := g]> (gens I)) (delete key (expires I)) g
  | None => mkIndex (heap I) (gens I) (delete key (expires I)) (next_gen I)
  end.







End Index.



(** * Vocabulary of the properties *)

(** The value the next reading of the clock returns. *)
Definition now_of (w : World) : time_point := clock_ w (reads_ w).

(** The world after one reading of the clock. *)
Definition tick (w : World) : World :=
  mkWorld (shards_ w) (clock_ w) (S (reads_ w)).

(** The kind of value [type_of] reports for a key of a shard. *)
Definition kind_of (key : bytes) (now : time_point) (s : Shard) : ValueType :=
  (Shard.type_of key now s).1.

Definition is_present (t : ValueType) : bool :=
  match t with VNone => false | _ => true end.

(** No key of the shard holds a string and a hash at once. *)
Definition disjoint_kinds (s : Shard) : Prop :=
  forall k, map_ s !! k = None \/ hmap_ s !! k = None.


(** The store has a shard, as [Store::Store] ensures. *)
Definition has_shard (w : World) : Prop := (0 < length (shards_ w))%nat.

(** Pre- and postconditions of a command on the world. *)
Definition hoare {A} (P : World -> Prop) (m : M A) (Q : A -> World -> Prop)
    : Prop :=
  forall w, P w -> Q (m w).1 (m w).2.



(** A parse result that lets the read loop end or go on: "need more", or a
    result that consumes at least one byte. *)
Definition makes_progress (r : RespParseResult) : Prop :=
  r = need_more \/ 0 < consumed r.

(** The bytes the array emitter writes for one item. *)
Definition bulk_frame (x : bytes) : bytes :=
  "$"%char :: dec (Z.of_nat (length x)) ++ CRLF ++ x ++ CRLF.

Definition digit_code (c : ascii) : Prop := 48 <= code c <= 57.
Definition not_cr (c : ascii) : Prop := c <> CR.




(** The keys among [keys] that [type_of] reports present in [w] at [now]. *)
Definition present_keys (str_hash : bytes -> nat) (now : time_point)
    (w : World) (keys : list bytes) : list bytes :=
  filter (fun key =>
            is_present (kind_of key now (shard_at str_hash w key)) = true)
         keys.

(** The hash of the concrete examples. *)
Definition hash0 : bytes -> nat := fun _ => 0%nat.

(** A clock that advances one millisecond per reading. *)
Definition clock_ms : nat -> time_point := fun n => Z.of_nat n * ticks_per_ms.

(** A server started with one shard. *)
Definition fresh_world : World := mkWorld (Store_new 1) clock_ms 0.

(** ** Vocabulary of the further properties *)

(** The bytes of a sequence of requests, as a client sends them. *)
Definition stream (Xs : list (list bytes)) : bytes :=
  concat (map (fun X => resp_array X true) Xs).




(** The consecutive pairs of a list. *)
Fixpoint pairs (l : list bytes) : list (bytes * bytes) :=
  match l with
  | f :: v :: l' => (f, v) :: pairs l'
  | _ => []
  end.

(** Only keys that hold a string carry an expiry time. *)
Definition ttl_on_strings (s : Shard) : Prop :=
  forall k, map_ s !! k = None -> ttl_ s !! k = None.



(** Key/value pairs as the arguments of MSET lists them. *)
Definition flatten_pairs (kvs : list (bytes * bytes)) : list bytes :=
  concat (map (fun kv => [kv.1; kv.2]) kvs).

(** What a shard holds for a key: its string, its expiry time and its
    hash. *)
Definition lookups (k : bytes) (s : Shard)
    : option bytes * option time_point * option (gmap bytes bytes) :=
  (map_ s !! k, ttl_ s !! k, hmap_ s !! k).

(** The store holds [st] for the key [k]. *)
Definition holds (str_hash : bytes -> nat) (k : bytes)
    (st : option bytes * option time_point * option (gmap bytes bytes))
    (w : World) : Prop :=
  has_shard w /\ lookups k (shard_at str_hash w k) = st.

(** A command that leaves what the store holds for [k] as it is. *)
Definition frames {A : Type} (str_hash : bytes -> nat) (k : bytes)
    (st : option bytes * option time_point * option (gmap bytes bytes))
    (m : M A) : Prop :=
  hoare (holds str_hash k st) m (fun _ => holds str_hash k st).

(** A line of text: no carriage return and no line feed. *)
Definition one_line (s : bytes) : Prop := (CR ∉ s) /\ (LF ∉ s).

(** One value of the protocol: a simple string, an error, an integer, a
    bulk string, nil, or an array of values. *)
Inductive resp_value : bytes -> Prop :=
  | rv_simple (s : bytes) :
      one_line s -> resp_value ("+"%char :: s ++ CRLF)
  | rv_error (s : bytes) :
      one_line s -> resp_value ("-"%char :: s ++ CRLF)
  | rv_int (v : Z) : resp_value (":"%char :: dec v ++ CRLF)
  | rv_bulk (x : bytes) :
      resp_value ("$"%char :: dec (Z.of_nat (length x)) ++ CRLF ++ x ++ CRLF)
  | rv_nil : resp_value (b "$-1" ++ CRLF)
  | rv_array (xs : list bytes) :
      resp_values xs ->
      resp_value ("*"%char :: dec (Z.of_nat (length xs)) ++ CRLF ++ concat xs)
with resp_values : list bytes -> Prop :=
  | rvs_nil : resp_values []
  | rvs_cons (x : bytes) (xs : list bytes) :
      resp_value x -> resp_values xs -> resp_values (x :: xs).

(** A command whose reply is one value of the protocol. *)
Definition replies_value (m : M bytes) : Prop :=
  hoare (fun _ => True) m (fun r _ => resp_value r).

(** A character a word of a command line is made of: no white space and
    no quote. *)
Definition plain (c : ascii) : bool :=
  negb (is_space c) && negb (Ascii.eqb c DQUOTE) && negb (Ascii.eqb c SQUOTE).

(** An argument written between double quotes. *)
Definition escape_char (c : ascii) : bytes :=
  if Ascii.eqb c DQUOTE || Ascii.eqb c BACKSLASH then [BACKSLASH; c] else [c].

Definition quoted (s : bytes) : bytes :=
  DQUOTE :: concat (map escape_char s) ++ [DQUOTE].

(** An argument as typed on the command line, between double quotes or
    as it is. *)
Definition written (a : bytes * bool) : bytes :=
  if a.2 then quoted a.1 else a.1.

(** Such an argument can be typed: it is not empty and, without quotes,
    made of plain characters. *)
Definition typable (a : bytes * bool) : Prop :=
  a.1 <> [] /\ (a.2 = false -> forallb plain a.1 = true).

(** A command line: the arguments, a space after each. *)
Definition command_line (args : list (bytes * bool)) : bytes :=
  concat (map (fun a => written a ++ b " ") args).




(** * Proof automation *)

(** Settles the integer comparisons of the goal that [lia] can decide. *)
Ltac decide_cmp :=
  repeat match goal with
  | |- context [Z.ltb ?a ?b] =>
      first [ replace (Z.ltb a b) with true by (symmetry; apply Z.ltb_lt; lia)
            | replace (Z.ltb a b) with false by (symmetry; apply Z.ltb_ge; lia) ]
  | |- context [Z.leb ?a ?b] =>
      first [ replace (Z.leb a b) with true by (symmetry; apply Z.leb_le; lia)
            | replace (Z.leb a b) with false by (symmetry; apply Z.leb_gt; lia) ]
  | |- context [Z.eqb ?a ?b] =>
      first [ replace (Z.eqb a b) with true by (symmetry; apply Z.eqb_eq; lia)
            | replace (Z.eqb a b) with false by (symmetry; apply Z.eqb_neq; lia) ]
  end.

Ltac length_lia :=
  unfold CRLF in *;
  repeat (progress (rewrite ?length_app; cbn [length]));
  lia.

Ltac list_eq :=
  subst; unfold CRLF; repeat (rewrite <- ?app_assoc; cbn [app]); reflexivity.

(** * The codec

    ** Decimal text *)

Lemma code_digit_char (d : Z) : 0 <= d < 10 -> code (digit_char d) = 48 + d.
Proof.
  intros Hd.
  assert (Hcases : d = 0 \/ d = 1 \/ d = 2 \/ d = 3 \/ d = 4 \/ d = 5 \/
                   d = 6 \/ d = 7 \/ d = 8 \/ d = 9) by lia.
  repeat (destruct Hcases as [-> | Hcases]; [reflexivity |]).
  subst d. reflexivity.
Qed.

Lemma dec_digits_app (fuel : nat) : forall n acc,
  dec_digits fuel n acc = dec_digits fuel n [] ++ acc.
Proof.
  induction fuel as [| fuel IH]; intros n acc; simpl.
  - reflexivity.
  - destruct (n <? 10); [reflexivity |].
    rewrite (IH (n / 10) (_ :: acc)), (IH (n / 10) [_]).
    by rewrite <- app_assoc.
Qed.

Lemma dec_digits_all_digits (fuel : nat) : forall n acc,
  0 <= n -> Forall digit_code acc -> Forall digit_code (dec_digits fuel n acc).
Proof.
  induction fuel as [| fuel IH]; intros n acc Hn Hacc; simpl.
  - constructor; [| done]. unfold digit_code.
    rewrite code_digit_char; pose proof (Z.mod_pos_bound n 10); lia.
  - assert (Forall digit_code (digit_char (n mod 10) :: acc)).
    { constructor; [| done]. unfold digit_code.
      rewrite code_digit_char; pose proof (Z.mod_pos_bound n 10); lia. }
    destruct (n <? 10); [done |].
    apply IH; [| done]. apply Z.div_pos; lia.
Qed.

Lemma dec_nonneg_all_digits (n : Z) : 0 <= n -> Forall digit_code (dec_nonneg n).
Proof. intros. apply dec_digits_all_digits; [done | constructor]. Qed.

Lemma dec_digits_nonempty fuel n acc : dec_digits fuel n acc <> [].
Proof.
  rewrite dec_digits_app. destruct fuel; simpl; [done |].
  destruct (n <? 10); [done |].
  rewrite dec_digits_app. by destruct (dec_digits fuel (n / 10) []).
Qed.

Lemma parse_ll_loop_app (s1 s2 : bytes) : forall v,
  parse_ll_loop (s1 ++ s2) v =
  match parse_ll_loop s1 v with
  | Some v' => parse_ll_loop s2 v'
  | None => None
  end.
Proof.
  induction s1 as [| c s1 IH]; intros v; simpl; [done |].
  destruct (_ || _); [done |].
  destruct (_ <? v); [done |]. apply IH.
Qed.

Lemma parse_ll_loop_digit (d v : Z) :
  0 <= d < 10 -> 0 <= v -> v * 10 + d <= LLONG_MAX ->
  parse_ll_loop [digit_char d] v = Some (v * 10 + d).
Proof.
  intros Hd Hv Hmax. simpl. rewrite code_digit_char by done.
  replace ((48 + d <? 48) || (57 <? 48 + d)) with false by lia.
  replace (48 + d - 48) with d by lia.
  assert (v <= (LLONG_MAX - d) / 10) by (apply Z.div_le_lower_bound; lia).
  replace ((LLONG_MAX - d) / 10 <? v) with false by lia.
  done.
Qed.

Lemma parse_dec_digits (fuel : nat) : forall n,
  0 <= n <= LLONG_MAX -> n < 10 ^ Z.of_nat (S fuel) ->
  parse_ll_loop (dec_digits fuel n []) 0 = Some n.
Proof.
  induction fuel as [| fuel IH]; intros n Hn Hlt.
  - simpl dec_digits. change (10 ^ Z.of_nat 1) with 10 in Hlt.
    rewrite Z.mod_small by lia.
    rewrite parse_ll_loop_digit by lia. f_equal; lia.
  - simpl dec_digits. destruct (Z.ltb_spec n 10) as [Hs | Hb].
    + rewrite Z.mod_small by lia.
      rewrite parse_ll_loop_digit by lia. f_equal; lia.
    + rewrite dec_digits_app, parse_ll_loop_app.
      pose proof (Z.mod_pos_bound n 10 ltac:(lia)) as Hm.
      pose proof (Z.div_mod n 10 ltac:(lia)) as Hdm.
      assert (0 <= n / 10) by (apply Z.div_pos; lia).
      rewrite IH.
      * rewrite parse_ll_loop_digit by lia. f_equal; lia.
      * lia.
      * apply Z.div_lt_upper_bound; [lia |].
        rewrite Nat2Z.inj_succ, Z.pow_succ_r in Hlt by lia. done.
Qed.

Lemma lt_pow10_log2 (n : Z) : 0 <= n -> n < 10 ^ Z.of_nat (S (Z.to_nat (Z.log2 n))).
Proof.
  intros Hn. rewrite Nat2Z.inj_succ, Z2Nat.id by apply Z.log2_nonneg.
  destruct (Z.eq_dec n 0) as [-> | Hne]; [done |].
  pose proof (Z.log2_spec n ltac:(lia)) as [_ Hup].
  eapply Z.lt_le_trans; [exact Hup |].
  apply Z.pow_le_mono_l. lia.
Qed.

Lemma parse_ll_dec_nonneg (n : Z) :
  0 <= n <= LLONG_MAX -> parse_ll (dec_nonneg n) = (true, n).
Proof.
  intros Hn. unfold parse_ll.
  pose proof (dec_nonneg_all_digits n ltac:(lia)) as Hall.
  pose proof (parse_dec_digits _ n Hn (lt_pow10_log2 n ltac:(lia))) as Hp.
  fold (dec_nonneg n) in Hp.
  destruct (dec_nonneg n) as [| c s] eqn:E.
  { by apply dec_digits_nonempty in E. }
  apply Forall_cons in Hall as [Hc _].
  destruct (Ascii.eqb_spec c "-") as [-> | _].
  { unfold digit_code in Hc. vm_compute in Hc. destruct Hc as [Hc _].
    by exfalso; apply Hc. }
  rewrite Hp. f_equal. lia.
Qed.

(** ** Buffers *)

Lemma at_app_head (pre : bytes) (c : ascii) (rest : bytes) :
  at_ (pre ++ c :: rest) (Z.of_nat (length pre)) = c.
Proof. unfold at_. rewrite Nat2Z.id. apply nth_middle. Qed.

Lemma at_app_next (pre : bytes) (c d : ascii) (rest : bytes) :
  at_ (pre ++ c :: d :: rest) (Z.of_nat (length pre) + 1) = d.
Proof.
  replace (pre ++ c :: d :: rest) with ((pre ++ [c]) ++ d :: rest)
    by (by rewrite <- app_assoc).
  replace (Z.of_nat (length pre) + 1) with (Z.of_nat (length (pre ++ [c])))
    by (rewrite length_app; simpl; lia).
  apply at_app_head.
Qed.

Lemma sub_app_mid (pre mid rest : bytes) :
  sub (pre ++ mid ++ rest) (Z.of_nat (length pre)) (Z.of_nat (length mid)) = mid.
Proof.
  unfold sub. rewrite !Nat2Z.id.
  rewrite drop_app_length. apply take_app_length.
Qed.

Lemma digit_code_not_cr (c : ascii) : digit_code c -> not_cr c.
Proof. intros [Hlo _] ->. vm_compute in Hlo. by apply Hlo. Qed.

(** [read_line] stops at the first CRLF at or after [off]. *)
Lemma read_line_from_finds (mid : bytes) : forall (pre rest : bytes) fuel len,
  Forall not_cr mid -> (length mid < fuel)%nat ->
  Z.of_nat (length pre) + Z.of_nat (length mid) + 2 <= len ->
  read_line_from fuel (pre ++ mid ++ CR :: LF :: rest) len
    (Z.of_nat (length pre))
  = Some (Z.of_nat (length pre) + Z.of_nat (length mid)).
Proof.
  induction mid as [| c mid IH]; intros pre rest fuel len Hmid Hfuel Hlen;
    (destruct fuel as [| fuel]; [simpl in Hfuel; lia |]);
    simpl length in *.
  - simpl. rewrite at_app_head, at_app_next. decide_cmp.
    rewrite !Ascii.eqb_refl. simpl. f_equal. lia.
  - apply Forall_cons in Hmid as [Hc Hmid].
    change ((c :: mid) ++ CR :: LF :: rest) with (c :: (mid ++ CR :: LF :: rest)).
    cbn [read_line_from].
    rewrite at_app_head.
    destruct (Ascii.eqb_spec c CR) as [-> | _]; [done |]. cbn [andb].
    decide_cmp.
    replace (pre ++ c :: mid ++ CR :: LF :: rest)
      with ((pre ++ [c]) ++ mid ++ CR :: LF :: rest)
      by (by rewrite <- app_assoc).
    replace (Z.of_nat (length pre) + 1) with (Z.of_nat (length (pre ++ [c])))
      by (rewrite length_app; simpl; lia).
    rewrite IH; [| done | lia | rewrite length_app; simpl; lia].
    f_equal. rewrite length_app. simpl. lia.
Qed.

Lemma get_line_finds (pre mid rest : bytes) (len : Z) :
  Forall not_cr mid ->
  len = Z.of_nat (length (pre ++ mid ++ CR :: LF :: rest)) ->
  get_line (pre ++ mid ++ CR :: LF :: rest) len (Z.of_nat (length pre))
  = Some (mkLine (Z.of_nat (length pre))
            (Z.of_nat (length pre) + Z.of_nat (length mid))
            (Z.of_nat (length pre) + Z.of_nat (length mid) + 2)).
Proof.
  intros Hmid Hlen. unfold get_line, read_line.
  rewrite !length_app in Hlen. simpl length in Hlen.
  rewrite read_line_from_finds; [done | done | lia | lia].
Qed.

Lemma at_split (data pre : bytes) (c : ascii) (rest : bytes) (off : Z) :
  data = pre ++ c :: rest -> off = Z.of_nat (length pre) -> at_ data off = c.
Proof. intros -> ->. apply at_app_head. Qed.

Lemma sub_split (data pre mid rest : bytes) (off n : Z) :
  data = pre ++ mid ++ rest ->
  off = Z.of_nat (length pre) -> n = Z.of_nat (length mid) ->
  sub data off n = mid.
Proof. intros -> -> ->. apply sub_app_mid. Qed.

Lemma get_line_split (data pre mid rest : bytes) (len off : Z) :
  data = pre ++ mid ++ CR :: LF :: rest ->
  off = Z.of_nat (length pre) -> len = Z.of_nat (length data) ->
  Forall not_cr mid ->
  get_line data len off =
  Some (mkLine off (off + Z.of_nat (length mid))
               (off + Z.of_nat (length mid) + 2)).
Proof. intros -> -> -> Hmid. by apply get_line_finds. Qed.

Lemma dec_of_nat (n : nat) : dec (Z.of_nat n) = dec_nonneg (Z.of_nat n).
Proof. unfold dec. by decide_cmp. Qed.

Lemma dec_of_nat_not_cr (n : nat) : Forall not_cr (dec (Z.of_nat n)).
Proof.
  rewrite dec_of_nat.
  eapply Forall_impl; [apply dec_nonneg_all_digits; lia |].
  apply digit_code_not_cr.
Qed.

Lemma parse_ll_dec_of_nat (n : nat) :
  Z.of_nat n <= LLONG_MAX -> parse_ll (dec (Z.of_nat n)) = (true, Z.of_nat n).
Proof. intros. rewrite dec_of_nat. apply parse_ll_dec_nonneg. lia. Qed.

Lemma length_bulk_frame (x : bytes) :
  Z.of_nat (length (bulk_frame x)) =
  1 + Z.of_nat (length (dec (Z.of_nat (length x)))) + 2 + Z.of_nat (length x) + 2.
Proof.
  unfold bulk_frame, CRLF. cbn [length]. rewrite !length_app. cbn [length]. lia.
Qed.

(** One iteration of the loop over a well-formed bulk. *)
Lemma parse_bulks_bulk (fuel : nat) (data pre x rest : bytes)
    (len n i : Z) (args : list bytes) :
  data = pre ++ bulk_frame x ++ rest ->
  len = Z.of_nat (length data) -> len <= LLONG_MAX -> i < n ->
  parse_bulks (S fuel) data len n i (Z.of_nat (length pre)) args =
  parse_bulks fuel data len n (i + 1)
    (Z.of_nat (length (pre ++ bulk_frame x))) (args ++ [x]).
Proof.
  intros Hdata Hlen Hmax Hi.
  set (off := Z.of_nat (length pre)).
  set (d := dec (Z.of_nat (length x))) in *.
  set (ld := Z.of_nat (length d)).
  set (lx := Z.of_nat (length x)).
  assert (Hsize : len = off + (1 + ld + 2 + lx + 2) + Z.of_nat (length rest)).
  { rewrite Hlen, Hdata, !length_app, !Nat2Z.inj_add, length_bulk_frame.
    subst off ld lx d. lia. }
  assert (H1 : at_ data off = "$"%char).
  { eapply at_split; [| reflexivity]. unfold bulk_frame in Hdata. list_eq. }
  assert (H2 : get_line data len (off + 1) =
               Some (mkLine (off + 1) (off + 1 + ld) (off + 1 + ld + 2))).
  { eapply (get_line_split data (pre ++ ["$"%char]) d (x ++ CRLF ++ rest)).
    - unfold bulk_frame in Hdata. fold d in Hdata. list_eq.
    - length_lia.
    - done.
    - apply dec_of_nat_not_cr. }
  assert (H3 : sub data (off + 1) ld = d).
  { eapply (sub_split data (pre ++ ["$"%char]) d (CRLF ++ x ++ CRLF ++ rest)).
    - unfold bulk_frame in Hdata. fold d in Hdata. list_eq.
    - length_lia.
    - done. }
  assert (H4 : sub data (off + 1 + ld + 2) lx = x).
  { eapply (sub_split data (pre ++ "$"%char :: d ++ CRLF) x (CRLF ++ rest)).
    - unfold bulk_frame in Hdata. fold d in Hdata. list_eq.
    - length_lia.
    - done. }
  assert (H5 : at_ data (off + 1 + ld + 2 + lx) = CR).
  { eapply (at_split data (pre ++ "$"%char :: d ++ CRLF ++ x) CR (LF :: rest)).
    - unfold bulk_frame in Hdata. fold d in Hdata. list_eq.
    - length_lia. }
  assert (H6 : at_ data (off + 1 + ld + 2 + lx + 1) = LF).
  { eapply (at_split data (pre ++ "$"%char :: d ++ CRLF ++ x ++ [CR]) LF rest).
    - unfold bulk_frame in Hdata. fold d in Hdata. list_eq.
    - length_lia. }
  assert (Hll : parse_ll d = (true, lx)).
  { apply parse_ll_dec_of_nat. lia. }
  assert (0 <= off /\ 0 <= ld /\ 0 <= lx) as (? & ? & ?) by lia.
  cbn [parse_bulks]. decide_cmp. rewrite H1. cbn [Ascii.eqb Bool.eqb negb].
  rewrite H2. cbn [l_end l_next].
  replace (off + 1 + ld - (off + 1)) with ld by lia.
  rewrite H3, Hll. cbn [negb].
  decide_cmp.
  assert (Hw : wrap_size (off + 1 + ld + 2 + lx + 2) = off + 1 + ld + 2 + lx + 2).
  { unfold wrap_size. apply Z.mod_small. unfold SIZE_MOD, LLONG_MAX in *. lia. }
  rewrite Hw. decide_cmp.
  rewrite H4, H5, H6. cbn [Ascii.eqb Bool.eqb negb orb CR LF].
  f_equal. rewrite length_app, Nat2Z.inj_add, length_bulk_frame.
  subst off ld lx d. lia.
Qed.

Lemma parse_bulks_frames (data : bytes) (len n : Z) (Xs : list bytes) :
  forall (pre : bytes) (args : list bytes) (fuel : nat) (i : Z),
  data = pre ++ concat (map bulk_frame Xs) ->
  len = Z.of_nat (length data) -> len <= LLONG_MAX ->
  (length Xs <= fuel)%nat -> n - i = Z.of_nat (length Xs) ->
  parse_bulks fuel data len n i (Z.of_nat (length pre)) args =
  Some (mkResult (Some (args ++ Xs)) "" len).
Proof.
  induction Xs as [| x Xs IH]; intros pre args fuel i Hdata Hlen Hmax Hfuel Hn.
  - simpl in Hdata, Hn. rewrite app_nil_r in *. subst data.
    destruct fuel; cbn [parse_bulks]; decide_cmp; by rewrite Hlen.
  - destruct fuel as [| fuel]; [simpl in Hfuel; lia |].
    simpl in Hdata, Hfuel, Hn.
    rewrite (parse_bulks_bulk fuel data pre x (concat (map bulk_frame Xs)));
      [| done | done | done | lia].
    rewrite (IH (pre ++ bulk_frame x) (args ++ [x]) fuel (i + 1));
      [| by rewrite <- app_assoc | done | done | lia | lia].
    by rewrite <- app_assoc.
Qed.

Lemma resp_array_frames (X : list bytes) :
  resp_array X true =
  ("*"%char :: dec (Z.of_nat (length X)) ++ CRLF) ++ concat (map bulk_frame X).
Proof. unfold resp_array. cbn [app]. by rewrite <- app_assoc. Qed.

Lemma length_concat_frames (X : list bytes) :
  (length X <= length (concat (map bulk_frame X)))%nat.
Proof.
  induction X as [| x X IH]; simpl; [lia |].
  rewrite length_app. lia.
Qed.

(** C6. Parsing the array-of-bulks encoding of a list of byte strings (of
    any content, as long as the encoding has a size a [long long] holds)
    returns that list, with the whole encoding consumed and no error. *)
Theorem resp_roundtrip (X : list bytes) :
  Z.of_nat (length (resp_array X true)) <= LLONG_MAX ->
  parse_resp (resp_array X true) =
  Some (mkResult (Some X) "" (Z.of_nat (length (resp_array X true)))).
Proof.
  intros Hmax.
  set (data := resp_array X true) in *.
  set (len := Z.of_nat (length data)) in *.
  set (d := dec (Z.of_nat (length X))).
  set (ld := Z.of_nat (length d)).
  pose proof (resp_array_frames X) as Hdata. fold data d in Hdata.
  pose proof (length_concat_frames X) as HlenX.
  assert (Hsize : len = 1 + ld + 2 + Z.of_nat (length (concat (map bulk_frame X)))).
  { subst len ld. rewrite Hdata. length_lia. }
  assert (H1 : at_ data 0 = "*"%char).
  { eapply (at_split data [] _ _ 0); [| reflexivity]. rewrite Hdata. list_eq. }
  assert (H2 : get_line data len 1 = Some (mkLine 1 (1 + ld) (1 + ld + 2))).
  { eapply (get_line_split data ["*"%char] d (concat (map bulk_frame X)) len 1).
    - rewrite Hdata. list_eq.
    - reflexivity.
    - reflexivity.
    - apply dec_of_nat_not_cr. }
  assert (H3 : sub data 1 ld = d).
  { eapply (sub_split data ["*"%char] d (CRLF ++ concat (map bulk_frame X))).
    - rewrite Hdata. list_eq.
    - reflexivity.
    - reflexivity. }
  assert (Hll : parse_ll d = (true, Z.of_nat (length X))).
  { apply parse_ll_dec_of_nat. lia. }
  unfold parse_resp. fold data len.
  assert (0 <= ld) by lia.
  decide_cmp. rewrite H1. cbn [Ascii.eqb Bool.eqb negb].
  rewrite H2. cbn [l_end l_next].
  replace (1 + ld - 1) with ld by lia.
  rewrite H3, Hll. cbn [negb orb]. decide_cmp.
  replace (1 + ld + 2)
    with (Z.of_nat (length ("*"%char :: d ++ CRLF))) by length_lia.
  apply (parse_bulks_frames data len (Z.of_nat (length X)) X
           ("*"%char :: d ++ CRLF) [] (length data) 0); try done.
  - lia.
  - lia.
Qed.

(** The round trip on a command whose arguments are empty, contain CR and
    LF, and contain a frame of their own. *)
Lemma resp_roundtrip_witness :
  let X := [b "SET"; []; [CR; LF]; b "*1"; CR :: LF :: b "$-1"] in
  parse_resp (resp_array X true) =
  Some (mkResult (Some X) "" (Z.of_nat (length (resp_array X true)))).
Proof. intros X. apply (resp_roundtrip X). vm_compute. discriminate. Defined.

(** * The shard *)

Lemma contains_true {V} (m : gmap bytes V) (k : bytes) :
  contains m k = true <-> is_Some (m !! k).
Proof. unfold contains. destruct (m !! k); split; (done || eauto || by intros []). Qed.

Lemma contains_false {V} (m : gmap bytes V) (k : bytes) :
  contains m k = false <-> m !! k = None.
Proof. unfold contains. by destruct (m !! k). Qed.


Lemma to_ms_pos (d : Z) : 0 < to_ms d <-> ticks_per_ms <= d.
Proof.
  unfold to_ms, ticks_per_ms. split; intros H.
  - destruct (Z.le_gt_cases 1000000 d) as [| Hlt]; [done |]. exfalso.
    destruct (Z.le_gt_cases 0 d).
    + rewrite Z.quot_small in H by lia. lia.
    + pose proof (Z.quot_opp_l d 1000000 ltac:(lia)).
      pose proof (Z.quot_pos (- d) 1000000 ltac:(lia) ltac:(lia)). lia.
  - apply Z.quot_str_pos. lia.
Qed.


Lemma ttl_ms_cases (k : bytes) (now : time_point) (s : Shard) :
  let present := contains (map_ s) k || contains (hmap_ s) k in
  (Shard.ttl_ms k now s = -2 <->
     present = false \/
     exists tp, ttl_ s !! k = Some tp /\ tp - now < ticks_per_ms) /\
  (Shard.ttl_ms k now s = -1 <-> present = true /\ ttl_ s !! k = None) /\
  (forall tp, present = true -> ttl_ s !! k = Some tp ->
     ticks_per_ms <= tp - now ->
     Shard.ttl_ms k now s = to_ms (tp - now) /\ 0 < Shard.ttl_ms k now s) /\
  (forall tp, ttl_ s !! k = Some tp -> tp <= now -> Shard.ttl_ms k now s = -2) /\
  Shard.ttl_ms k now s <> 0.
Proof.
  intros present. unfold Shard.ttl_ms. fold present.
  destruct present; cbn [negb]; [destruct (ttl_ s !! k) as [tp |] eqn:Ettl |].
  - pose proof (to_ms_pos (tp - now)) as Hpos. unfold ticks_per_ms in *.
    destruct (Z.leb_spec (to_ms (tp - now)) 0) as [Hle | Hgt]; split_and!.
    + split; [intros _; right; exists tp; split; [done | lia] | done].
    + split; [done | by intros [_ ?]].
    + intros tp' _ [= <-] ?. lia.
    + done.
    + done.
    + split; [lia | intros [? | (tp' & [= <-] & ?)]; [done | lia]].
    + split; [lia | by intros [_ ?]].
    + by intros tp' _ [= <-] _.
    + intros tp' [= <-] ?. lia.
    + lia.
  - split_and!; try done.
    split; [done | intros [? | (? & ? & _)]; done].
  - split_and!; try done.
    + split; [by left | done].
    + split; [done | by intros [? _]].
Qed.







(** Whatever the key, the field and the deadline: [hdel] of the last field
    of a hash with a live TTL removes the hash and keeps the TTL record. *)
Lemma hdel_last_field_leaves_ttl (k f v : bytes) (now tp : time_point) (s : Shard) :
  hmap_ s !! k = Some {[ f := v ]} -> ttl_ s !! k = Some tp -> now < tp ->
  (Shard.hdel k f now s).1 = 1 /\
  hmap_ (Shard.hdel k f now s).2 !! k = None /\
  ttl_ (Shard.hdel k f now s).2 !! k = Some tp.
Proof.
  intros Hh Ht Hlt. unfold Shard.hdel, Shard.is_expired_unlocked, contains.
  rewrite Ht, Hh. replace (tp <=? now) with false by lia.
  rewrite lookup_singleton_eq, delete_singleton_eq.
  destruct (decide _) as [_ | Hne]; [| done].
  cbn [fst snd hmap_ ttl_]. by rewrite lookup_delete_eq.
Qed.

(** C3 fails in the code. The shard calls [hset k f v], [set_expire k 100]
    and then [hdel k f] at time 10 leave [k] in neither value map but
    still in [ttl_]; a hash created at [k] afterwards carries that TTL. *)
Theorem hdel_last_field_keeps_ttl :
  let k := b "k" in
  let s0 := (Shard.hset k (b "f") (b "v") 0 Shard.empty).2 in
  let s1 := Shard.set_expire k 100 s0 in
  let s2 := (Shard.hdel k (b "f") 10 s1).2 in
  let s3 := (Shard.hset k (b "g") (b "w") 20 s2).2 in
  (hmap_ s1 !! k = Some {[ b "f" := b "v" ]} /\ map_ s1 !! k = None /\
   ttl_ s1 !! k = Some 100) /\
  (Shard.hdel k (b "f") 10 s1).1 = 1 /\
  (hmap_ s2 !! k = None /\ map_ s2 !! k = None /\ ttl_ s2 !! k = Some 100) /\
  (hmap_ s3 !! k = Some {[ b "g" := b "w" ]} /\ ttl_ s3 !! k = Some 100).
Proof. vm_compute. split_and!; reflexivity. Qed.

(** * The router *)

(** ** Rules for commands *)

Lemma hoare_ret {A} (P : World -> Prop) (Q : A -> World -> Prop) (a : A) :
  (forall w, P w -> Q a w) -> hoare P (ret a) Q.
Proof. intros H w Hw. by apply H. Qed.

Lemma hoare_bind {A B} (P : World -> Prop) (Q : A -> World -> Prop)
    (R : B -> World -> Prop) (m : M A) (f : A -> M B) :
  hoare P m Q -> (forall a, hoare (Q a) (f a) R) -> hoare P (bind m f) R.
Proof.
  intros Hm Hf w Hw. unfold bind. specialize (Hm w Hw).
  destruct (m w) as [a w']. by apply Hf.
Qed.


Lemma hoare_now (P : World -> Prop) (Q : time_point -> World -> Prop) :
  (forall w, P w ->
     Q (now_of w) (mkWorld (shards_ w) (clock_ w) (S (reads_ w)))) ->
  hoare P steady_now Q.
Proof. intros H w Hw. by apply H. Qed.

Section RouterFacts.

Variable str_hash : bytes -> nat.

Lemma shard_index_lt (w : World) (key : bytes) :
  has_shard w -> (shard_index str_hash w key < length (shards_ w))%nat.
Proof. intros H. apply Nat.mod_upper_bound. unfold has_shard in H. lia. Qed.

Lemma shard_at_lookup (w : World) (key : bytes) :
  has_shard w -> shards_ w !! shard_index str_hash w key = Some (shard_at str_hash w key).
Proof.
  intros H. unfold shard_at.
  destruct (lookup_lt_is_Some_2 (shards_ w) _ (shard_index_lt w key H))
    as [s ->]. done.
Qed.

Lemma shard_for_fst {A} (key : bytes) (op : Shard -> A * Shard) (w : World) :
  (shard_for str_hash key op w).1 = (op (shard_at str_hash w key)).1.
Proof. unfold shard_for. by destruct (op _). Qed.

Lemma shard_for_snd {A} (key : bytes) (op : Shard -> A * Shard) (w : World) :
  (shard_for str_hash key op w).2 =
  mkWorld (<[shard_index str_hash w key := (op (shard_at str_hash w key)).2]> (shards_ w))
          (clock_ w) (reads_ w).
Proof. unfold shard_for. by destruct (op _). Qed.

Lemma shard_index_insert (w : World) (i : nat) (s : Shard) c r (key : bytes) :
  shard_index str_hash (mkWorld (<[i := s]> (shards_ w)) c r) key = shard_index str_hash w key.
Proof. unfold shard_index. cbn. by rewrite length_insert. Qed.

(** After an operation on the shard of [key], that shard is the one the
    operation returned. *)
Lemma shard_at_shard_for {A} (key : bytes) (op : Shard -> A * Shard) (w : World) :
  has_shard w ->
  shard_at str_hash (shard_for str_hash key op w).2 key = (op (shard_at str_hash w key)).2.
Proof.
  intros H. rewrite shard_for_snd. unfold shard_at at 1.
  rewrite shard_index_insert. cbn [shards_].
  rewrite list_lookup_insert_eq; [done |]. by apply shard_index_lt.
Qed.

Lemma has_shard_shard_for {A} (key : bytes) (op : Shard -> A * Shard) (w : World) :
  has_shard w -> has_shard (shard_for str_hash key op w).2.
Proof.
  unfold has_shard. rewrite shard_for_snd. cbn. by rewrite length_insert.
Qed.


End RouterFacts.

(** ** The two value maps stay disjoint *)

Ltac disjoint_tac key :=
  let k' := fresh "k'" in
  intros k';
  repeat match goal with H : disjoint_kinds _ |- _ => specialize (H k') end;
  cbn [map_ ttl_ hmap_ Shard.erase_all];
  destruct (decide (k' = key)) as [-> | ?];
  rewrite ?lookup_insert_eq, ?lookup_delete_eq;
  rewrite ?lookup_insert_ne, ?lookup_delete_ne by done;
  try tauto; try (by left); try (by right).

Lemma erase_all_disjoint (k : bytes) (s : Shard) :
  disjoint_kinds s -> disjoint_kinds (Shard.erase_all k s).
Proof. intros H. disjoint_tac k. Qed.

Lemma get_disjoint (k : bytes) (now : time_point) (s : Shard) :
  disjoint_kinds s -> disjoint_kinds (Shard.get k now s).2.
Proof.
  intros H. unfold Shard.get. destruct (Shard.is_expired_unlocked s k now);
    [by apply erase_all_disjoint | done].
Qed.

Lemma set_disjoint (k v : bytes) (now : time_point) (s : Shard) :
  disjoint_kinds s -> disjoint_kinds (Shard.set k v now s).
Proof.
  intros H. unfold Shard.set.
  destruct (Shard.is_expired_unlocked s k now); disjoint_tac k.
Qed.

Lemma del_disjoint (k : bytes) (s : Shard) :
  disjoint_kinds s -> disjoint_kinds (Shard.del k s).2.
Proof. intros H. unfold Shard.del. cbn [snd]. disjoint_tac k. Qed.

Lemma set_expire_disjoint (k : bytes) (tp : time_point) (s : Shard) :
  disjoint_kinds s -> disjoint_kinds (Shard.set_expire k tp s).
Proof. intros H. unfold Shard.set_expire. by destruct (_ || _). Qed.

Lemma clear_expire_disjoint (k : bytes) (s : Shard) :
  disjoint_kinds s -> disjoint_kinds (Shard.clear_expire k s).
Proof. done. Qed.


(** [type_of] leaves no string at a key it does not report as a string. *)
Lemma type_of_disjoint (k : bytes) (now : time_point) (s : Shard) :
  disjoint_kinds s ->
  disjoint_kinds (Shard.type_of k now s).2 /\
  ((Shard.type_of k now s).1 <> VString ->
   map_ (Shard.type_of k now s).2 !! k = None).
Proof.
  intros H. unfold Shard.type_of.
  destruct (Shard.is_expired_unlocked s k now); cbn [fst snd].
  - split; [by apply erase_all_disjoint |]. intros _. cbn. apply lookup_delete_eq.
  - destruct (contains (map_ s) k) eqn:Em; cbn [fst snd]; [done |].
    apply contains_false in Em.
    by destruct (contains (hmap_ s) k).
Qed.


Lemma hdel_disjoint (k f : bytes) (now : time_point) (s : Shard) :
  disjoint_kinds s -> disjoint_kinds (Shard.hdel k f now s).2.
Proof.
  intros H. unfold Shard.hdel.
  destruct (Shard.is_expired_unlocked s k now); [by apply erase_all_disjoint |].
  destruct (hmap_ s !! k) as [hm |] eqn:Eh; [| done].
  pose proof (H k) as Hk. rewrite Eh in Hk. destruct Hk as [Hk | ?]; [| done].
  destruct (decide _); cbn [snd]; disjoint_tac k.
Qed.

Section Invariant.

Variable str_hash : bytes -> nat.





Create HintDb shard_ok.

Hint Resolve get_disjoint set_disjoint del_disjoint set_expire_disjoint
  clear_expire_disjoint hdel_disjoint erase_all_disjoint : shard_ok.

Lemma type_of_keeps_disjoint (k : bytes) (now : time_point) (s : Shard) :
  disjoint_kinds s -> disjoint_kinds (Shard.type_of k now s).2.
Proof. intros H. by apply type_of_disjoint. Qed.

Hint Resolve type_of_keeps_disjoint : shard_ok.












End Invariant.

Section Dispatch.

Variable str_hash : bytes -> nat.

Lemma foldl_insert_lookup (l : list (bytes * Handler)) :
  forall (m : gmap bytes Handler) (c : bytes) (h : Handler),
  foldl (fun m nh => <[nh.1 := nh.2]> m) m l !! c = Some h ->
  m !! c = Some h \/ (c, h) ∈ l.
Proof.
  induction l as [| [n g] l IH]; intros m c h Hl; cbn [foldl] in Hl; [by left |].
  apply IH in Hl as [Hl | Hl].
  - cbn [fst snd] in Hl. apply lookup_insert_Some in Hl as [[-> ->] | [_ Hl]].
    + right. apply list_elem_of_here.
    + by left.
  - right. by apply list_elem_of_further.
Qed.

(** Every entry of the command table is one of the registered handlers. *)
Lemma h_lookup (c : bytes) (h : Handler) :
  h_ str_hash !! c = Some h -> (c, h) ∈ registrations str_hash.
Proof.
  intros H. apply foldl_insert_lookup in H as [H | H]; [| done].
  by rewrite lookup_empty in H.
Qed.





(** In such a store [type_of] has one answer per key, fixed by the one
    map that holds the key. *)
Lemma type_of_one_kind (k : bytes) (now : time_point) (s : Shard) :
  disjoint_kinds s -> Shard.is_expired_unlocked s k now = false ->
  (kind_of k now s = VString <-> is_Some (map_ s !! k)) /\
  (kind_of k now s = VHash <-> is_Some (hmap_ s !! k)) /\
  (kind_of k now s = VNone <-> map_ s !! k = None /\ hmap_ s !! k = None).
Proof.
  intros Hd Hexp. unfold kind_of, Shard.type_of. rewrite Hexp.
  specialize (Hd k). unfold contains.
  destruct (map_ s !! k), (hmap_ s !! k); cbn;
    destruct Hd; split_and!; split; try done; try (by intros [? ?]);
    try (by intros [? [=]]); eauto.
Qed.

End Dispatch.

Section Commands.

Variable str_hash : bytes -> nat.

(** ** EXISTS *)

Lemma kind_of_eq (key : bytes) (now : time_point) (s : Shard) :
  kind_of key now s =
  if Shard.is_expired_unlocked s key now then VNone
  else if contains (map_ s) key then VString
  else if contains (hmap_ s) key then VHash
  else VNone.
Proof.
  unfold kind_of, Shard.type_of.
  by destruct (Shard.is_expired_unlocked s key now),
    (contains (map_ s) key), (contains (hmap_ s) key).
Qed.

(** [type_of] on one key does not change what [type_of] reports, at the
    same [now], for any key of the shard. *)
Lemma kind_of_after_type_of (key key' : bytes) (now : time_point) (s : Shard) :
  kind_of key' now (Shard.type_of key now s).2 = kind_of key' now s.
Proof.
  destruct (Shard.is_expired_unlocked s key now) eqn:Eexp.
  - assert ((Shard.type_of key now s).2 = Shard.erase_all key s) as ->
      by (unfold Shard.type_of; by rewrite Eexp).
    rewrite !kind_of_eq.
    unfold Shard.is_expired_unlocked, contains, Shard.erase_all in *.
    cbn [map_ ttl_ hmap_].
    destruct (decide (key' = key)) as [-> | Hne].
    + by rewrite !lookup_delete_eq, Eexp.
    + by rewrite !lookup_delete_ne by congruence.
  - assert ((Shard.type_of key now s).2 = s) as ->; [| done].
    unfold Shard.type_of. rewrite Eexp.
    by destruct (contains (map_ s) key), (contains (hmap_ s) key).
Qed.

Lemma kind_of_after_shard_for (key key' : bytes) (now : time_point) (w : World) :
  kind_of key' now
    (shard_at str_hash (shard_for str_hash key (Shard.type_of key now) w).2 key')
  = kind_of key' now (shard_at str_hash w key').
Proof.
  rewrite shard_for_snd. unfold shard_at at 1.
  rewrite shard_index_insert. cbn [shards_].
  rewrite list_lookup_insert. case_decide as Hi; [| done].
  destruct Hi as [Hi Hlt]. cbn [default from_option id].
  rewrite kind_of_after_type_of. unfold shard_at. by rewrite Hi.
Qed.

Lemma exists_loop_counts (now : time_point) (keys : list bytes) :
  forall (count : Z) (w : World),
  (exists_loop str_hash now keys count w).1 =
  count + Z.of_nat (length (present_keys str_hash now w keys)).
Proof.
  induction keys as [| key keys IH]; intros count w.
  - cbn. lia.
  - cbn [exists_loop]. unfold bind at 1.
    pose proof (shard_for_fst str_hash key (Shard.type_of key now) w) as Hfst.
    pose proof (fun key' => kind_of_after_shard_for key key' now w) as Hsame.
    destruct (shard_for str_hash key (Shard.type_of key now) w) as [t w'].
    cbn [fst snd] in Hfst, Hsame. rewrite IH.
    assert (Hkeys : present_keys str_hash now w' keys = present_keys str_hash now w keys).
    { unfold present_keys. apply list_filter_iff. intros key'.
      by rewrite Hsame. }
    rewrite Hkeys. unfold present_keys at 2. rewrite filter_cons.
    fold (present_keys str_hash now w keys). fold (kind_of key now (shard_at str_hash w key)) in Hfst.
    rewrite <- Hfst.
    destruct t; cbn [is_present]; case_decide; try done; cbn [length]; lia.
Qed.

Lemma dispatch_EXISTS (name : bytes) (args : list bytes) :
  upper name = b "EXISTS" ->
  dispatch str_hash (name :: args) = h_EXISTS str_hash (name :: args).
Proof. intros H. unfold dispatch. rewrite H. reflexivity. Qed.

(** C10. EXISTS answers with the number of argument positions whose key
    [type_of] reports present at the time of the dispatch: occurrences
    are counted one by one, a repeated key as often as it occurs. *)
Theorem exists_counts_occurrences (name : bytes) (keys : list bytes) (w : World) :
  upper name = b "EXISTS" -> keys <> [] ->
  (dispatch str_hash (name :: keys) w).1 =
  resp_int (Z.of_nat (length (present_keys str_hash (now_of w) w keys))).
Proof.
  intros Hname Hkeys. rewrite dispatch_EXISTS by done.
  unfold h_EXISTS.
  assert (Hn : (nargs (name :: keys) <? 2) = false).
  { unfold nargs. destruct keys; [done |]. apply Z.ltb_ge. cbn [length]. lia. }
  rewrite Hn. cbn [skipn]. unfold bind, steady_now, ret.
  pose proof (exists_loop_counts (now_of w) keys 0
                (mkWorld (shards_ w) (clock_ w) (S (reads_ w)))) as Hc.
  fold (now_of w).
  destruct (exists_loop _ _ _ _ _) as [count w']. cbn [fst] in *.
  rewrite Hc. f_equal.
Qed.

End Commands.

Lemma exists_counts_occurrences_witness :
  let w := (dispatch hash0 [b "SET"; b "k"; b "v"] fresh_world).2 in
  (dispatch hash0 [b "exists"; b "k"; b "nope"; b "k"; b "k"] w).1 = resp_int 3.
Proof.
  intros w.
  exact (exists_counts_occurrences hash0 (b "exists")
           [b "k"; b "nope"; b "k"; b "k"] w eq_refl ltac:(discriminate)).
Defined.

Section SetCommand.

Variable str_hash : bytes -> nat.

(** ** SET and TTL *)

Lemma dispatch_SET (name : bytes) (args : list bytes) :
  upper name = b "SET" ->
  dispatch str_hash (name :: args) = h_SET str_hash (name :: args).
Proof. intros H. unfold dispatch. rewrite H. reflexivity. Qed.

Lemma dispatch_TTL (name : bytes) (args : list bytes) :
  upper name = b "TTL" ->
  dispatch str_hash (name :: args) = h_TTL str_hash (name :: args).
Proof. intros H. unfold dispatch. rewrite H. reflexivity. Qed.

(** An integer reply that is not negative differs from [:-1]. *)
Lemma resp_int_nonneg_not_minus1 (q : Z) : 0 <= q -> resp_int q <> resp_int (-1).
Proof.
  intros Hq Heq. unfold resp_int, dec in Heq.
  replace (q <? 0) with false in Heq by lia.
  pose proof (dec_nonneg_all_digits q Hq) as Hall.
  pose proof (dec_digits_nonempty (Z.to_nat (Z.log2 q)) q []) as Hne.
  fold (dec_nonneg q) in Hne.
  destruct (dec_nonneg q) as [| c ds]; [done |].
  apply Forall_cons in Hall as [Hc _].
  cbn in Heq. injection Heq as Hc' _. subst c.
  unfold digit_code in Hc. vm_compute in Hc. destruct Hc as [Hc _]. by apply Hc.
Qed.

Lemma bind_run {A B} (m : M A) (f : A -> M B) (w : World) :
  bind m f w = f (m w).1 (m w).2.
Proof. unfold bind. by destruct (m w). Qed.

Lemma steady_now_run (w : World) : steady_now w = (now_of w, tick w).
Proof. reflexivity. Qed.

Lemma shard_at_tick (w : World) (k : bytes) :
  shard_at str_hash (tick w) k = shard_at str_hash w k.
Proof. reflexivity. Qed.

(** What TTL answers for a key that holds a string. *)
Lemma h_TTL_on_string (name k v : bytes) (w : World) :
  map_ (shard_at str_hash w k) !! k = Some v ->
  ((h_TTL str_hash [name; k] w).1 = resp_int (-1) <->
   ttl_ (shard_at str_hash w k) !! k = None).
Proof.
  intros Hm. unfold h_TTL, nargs. cbn [length arg nth].
  change (Z.of_nat 2 <? 2) with false. cbv iota beta zeta.
  rewrite bind_run, steady_now_run. cbn [fst snd].
  rewrite bind_run, shard_for_fst, shard_at_tick.
  unfold obs. cbn [fst]. unfold now_of.
  set (s := shard_at str_hash w k) in *.
  set (ms := Shard.ttl_ms k (clock_ w (reads_ w)) s).
  pose proof (ttl_ms_cases k (clock_ w (reads_ w)) s) as (H2 & H1 & Hpos & _ & H0).
  fold ms in H2, H1, Hpos, H0. cbv zeta in H2, H1, Hpos.
  assert (Hpres : contains (map_ s) k || contains (hmap_ s) k = true).
  { unfold contains. by rewrite Hm. }
  rewrite Hpres in H2, H1, Hpos.
  destruct (Z.eqb_spec ms (-2)) as [E2 | N2]; [| destruct (Z.eqb_spec ms (-1)) as [E1 | N1]];
    unfold ret; cbn [fst].
  - split; [intros Heq; vm_compute in Heq; discriminate |].
    intros Hnone. apply H2 in E2 as [? | (tp & Htp & _)]; [done | congruence].
  - split; [intros _; by apply H1 | done].
  - split; [| intros Hnone; exfalso; by apply N1, H1].
    intros Heq. exfalso. revert Heq. apply resp_int_nonneg_not_minus1.
    destruct (ttl_ s !! k) as [tp |] eqn:Ettl; [| exfalso; by apply N1, H1].
    destruct (Z.lt_ge_cases (tp - clock_ w (reads_ w)) ticks_per_ms) as [Hlt | Hge].
    + exfalso. apply N2, H2. right. by exists tp.
    + destruct (Hpos tp eq_refl eq_refl Hge) as [_ Hp].
      apply Z.quot_pos; lia.
Qed.

(** What SET with no option does. It answers [+OK], installs the string
    at the key and drops a hash there. The TTL record of the key is removed
    only if its deadline had passed when SET ran; otherwise it is kept. TTL
    on the key right afterwards answers [:-1] exactly when no record is
    left. *)
Lemma set_plain_effect (name name' k v : bytes) (w : World) :
  has_shard w -> upper name = b "SET" -> upper name' = b "TTL" ->
  let s := shard_at str_hash w k in
  let w' := (dispatch str_hash [name; k; v] w).2 in
  let s' := shard_at str_hash w' k in
  (dispatch str_hash [name; k; v] w).1 = resp_simple (b "OK") /\
  map_ s' !! k = Some v /\
  hmap_ s' !! k = None /\
  ttl_ s' !! k =
    (if Shard.is_expired_unlocked s k (now_of w) then None else ttl_ s !! k) /\
  ((dispatch str_hash [name'; k] w').1 = resp_int (-1) <-> ttl_ s' !! k = None).
Proof.
  intros Hne Hname Hname' s w' s'.
  assert (Hrun : dispatch str_hash [name; k; v] w =
                 (resp_simple (b "OK"),
                  (shard_for str_hash k (upd (Shard.set k v (now_of w)))
                     (tick w)).2)).
  { rewrite dispatch_SET by done. unfold h_SET, set_options, nargs.
    cbn [length arg nth].
    change (Z.of_nat 3 <? 3) with false.
    change (5 <=? Z.of_nat 3) with false.
    change (negb (Z.of_nat 3 =? 3)) with false.
    change (0 <=? -1) with false. cbv iota beta zeta.
    rewrite bind_run, steady_now_run. cbn [fst snd].
    rewrite !bind_run. unfold ret. f_equal. }
  assert (Hs' : s' = Shard.set k v (now_of w) s).
  { subst s' w'. rewrite Hrun. cbn [snd]. by rewrite shard_at_shard_for. }
  assert (Hmap : map_ s' !! k = Some v).
  { rewrite Hs'. unfold Shard.set. cbn. apply lookup_insert_eq. }
  split_and!.
  - by rewrite Hrun.
  - done.
  - rewrite Hs'. unfold Shard.set. cbn. apply lookup_delete_eq.
  - rewrite Hs'. unfold Shard.set.
    destruct (Shard.is_expired_unlocked s k (now_of w)); cbn; [| done].
    apply lookup_delete_eq.
  - rewrite dispatch_TTL by done. by apply h_TTL_on_string with v.
Qed.

End SetCommand.

(** C1 fails in the code. After [SET k v EX 100], the command [SET k v2]
    with no option answers [+OK] and installs [v2], but the TTL record of
    [k] stays: [TTL k] right afterwards answers [:100], not [:-1].
    [Shard::set] erases [ttl_[k]] only for a key that had expired. *)
Theorem set_keeps_live_ttl :
  let w := (dispatch hash0 [b "SET"; b "k"; b "v"; b "EX"; b "100"] fresh_world).2 in
  let w' := (dispatch hash0 [b "SET"; b "k"; b "v2"] w).2 in
  (dispatch hash0 [b "SET"; b "k"; b "v2"] w).1 = resp_simple (b "OK") /\
  map_ (shard_at hash0 w' (b "k")) !! b "k" = Some (b "v2") /\
  ttl_ (shard_at hash0 w' (b "k")) !! b "k" <> None /\
  (dispatch hash0 [b "TTL"; b "k"] w').1 = resp_int 100 /\
  (dispatch hash0 [b "TTL"; b "k"] w').1 <> resp_int (-1).
Proof. vm_compute. split_and!; congruence. Qed.

(** ** EXPIRE, PEXPIRE and PERSIST on a hash *)

Section ExpireOnHash.

Variable str_hash : bytes -> nat.

(** [get] finds nothing at a key that holds a live hash, and leaves the
    shard as it is. *)
Lemma get_on_hash (k : bytes) (now : time_point) (s : Shard) :
  map_ s !! k = None -> Shard.is_expired_unlocked s k now = false ->
  Shard.get k now s = (None, s).
Proof. intros Hm Hexp. unfold Shard.get. by rewrite Hexp, Hm. Qed.

Lemma shard_for_unchanged {A} (key : bytes) (op : Shard -> A * Shard)
    (r : A) (w : World) :
  has_shard w -> op (shard_at str_hash w key) = (r, shard_at str_hash w key) ->
  shard_for str_hash key op w = (r, w).
Proof.
  intros Hne Hop. unfold shard_for. rewrite Hop.
  rewrite list_insert_id by (by apply shard_at_lookup). by destruct w.
Qed.

(** On every key that holds a live hash and on every integer argument,
    EXPIRE answers [:0] and changes nothing in the store; so do PEXPIRE
    and PERSIST. *)
Lemma expire_on_hash (name k n : bytes) (sec : Z) (w : World) :
  has_shard w -> upper name = b "EXPIRE" -> stoll n = Some sec ->
  map_ (shard_at str_hash w k) !! k = None ->
  is_Some (hmap_ (shard_at str_hash w k) !! k) ->
  Shard.is_expired_unlocked (shard_at str_hash w k) k (now_of w) = false ->
  dispatch str_hash [name; k; n] w = (resp_int 0, tick w).
Proof.
  intros Hne Hname Hn Hm _ Hexp.
  assert (dispatch str_hash [name; k; n] w = h_EXPIRE str_hash [name; k; n] w) as ->.
  { unfold dispatch. rewrite Hname. reflexivity. }
  unfold h_EXPIRE, nargs. cbn [length arg nth].
  change (Z.of_nat 3 <? 3) with false. cbv iota beta zeta. rewrite Hn.
  rewrite bind_run, steady_now_run. cbn [fst snd].
  rewrite bind_run.
  rewrite (shard_for_unchanged k _ None (tick w)); [done | done |].
  rewrite shard_at_tick. by apply get_on_hash.
Qed.

Lemma pexpire_on_hash (name k n : bytes) (ms : Z) (w : World) :
  has_shard w -> upper name = b "PEXPIRE" -> stoll n = Some ms ->
  map_ (shard_at str_hash w k) !! k = None ->
  is_Some (hmap_ (shard_at str_hash w k) !! k) ->
  Shard.is_expired_unlocked (shard_at str_hash w k) k (now_of w) = false ->
  dispatch str_hash [name; k; n] w = (resp_int 0, tick w).
Proof.
  intros Hne Hname Hn Hm _ Hexp.
  assert (dispatch str_hash [name; k; n] w = h_PEXPIRE str_hash [name; k; n] w) as ->.
  { unfold dispatch. rewrite Hname. reflexivity. }
  unfold h_PEXPIRE, nargs. cbn [length arg nth].
  change (Z.of_nat 3 <? 3) with false. cbv iota beta zeta. rewrite Hn.
  rewrite bind_run, steady_now_run. cbn [fst snd].
  rewrite bind_run.
  rewrite (shard_for_unchanged k _ None (tick w)); [done | done |].
  rewrite shard_at_tick. by apply get_on_hash.
Qed.

Lemma persist_on_hash (name k : bytes) (w : World) :
  has_shard w -> upper name = b "PERSIST" ->
  map_ (shard_at str_hash w k) !! k = None ->
  is_Some (hmap_ (shard_at str_hash w k) !! k) ->
  Shard.is_expired_unlocked (shard_at str_hash w k) k (now_of w) = false ->
  dispatch str_hash [name; k] w = (resp_int 0, tick w).
Proof.
  intros Hne Hname Hm _ Hexp.
  assert (dispatch str_hash [name; k] w = h_PERSIST str_hash [name; k] w) as ->.
  { unfold dispatch. rewrite Hname. reflexivity. }
  unfold h_PERSIST, nargs. cbn [length arg nth].
  change (Z.of_nat 2 <? 2) with false. cbv iota beta zeta.
  rewrite bind_run, steady_now_run. cbn [fst snd].
  rewrite bind_run.
  rewrite (shard_for_unchanged k _ None (tick w)); [done | done |].
  rewrite shard_at_tick. by apply get_on_hash.
Qed.

End ExpireOnHash.

(** C2 fails in the code. After [HSET h f v] the key [h] exists as a hash
    ([TYPE h] answers [hash]), yet [EXPIRE h 10] and [PEXPIRE h 10000]
    answer [:0] and install no TTL record; and on a hash that carries a
    TTL record, [PERSIST h] answers [:0] and leaves the record. The three
    handlers test the existence of the key with [get], which looks in the
    string map only. *)
Theorem expire_ignores_hash_keys :
  let h := b "h" in
  let w := (dispatch hash0 [b "HSET"; h; b "f"; b "v"] fresh_world).2 in
  let w1 := (dispatch hash0 [b "EXPIRE"; h; b "10"] w).2 in
  let w2 := (dispatch hash0 [b "PEXPIRE"; h; b "10000"] w).2 in
  let wt := mkWorld [Shard.set_expire h 1000000000000 (shard_at hash0 w h)]
              clock_ms 0 in
  let w3 := (dispatch hash0 [b "PERSIST"; h] wt).2 in
  (dispatch hash0 [b "TYPE"; h] w).1 = resp_bulk (b "hash") /\
  ((dispatch hash0 [b "EXPIRE"; h; b "10"] w).1 = resp_int 0 /\
   ttl_ (shard_at hash0 w1 h) !! h = None) /\
  ((dispatch hash0 [b "PEXPIRE"; h; b "10000"] w).1 = resp_int 0 /\
   ttl_ (shard_at hash0 w2 h) !! h = None) /\
  (ttl_ (shard_at hash0 wt h) !! h = Some 1000000000000 /\
   (dispatch hash0 [b "TYPE"; h] wt).1 = resp_bulk (b "hash") /\
   (dispatch hash0 [b "PERSIST"; h] wt).1 = resp_int 0 /\
   ttl_ (shard_at hash0 w3 h) !! h = Some 1000000000000).
Proof. vm_compute. split_and!; reflexivity. Qed.

(** * The connection pipeline *)

(** ** The parser always returns, and what it drops on a protocol error *)

Lemma read_line_from_ge (fuel : nat) (data : bytes) (len : Z) :
  forall i e, read_line_from fuel data len i = Some e -> i <= e.
Proof.
  induction fuel as [| fuel IH]; intros i e H; cbn [read_line_from] in H; [done |].
  destruct (i + 1 <? len); [| done].
  destruct (_ && _).
  - injection H as <-. lia.
  - apply IH in H. lia.
Qed.

Lemma get_line_next (data : bytes) (len off : Z) (L : Line) :
  get_line data len off = Some L -> off + 2 <= l_next L.
Proof.
  unfold get_line, read_line. intros H.
  destruct (read_line_from _ _ _ _) as [e |] eqn:E; [| done].
  injection H as <-. apply read_line_from_ge in E. cbn. lia.
Qed.

(** With fuel for every byte left, the loop over the bulks returns:
    "need more", or a frame or a protocol error that consumes bytes. *)
Lemma parse_bulks_returns (fuel : nat) (data : bytes) (len n : Z) :
  forall (i off : Z) (args : list bytes),
  0 < off -> (Z.to_nat (len - off) < fuel)%nat ->
  exists r, parse_bulks fuel data len n i off args = Some r /\ makes_progress r.
Proof.
  induction fuel as [| fuel IH]; intros i off args Hoff Hfuel; [lia |].
  cbn [parse_bulks].
  destruct (i <? n); [| eexists; split; [done | by right]].
  destruct (Z.leb_spec len off) as [| Hlt]; [eexists; split; [done | by left] |].
  destruct (negb _); [eexists; split; [done | by right] |].
  destruct (get_line data len (off + 1)) as [L2 |] eqn:EL;
    [| eexists; split; [done | by left]].
  apply get_line_next in EL.
  destruct (parse_ll _) as [ok blen].
  destruct ok; cbn [negb]; [| eexists; split; [done | right; cbn; lia]].
  destruct (blen =? -1); [apply IH; lia |].
  destruct (Z.ltb_spec blen 0) as [| Hb]; [eexists; split; [done | right; cbn; lia] |].
  destruct (len <? wrap_size _); [eexists; split; [done | by left] |].
  destruct (_ || _); [eexists; split; [done | right; cbn; lia] |].
  apply IH; lia.
Qed.

(** [parse_resp] returns on every buffer, and the one result that reports
    a protocol error without a byte to drop is the rejection of an inline
    command. *)
Lemma parse_resp_returns (data : bytes) :
  exists r, parse_resp data = Some r /\
            (makes_progress r \/ (data <> [] /\ at_ data 0 <> "*"%char)).
Proof.
  unfold parse_resp.
  destruct (Z.eqb_spec (Z.of_nat (length data)) 0) as [| Hlen];
    [eexists; split; [done | by left; left] |].
  assert (data <> []) by (by intros ->).
  destruct (Ascii.eqb_spec (at_ data 0) "*") as [Hc | Hc]; cbn [negb];
    [| eexists; split; [done | by right]].
  destruct (get_line data _ 1) as [L |] eqn:EL;
    [| eexists; split; [done | by left; left]].
  apply get_line_next in EL.
  destruct (parse_ll _) as [ok n].
  destruct (negb ok || (n <? 0)); [eexists; split; [done | left; right; cbn; lia] |].
  destruct (parse_bulks_returns (length data) data (Z.of_nat (length data)) n
              0 (l_next L) []) as (r & Hr & Hd); [lia | lia |].
  exists r. split; [done | by left].
Qed.

Lemma parse_resp_inline (data : bytes) :
  data <> [] -> at_ data 0 <> "*"%char ->
  parse_resp data = Some (proto_error "protocol error: expected array" 0).
Proof.
  intros Hne Hc. unfold parse_resp.
  destruct data as [| c data]; [done |].
  replace (Z.of_nat (length (c :: data)) =? 0) with false
    by (symmetry; apply Z.eqb_neq; cbn [length]; lia).
  destruct (Ascii.eqb_spec (at_ (c :: data) 0) "*"); done.
Qed.

Lemma drain_inline_never_ends (data : bytes) (fuel : nat) :
  data <> [] -> at_ data 0 <> "*"%char -> drain fuel data = None.
Proof.
  intros Hne Hc. induction fuel as [| fuel IH]; [done |].
  cbn [drain]. rewrite parse_resp_inline by done.
  cbn [arr error consumed proto_error]. cbn [String.eqb Ascii.eqb Bool.eqb].
  change (erase_head data 0) with data. by rewrite IH.
Qed.

Lemma length_erase_head (buf : bytes) (n : Z) :
  buf <> [] -> 0 < n -> (length (erase_head buf n) < length buf)%nat.
Proof.
  intros Hne Hn. unfold erase_head. rewrite length_skipn.
  destruct buf; [done |]. cbn [length]. lia.
Qed.

(** The fuel [exec] gives the read loop is enough: a loop that has not
    ended within one iteration per byte never ends. *)
Lemma drain_fuel_enough (fuel : nat) :
  forall buf, (length buf < fuel)%nat -> drain fuel buf = None ->
  forall fuel', drain fuel' buf = None.
Proof.
  induction fuel as [| fuel IH]; intros buf Hfuel Hnone fuel'; [lia |].
  destruct (parse_resp_returns buf) as (r & Hr & [Hprog | [Hne Hc]]);
    [| by apply drain_inline_never_ends].
  destruct fuel' as [| fuel']; [done |].
  cbn [drain] in *. rewrite Hr in *.
  destruct Hprog as [-> | Hpos]; [done |].
  assert (Hne : buf <> []).
  { intros ->. by vm_compute in Hr; injection Hr as <-. }
  pose proof (length_erase_head buf (consumed r) Hne Hpos) as Hlen.
  assert (Hrest : drain fuel (erase_head buf (consumed r)) = None).
  { destruct (arr r), (String.eqb (error r) ""); try done;
      by destruct (drain fuel _) as [[? ?] |]. }
  rewrite (IH (erase_head buf (consumed r)) ltac:(lia) Hrest fuel').
  by destruct (arr r), (String.eqb (error r) "").
Qed.

(** C7 fails in the code. For the inline command [PING] the parser
    reports a protocol error with zero bytes to drop; the read loop of the
    session then erases nothing and parses the same buffer again, so no
    number of iterations ends it. (Every other protocol error drops at
    least one byte, see [parse_resp_returns].) *)
Theorem inline_command_stalls_read_loop :
  let buf := b "PING" ++ CRLF in
  parse_resp buf = Some (mkResult None "protocol error: expected array" 0) /\
  erase_head buf 0 = buf /\
  forall fuel, drain fuel buf = None.
Proof.
  intros buf. split; [reflexivity |]. split; [reflexivity |].
  intros fuel. by apply drain_inline_never_ends.
Qed.

(** ** Order of the replies *)

(** C9 fails in the code. Two requests, [GET k] then [PING], arrive in one
    read on a connection of a server with two worker threads. Each worker
    takes one job; the second worker ends first and posts its reply first.
    The socket receives [+PONG] before the reply to [GET k]. *)
Theorem replies_can_overtake :
  let r1 := [b "GET"; b "k"] in
  let r2 := [b "PING"] in
  let chunk := resp_array r1 true ++ resp_array r2 true in
  let schedule := [Read chunk; Take 0; Take 1; Finish 1; Finish 0;
                   Written; Written] in
  (exists p, exec hash0 (Read chunk) (connect fresh_world 2) = Some p /\
             q_ p = [r1; r2]) /\
  (dispatch hash0 r1 fresh_world).1 = resp_nil /\
  (dispatch hash0 r2 fresh_world).1 = resp_simple (b "PONG") /\
  option_map sent_ (run hash0 schedule (connect fresh_world 2)) =
    Some [resp_simple (b "PONG"); resp_nil].
Proof.
  intros r1 r2 chunk schedule. split.
  - eexists. split; [vm_compute; reflexivity | reflexivity].
  - vm_compute. split_and!; reflexivity.
Qed.

(** A protocol error is posted at once, so its reply too can reach the
    socket before the reply to an earlier frame, even with one worker. *)
Lemma proto_error_overtakes :
  let chunk := resp_array [b "GET"; b "k"] true ++ b "*1" ++ CRLF ++ b "$x" ++ CRLF in
  option_map sent_
    (run hash0 [Read chunk; Take 0; Finish 0; Written; Written]
       (connect fresh_world 1))
  = Some [proto_reply; resp_nil].
Proof. vm_compute. reflexivity. Qed.

(** A frame whose element is not a bulk string stalls the read loop too:
    the error drops the bytes before the offending element, which is then
    parsed as an inline command. *)
Lemma bad_element_stalls_read_loop :
  let buf := b "*1" ++ CRLF ++ b "PING" ++ CRLF in
  parse_resp buf = Some (mkResult None "protocol error: expected bulk string" 4) /\
  erase_head buf 4 = b "PING" ++ CRLF /\
  forall fuel, drain fuel buf = None.
Proof.
  intros buf. split; [reflexivity |]. split; [reflexivity |].
  apply (drain_fuel_enough (S (length buf))); [lia | reflexivity].
Qed.


(** * More on the codec *)

(** ** [parse_ll] *)

Lemma parse_ll_loop_range (s : bytes) : forall v0 v,
  0 <= v0 <= LLONG_MAX -> parse_ll_loop s v0 = Some v -> v0 <= v <= LLONG_MAX.
Proof.
  induction s as [| c s IH]; intros v0 v Hv0 H; cbn [parse_ll_loop] in H.
  - injection H as <-. lia.
  - destruct (Z.ltb_spec (code c) 48); [done |].
    destruct (Z.ltb_spec 57 (code c)); [done |]. cbn [orb] in H.
    destruct (Z.ltb_spec ((LLONG_MAX - (code c - 48)) / 10) v0) as [| Hle]; [done |].
    assert (10 * v0 <= LLONG_MAX - (code c - 48)).
    { etransitivity; [| apply (Z.mul_div_le _ 10); lia]. lia. }
    apply IH in H; lia.
Qed.

Lemma parse_ll_loop_digits (s : bytes) : forall v0 v,
  parse_ll_loop s v0 = Some v -> Forall digit_code s.
Proof.
  induction s as [| c s IH]; intros v0 v H; cbn [parse_ll_loop] in H; [done |].
  destruct (Z.ltb_spec (code c) 48); [done |].
  destruct (Z.ltb_spec 57 (code c)); [done |]. cbn [orb] in H.
  destruct (_ <? v0); [done |].
  constructor; [unfold digit_code; lia | by eapply IH].
Qed.

(** The texts [parse_ll] accepts and the values it returns. *)
Lemma parse_ll_true (s : bytes) (v : Z) :
  parse_ll s = (true, v) ->
  s <> [] /\
  (exists ds, (s = ds \/ s = "-"%char :: ds) /\ Forall digit_code ds) /\
  - LLONG_MAX <= v <= LLONG_MAX.
Proof.
  unfold parse_ll. destruct s as [| c s]; [done |]. intros H.
  split; [done |].
  destruct (Ascii.eqb_spec c "-") as [-> | Hc].
  - destruct (parse_ll_loop s 0) as [v' |] eqn:E; [| done].
    injection H as <-.
    pose proof (parse_ll_loop_range s 0 v' ltac:(unfold LLONG_MAX; lia) E).
    split; [| lia]. exists s. split; [by right | by eapply parse_ll_loop_digits].
  - destruct (parse_ll_loop (c :: s) 0) as [v' |] eqn:E; [| done].
    injection H as <-.
    pose proof (parse_ll_loop_range (c :: s) 0 v' ltac:(unfold LLONG_MAX; lia) E).
    split; [| lia]. exists (c :: s). split; [by left | by eapply parse_ll_loop_digits].
Qed.

(** X1. What [parse_ll] accepts: a text that is not empty, made of decimal
    digits after an optional minus sign, whose value it returns without
    overflow, between [-LLONG_MAX] and [LLONG_MAX]. *)
Theorem parse_ll_accepts (s : bytes) (v : Z) :
  parse_ll s = (true, v) ->
  s <> [] /\
  (exists ds, (s = ds \/ s = "-"%char :: ds) /\ Forall digit_code ds) /\
  - LLONG_MAX <= v <= LLONG_MAX.
Proof. apply parse_ll_true. Qed.

Lemma parse_ll_accepts_witness :
  parse_ll (b "-42") = (true, -42) /\ - LLONG_MAX <= -42 <= LLONG_MAX.
Proof.
  split; [reflexivity |]. apply (parse_ll_accepts (b "-42") (-42) eq_refl).
Defined.

(** X2. [parse_ll] reads back the decimal text of every integer from
    [-LLONG_MAX] to [LLONG_MAX]. *)
Theorem parse_ll_reads_dec (n : Z) :
  - LLONG_MAX <= n <= LLONG_MAX -> parse_ll (dec n) = (true, n).
Proof.
  intros Hn. unfold dec. destruct (Z.ltb_spec n 0) as [Hneg | Hpos].
  - pose proof (parse_ll_dec_nonneg (- n) ltac:(lia)) as Hp.
    unfold parse_ll in *. cbn [Ascii.eqb Bool.eqb].
    pose proof (dec_nonneg_all_digits (- n) ltac:(lia)) as Hall.
    destruct (dec_nonneg (- n)) as [| c s] eqn:E.
    { by apply dec_digits_nonempty in E. }
    apply Forall_cons in Hall as [Hc _].
    destruct (Ascii.eqb_spec c "-") as [-> | _].
    { unfold digit_code in Hc. vm_compute in Hc. destruct Hc as [Hc _].
      by exfalso; apply Hc. }
    destruct (parse_ll_loop (c :: s) 0) as [v |]; [| done].
    injection Hp as Hv. f_equal. lia.
  - apply parse_ll_dec_nonneg. lia.
Qed.

Lemma parse_ll_reads_dec_witness :
  parse_ll (dec (-9223372036854775807)) = (true, -9223372036854775807).
Proof. apply parse_ll_reads_dec. unfold LLONG_MAX. lia. Defined.

(** The text of [LLONG_MIN] is refused: its digits overflow before the
    sign is applied. *)
Lemma parse_ll_refuses_llong_min : parse_ll (dec LLONG_MIN) = (false, 0).
Proof. reflexivity. Qed.


(** ** A buffer and its extensions *)

Lemma at_app_l (data extra : bytes) (i : Z) :
  0 <= i < Z.of_nat (length data) -> at_ (data ++ extra) i = at_ data i.
Proof. intros Hi. unfold at_. apply app_nth1. lia. Qed.

Lemma sub_app_l (data extra : bytes) (off n : Z) :
  0 <= off -> 0 <= n -> off + n <= Z.of_nat (length data) ->
  sub (data ++ extra) off n = sub data off n.
Proof.
  intros Hoff Hn Hlen. unfold sub.
  rewrite skipn_app, firstn_app, length_skipn.
  replace (Z.to_nat n - (length data - Z.to_nat off))%nat with 0%nat by lia.
  by rewrite firstn_0, app_nil_r.
Qed.

Lemma read_line_from_lt (fuel : nat) (data : bytes) (len : Z) :
  forall i e, read_line_from fuel data len i = Some e -> e + 1 < len.
Proof.
  induction fuel as [| fuel IH]; intros i e H; cbn [read_line_from] in H; [done |].
  destruct (Z.ltb_spec (i + 1) len); [| done].
  destruct (_ && _).
  - injection H as <-. lia.
  - by apply IH in H.
Qed.

Lemma read_line_from_ext (fuel : nat) (data extra : bytes) (len len' : Z) :
  forall (fuel' : nat) i e,
  len = Z.of_nat (length data) -> len <= len' -> 0 <= i -> (fuel <= fuel')%nat ->
  read_line_from fuel data len i = Some e ->
  read_line_from fuel' (data ++ extra) len' i = Some e.
Proof.
  induction fuel as [| fuel IH]; intros fuel' i e Hlen Hle Hi Hfuel H;
    cbn [read_line_from] in H; [done |].
  destruct fuel' as [| fuel']; [lia |]. cbn [read_line_from].
  destruct (Z.ltb_spec (i + 1) len); [| done].
  replace (i + 1 <? len') with true by lia.
  rewrite !at_app_l by lia.
  destruct (_ && _); [done |].
  apply IH; (done || lia).
Qed.

Lemma get_line_bounds (data : bytes) (len off : Z) (L : Line) :
  get_line data len off = Some L ->
  off <= l_end L /\ l_next L = l_end L + 2 /\ l_next L <= len.
Proof.
  unfold get_line, read_line. intros H.
  destruct (read_line_from _ _ _ _) as [e |] eqn:E; [| done].
  injection H as <-. cbn.
  pose proof (read_line_from_ge _ _ _ _ _ E).
  pose proof (read_line_from_lt _ _ _ _ _ E). lia.
Qed.

Lemma get_line_ext (data extra : bytes) (len len' off : Z) (L : Line) :
  len = Z.of_nat (length data) -> len <= len' -> 0 <= off ->
  get_line data len off = Some L ->
  get_line (data ++ extra) len' off = Some L.
Proof.
  unfold get_line, read_line. intros Hlen Hle Hoff H.
  destruct (read_line_from _ data _ _) as [e |] eqn:E; [| done].
  erewrite read_line_from_ext; [done | done | done | done | | exact E]. lia.
Qed.

(** The length test of a bulk, without wrap-around in a buffer that an
    object can hold. *)
Lemma wrap_size_small (off blen len : Z) :
  0 <= off <= len -> 0 <= blen <= LLONG_MAX -> len < LLONG_MAX ->
  wrap_size (off + blen + 2) = off + blen + 2.
Proof.
  intros. unfold wrap_size. apply Z.mod_small.
  unfold SIZE_MOD, LLONG_MAX in *. lia.
Qed.

(** Whatever the loop over the bulks decides on a buffer, other than "need
    more", it decides on every extension of the buffer. *)
Lemma parse_bulks_ext (data extra : bytes) (len len' n : Z) (fuel : nat) :
  forall (fuel' : nat) (i off : Z) (args : list bytes) (r : RespParseResult),
  len = Z.of_nat (length data) -> len <= len' -> len' < LLONG_MAX ->
  0 <= off -> (fuel <= fuel')%nat ->
  parse_bulks fuel data len n i off args = Some r -> r <> need_more ->
  parse_bulks fuel' (data ++ extra) len' n i off args = Some r.
Proof.
  induction fuel as [| fuel IH]; intros fuel' i off args r Hlen Hle Hmax Hoff Hfuel H Hr.
  - cbn [parse_bulks] in H. destruct (i <? n) eqn:Ei; [done |].
    destruct fuel'; cbn [parse_bulks]; by rewrite Ei.
  - cbn [parse_bulks] in H. destruct (i <? n) eqn:Ei.
    2: { destruct fuel'; cbn [parse_bulks]; by rewrite Ei. }
    destruct fuel' as [| fuel']; [lia |]. cbn [parse_bulks]. rewrite Ei.
    destruct (Z.leb_spec len off) as [| Hlt]; [by injection H as <- |].
    replace (len' <=? off) with false by lia.
    rewrite at_app_l by lia.
    destruct (negb _); [done |].
    destruct (get_line data len (off + 1)) as [L2 |] eqn:EL;
      [| by injection H as <-].
    pose proof (get_line_bounds _ _ _ _ EL) as (Hend & Hnext & Hnl).
    rewrite (get_line_ext data extra len len' (off + 1) L2) by (done || lia).
    rewrite sub_app_l by lia.
    destruct (parse_ll _) as [ok blen] eqn:Ell.
    destruct ok; cbn [negb] in *; [| done].
    apply parse_ll_true in Ell as (_ & _ & Hb).
    destruct (blen =? -1); [apply IH; (done || lia) |].
    destruct (Z.ltb_spec blen 0) as [| Hb0]; [done |].
    rewrite (wrap_size_small (l_next L2) blen len') in H |- * by lia.
    destruct (Z.ltb_spec len (l_next L2 + blen + 2)) as [| Hfit];
      [by injection H as <- |].
    replace (len' <? l_next L2 + blen + 2) with false by lia.
    rewrite sub_app_l by lia. rewrite !at_app_l by lia.
    replace (len' <=? l_next L2 + blen + 1) with false by lia.
    replace (len <=? l_next L2 + blen + 1) with false in H by lia.
    cbn [orb] in *.
    destruct (_ || _); [done |].
    apply IH; (done || lia).
Qed.


(** A result other than "need more" holds on every extension of the buffer. *)
Lemma parse_resp_ext (data extra : bytes) (r : RespParseResult) :
  Z.of_nat (length (data ++ extra)) < LLONG_MAX ->
  parse_resp data = Some r -> r <> need_more ->
  parse_resp (data ++ extra) = Some r.
Proof.
  intros Hmax H Hr. unfold parse_resp in *.
  set (len := Z.of_nat (length data)) in *.
  set (len' := Z.of_nat (length (data ++ extra))) in *.
  assert (Hle : len <= len') by (subst len len'; rewrite length_app; lia).
  destruct (Z.eqb_spec len 0) as [| Hlen]; [by injection H as <- |].
  replace (len' =? 0) with false by lia.
  rewrite at_app_l by lia.
  destruct (negb _); [done |].
  destruct (get_line data len 1) as [L |] eqn:EL; [| by injection H as <-].
  pose proof (get_line_bounds _ _ _ _ EL) as (Hend & Hnext & Hnl).
  rewrite (get_line_ext data extra len len' 1 L) by (done || lia).
  rewrite sub_app_l by lia.
  destruct (parse_ll _) as [ok n].
  destruct (negb ok || (n <? 0)); [done |].
  apply (parse_bulks_ext data extra len len' n (length data));
    try done; try lia.
Qed.

(** X3. A decision of the parser is final: a frame or a protocol error
    reported on a buffer is reported, with the same arguments and the same
    count of consumed bytes, on the buffer followed by any further bytes. *)
Theorem parse_resp_stable (data extra : bytes) (r : RespParseResult) :
  Z.of_nat (length (data ++ extra)) < LLONG_MAX ->
  parse_resp data = Some r -> r <> need_more ->
  parse_resp (data ++ extra) = Some r.
Proof. apply parse_resp_ext. Qed.

Lemma parse_resp_stable_witness :
  let data := b "*1" ++ CRLF ++ b "$4" ++ CRLF ++ b "PING" ++ CRLF in
  parse_resp (data ++ b "*1") = Some (mkResult (Some [b "PING"]) "" 14).
Proof.
  intros data.
  apply (parse_resp_stable data (b "*1")); [vm_compute; reflexivity | reflexivity | discriminate].
Defined.

Lemma parse_bulks_consumed (data : bytes) (len n : Z) (fuel : nat) :
  forall (i off : Z) (args : list bytes) (r : RespParseResult),
  len < LLONG_MAX -> 0 <= off <= len ->
  parse_bulks fuel data len n i off args = Some r ->
  0 <= consumed r <= len.
Proof.
  induction fuel as [| fuel IH]; intros i off args r Hmax Hoff H;
    cbn [parse_bulks] in H.
  - destruct (i <? n); [done |]. injection H as <-. cbn. lia.
  - destruct (i <? n); [| injection H as <-; cbn; lia].
    destruct (Z.leb_spec len off); [injection H as <-; cbn; lia |].
    destruct (negb _); [injection H as <-; cbn; lia |].
    destruct (get_line data len (off + 1)) as [L2 |] eqn:EL;
      [| injection H as <-; cbn; lia].
    pose proof (get_line_bounds _ _ _ _ EL) as (Hend & Hnext & Hnl).
    destruct (parse_ll _) as [ok blen] eqn:Ell.
    destruct ok; cbn [negb] in H; [| injection H as <-; cbn; lia].
    apply parse_ll_true in Ell as (_ & _ & Hb).
    destruct (blen =? -1); [eapply IH; [done | | exact H]; lia |].
    destruct (Z.ltb_spec blen 0); [injection H as <-; cbn; lia |].
    rewrite (wrap_size_small (l_next L2) blen len) in H by lia.
    destruct (Z.ltb_spec len (l_next L2 + blen + 2));
      [injection H as <-; cbn; lia |].
    destruct (_ || _); [injection H as <-; cbn; lia |].
    eapply IH; [done | | exact H]. lia.
Qed.

(** The count of consumed bytes lies within the buffer. *)
Lemma parse_resp_consumed (data : bytes) (r : RespParseResult) :
  Z.of_nat (length data) < LLONG_MAX ->
  parse_resp data = Some r -> 0 <= consumed r <= Z.of_nat (length data).
Proof.
  intros Hmax H. unfold parse_resp in H.
  destruct (_ =? 0); [injection H as <-; cbn; lia |].
  destruct (negb _); [injection H as <-; cbn; lia |].
  destruct (get_line data _ 1) as [L |] eqn:EL; [| injection H as <-; cbn; lia].
  pose proof (get_line_bounds _ _ _ _ EL) as (Hend & Hnext & Hnl).
  destruct (parse_ll _) as [ok n].
  destruct (negb ok || (n <? 0)); [injection H as <-; cbn; lia |].
  eapply parse_bulks_consumed; [done | | exact H]. lia.
Qed.

(** X4. The parser never reports more consumed bytes than the buffer
    holds (and never a negative count). *)
Theorem parse_resp_consumed_in_buffer (data : bytes) (r : RespParseResult) :
  Z.of_nat (length data) < LLONG_MAX ->
  parse_resp data = Some r -> 0 <= consumed r <= Z.of_nat (length data).
Proof. apply parse_resp_consumed. Qed.

Lemma parse_resp_consumed_in_buffer_witness :
  let data := b "*1" ++ CRLF ++ b "$x" ++ CRLF ++ b "tail" in
  exists r, parse_resp data = Some r /\ 0 <= consumed r <= Z.of_nat (length data).
Proof.
  intros data. eexists. split; [reflexivity |].
  apply (parse_resp_consumed_in_buffer data); [vm_compute; reflexivity | reflexivity].
Defined.


(** ** Frames that follow one another *)

Lemma parse_bulks_frames_then (data rest : bytes) (len n : Z) (Xs : list bytes) :
  forall (pre : bytes) (args : list bytes) (fuel : nat) (i : Z),
  data = pre ++ concat (map bulk_frame Xs) ++ rest ->
  len = Z.of_nat (length data) -> len <= LLONG_MAX ->
  (length Xs <= fuel)%nat -> n - i = Z.of_nat (length Xs) ->
  parse_bulks fuel data len n i (Z.of_nat (length pre)) args =
  Some (mkResult (Some (args ++ Xs)) ""
          (Z.of_nat (length (pre ++ concat (map bulk_frame Xs))))).
Proof.
  induction Xs as [| x Xs IH]; intros pre args fuel i Hdata Hlen Hmax Hfuel Hn.
  - simpl in Hn. cbn [map concat]. rewrite !app_nil_r.
    destruct fuel; cbn [parse_bulks]; by decide_cmp.
  - destruct fuel as [| fuel]; [simpl in Hfuel; lia |].
    cbn [map concat length] in Hdata, Hfuel, Hn.
    rewrite <- app_assoc in Hdata.
    rewrite (parse_bulks_bulk fuel data pre x (concat (map bulk_frame Xs) ++ rest));
      [| done | done | done | lia].
    rewrite (IH (pre ++ bulk_frame x) (args ++ [x]) fuel (i + 1));
      [| by rewrite <- app_assoc | done | done | lia | lia].
    cbn [map concat]. by rewrite <- !app_assoc.
Qed.

(** The parser on an encoded request followed by further bytes. *)
Lemma parse_resp_frame_then (X : list bytes) (rest : bytes) :
  Z.of_nat (length (resp_array X true ++ rest)) <= LLONG_MAX ->
  parse_resp (resp_array X true ++ rest) =
  Some (mkResult (Some X) "" (Z.of_nat (length (resp_array X true)))).
Proof.
  intros Hmax.
  set (data := resp_array X true ++ rest) in *.
  set (len := Z.of_nat (length data)) in *.
  set (d := dec (Z.of_nat (length X))).
  set (ld := Z.of_nat (length d)).
  set (body := concat (map bulk_frame X)).
  pose proof (resp_array_frames X) as Henc. fold d body in Henc.
  assert (Hdata : data = ("*"%char :: d ++ CRLF) ++ body ++ rest).
  { subst data. rewrite Henc. by rewrite <- app_assoc. }
  pose proof (length_concat_frames X) as HlenX. fold body in HlenX.
  assert (Hsize : len = 1 + ld + 2 + Z.of_nat (length body) + Z.of_nat (length rest)).
  { subst len ld. rewrite Hdata. length_lia. }
  assert (H1 : at_ data 0 = "*"%char).
  { eapply (at_split data [] _ _ 0); [| reflexivity]. rewrite Hdata. list_eq. }
  assert (H2 : get_line data len 1 = Some (mkLine 1 (1 + ld) (1 + ld + 2))).
  { eapply (get_line_split data ["*"%char] d (body ++ rest) len 1).
    - rewrite Hdata. list_eq.
    - reflexivity.
    - reflexivity.
    - apply dec_of_nat_not_cr. }
  assert (H3 : sub data 1 ld = d).
  { eapply (sub_split data ["*"%char] d (CRLF ++ body ++ rest)).
    - rewrite Hdata. list_eq.
    - reflexivity.
    - reflexivity. }
  assert (Hll : parse_ll d = (true, Z.of_nat (length X))).
  { apply parse_ll_dec_of_nat. lia. }
  unfold parse_resp. fold len.
  assert (0 <= ld) by lia.
  decide_cmp. rewrite H1. cbn [Ascii.eqb Bool.eqb negb].
  rewrite H2. cbn [l_end l_next].
  replace (1 + ld - 1) with ld by lia.
  rewrite H3, Hll. cbn [negb orb]. decide_cmp.
  replace (1 + ld + 2)
    with (Z.of_nat (length ("*"%char :: d ++ CRLF))) by length_lia.
  rewrite (parse_bulks_frames_then data rest len (Z.of_nat (length X)) X
             ("*"%char :: d ++ CRLF) [] (length data) 0); try done; try lia.
  by rewrite Henc.
Qed.

(** X5. A request followed by further bytes: on the array-of-bulks encoding
    of a list of byte strings followed by anything, the parser returns
    that list and consumes the encoding, nothing of what follows. *)
Theorem parse_resp_first_frame (X : list bytes) (rest : bytes) :
  Z.of_nat (length (resp_array X true ++ rest)) <= LLONG_MAX ->
  parse_resp (resp_array X true ++ rest) =
  Some (mkResult (Some X) "" (Z.of_nat (length (resp_array X true)))).
Proof. apply parse_resp_frame_then. Qed.

Lemma parse_resp_first_frame_witness :
  let X := [b "GET"; []] in
  parse_resp (resp_array X true ++ b "*1" ++ CRLF ++ b "$4") =
  Some (mkResult (Some X) "" (Z.of_nat (length (resp_array X true)))).
Proof.
  intros X. apply (parse_resp_first_frame X). vm_compute. discriminate.
Defined.

(** The parser on a strict prefix of an encoded request. *)
Lemma parse_resp_strict_prefix (X : list bytes) (p q : bytes) :
  Z.of_nat (length (resp_array X true)) < LLONG_MAX ->
  resp_array X true = p ++ q -> q <> [] ->
  parse_resp p = Some need_more.
Proof.
  intros Hmax Hpq Hq.
  destruct (parse_resp_returns p) as (r & Hr & Hcase).
  assert (r = need_more \/ r <> need_more) as [-> | Hne]; [| done |].
  { destruct Hcase as [[-> | Hpos] | [Hp Hc]]; [by left | right | right].
    - intros ->. cbn in Hpos. lia.
    - rewrite parse_resp_inline in Hr by done. by injection Hr as <-. }
  exfalso.
  pose proof (parse_resp_ext p q r ltac:(by rewrite <- Hpq) Hr Hne) as Hfull.
  rewrite <- Hpq, <- (app_nil_r (resp_array X true)) in Hfull.
  rewrite parse_resp_frame_then in Hfull by (rewrite app_nil_r; lia).
  assert (Hcr : consumed r = Z.of_nat (length (resp_array X true)))
    by (by injection Hfull as <-).
  pose proof (parse_resp_consumed p r
                ltac:(rewrite Hpq, length_app in Hmax; lia) Hr) as Hc.
  rewrite Hcr, Hpq, length_app in Hc.
  destruct q; [done |]. cbn [length] in Hc. lia.
Qed.

(** X6. The parser is incremental: on every strict prefix of the encoding
    of a request it answers "need more". *)
Theorem parse_resp_prefix_needs_more (X : list bytes) (p q : bytes) :
  Z.of_nat (length (resp_array X true)) < LLONG_MAX ->
  resp_array X true = p ++ q -> q <> [] ->
  parse_resp p = Some need_more.
Proof. apply parse_resp_strict_prefix. Qed.

Lemma parse_resp_prefix_needs_more_witness :
  parse_resp (b "*2" ++ CRLF ++ b "$3" ++ CRLF ++ b "GE") = Some need_more.
Proof.
  apply (parse_resp_prefix_needs_more [b "GET"; b "k"]
           (b "*2" ++ CRLF ++ b "$3" ++ CRLF ++ b "GE")
           (b "T" ++ CRLF ++ b "$1" ++ CRLF ++ b "k" ++ CRLF));
    [vm_compute; reflexivity | reflexivity | discriminate].
Defined.


(** * More on the connection pipeline *)

(** ** Reading a stream of requests *)

Lemma erase_head_app (a rest : bytes) :
  erase_head (a ++ rest) (Z.of_nat (length a)) = rest.
Proof. unfold erase_head. rewrite Nat2Z.id. apply drop_app_length. Qed.

Lemma length_resp_array_pos (X : list bytes) : (0 < length (resp_array X true))%nat.
Proof. unfold resp_array. cbn [length]. lia. Qed.

Lemma length_stream (Xs : list (list bytes)) : (length Xs <= length (stream Xs))%nat.
Proof.
  induction Xs as [| X Xs IH]; cbn [stream map concat length]; [lia |].
  rewrite length_app. pose proof (length_resp_array_pos X).
  fold (stream Xs). lia.
Qed.

(** The read loop on complete requests followed by an unfinished one. *)
Lemma drain_stream (Xs : list (list bytes)) : forall (tail : bytes) (fuel : nat),
  Z.of_nat (length (stream Xs ++ tail)) < LLONG_MAX ->
  parse_resp tail = Some need_more -> (length Xs < fuel)%nat ->
  drain fuel (stream Xs ++ tail) = Some (map HandleFrame Xs, tail).
Proof.
  induction Xs as [| X Xs IH]; intros tail fuel Hmax Htail Hfuel;
    (destruct fuel as [| fuel]; [lia |]); cbn [drain].
  - cbn [stream map concat app]. by rewrite Htail.
  - cbn [stream map concat length] in *. fold (stream Xs) in *.
    rewrite <- app_assoc in *.
    rewrite parse_resp_frame_then by lia.
    cbn [arr error consumed String.eqb].
    rewrite erase_head_app.
    rewrite IH; [done | | done | lia].
    rewrite length_app in Hmax. lia.
Qed.

(** Where a cut falls in a stream of requests: after some complete
    requests, inside the next one or at its start. *)
Lemma stream_cut (Xs : list (list bytes)) : forall (c1 c2 : bytes),
  c1 ++ c2 = stream Xs ->
  exists Xs1 Xs2 tail,
    Xs = Xs1 ++ Xs2 /\ c1 = stream Xs1 ++ tail /\ tail ++ c2 = stream Xs2 /\
    (tail = [] \/
     exists X Xs2' q, Xs2 = X :: Xs2' /\ resp_array X true = tail ++ q /\ q <> []).
Proof.
  induction Xs as [| X Xs IH]; intros c1 c2 Hcut.
  - cbn in Hcut. apply app_eq_nil in Hcut as [-> ->].
    exists [], [], []. by eauto.
  - cbn [stream map concat] in Hcut. fold (stream Xs) in Hcut.
    assert (Hcase : (exists l, c1 = resp_array X true ++ l /\ stream Xs = l ++ c2) \/
                    (exists l, l <> [] /\ resp_array X true = c1 ++ l /\
                               c2 = l ++ stream Xs)).
    { apply app_eq_app in Hcut as [l [[-> ->] | [-> ->]]].
      - left. by exists l.
      - destruct l as [| c l].
        + left. exists []. by rewrite !app_nil_r.
        + right. by exists (c :: l). }
    destruct Hcase as [(l & -> & Hl) | (l & Hne & HX & ->)].
    + destruct (IH l c2 (eq_sym Hl)) as (Xs1 & Xs2 & tail & -> & -> & Ht & Hor).
      exists (X :: Xs1), Xs2, tail. split_and!; try done.
      cbn [stream map concat]. by rewrite <- app_assoc.
    + exists [], (X :: Xs), c1. split_and!; [done | done | |].
      * cbn [stream map concat]. fold (stream Xs). by rewrite HX, <- app_assoc.
      * right. by exists X, Xs, l.
Qed.

Lemma perform_frames (Xs : list (list bytes)) : forall (p : Pipeline),
  perform (map HandleFrame Xs) p =
  mkPipeline (world_ p) (pending_ p) (q_ p ++ Xs) (workers_ p) (outq_ p) (sent_ p).
Proof.
  induction Xs as [| X Xs IH]; intros p; cbn [map perform].
  - rewrite app_nil_r. by destruct p.
  - rewrite IH. cbn. by rewrite <- app_assoc.
Qed.


Lemma unfinished_needs_more (tail q : bytes) (X : list bytes) :
  Z.of_nat (length (resp_array X true)) < LLONG_MAX ->
  resp_array X true = tail ++ q -> q <> [] -> parse_resp tail = Some need_more.
Proof. intros. by eapply parse_resp_strict_prefix. Qed.

Lemma length_stream_app (Xs1 Xs2 : list (list bytes)) :
  length (stream (Xs1 ++ Xs2)) = (length (stream Xs1) + length (stream Xs2))%nat.
Proof. unfold stream. by rewrite map_app, concat_app, length_app. Qed.

Lemma stream_nil_inv (Xs : list (list bytes)) : stream Xs = [] -> Xs = [].
Proof.
  destruct Xs as [| X Xs]; [done |]. intros H.
  apply (f_equal length) in H. cbn [stream map concat] in H.
  rewrite length_app in H. pose proof (length_resp_array_pos X). simpl in H. lia.
Qed.

(** One read on a buffer that ends somewhere in a stream of requests. *)
Lemma read_chunk (str_hash : bytes -> nat) (p : Pipeline) (chunk rest : bytes)
    (Xs : list (list bytes)) :
  Z.of_nat (length (stream Xs)) < LLONG_MAX ->
  (pending_ p ++ chunk) ++ rest = stream Xs ->
  exists Xs1 Xs2 tail,
    Xs = Xs1 ++ Xs2 /\ tail ++ rest = stream Xs2 /\
    (tail = [] \/
     exists X Xs2' q, Xs2 = X :: Xs2' /\ resp_array X true = tail ++ q /\ q <> []) /\
    exec str_hash (Read chunk) p =
    Some (mkPipeline (world_ p) tail (q_ p ++ Xs1) (workers_ p) (outq_ p) (sent_ p)).
Proof.
  intros Hmax Hcut.
  destruct (stream_cut Xs _ _ Hcut) as (Xs1 & Xs2 & tail & -> & Hbuf & Hrest & Hor).
  exists Xs1, Xs2, tail. split_and!; try done.
  rewrite length_stream_app in Hmax.
  assert (Hlen : (length tail <= length (stream Xs2))%nat).
  { rewrite <- Hrest, length_app. lia. }
  assert (Htail : parse_resp tail = Some need_more).
  { destruct Hor as [-> | (X & Xs2' & q & -> & HX & Hq)]; [done |].
    eapply unfinished_needs_more; [| exact HX | exact Hq].
    cbn [stream map concat] in Hmax. rewrite length_app in Hmax. lia. }
  cbn [exec]. rewrite Hbuf.
  rewrite drain_stream; [| rewrite length_app; lia | done |].
  - by rewrite perform_frames.
  - rewrite length_app. pose proof (length_stream Xs1). lia.
Qed.

Lemma read_chunks (str_hash : bytes -> nat) (cs : list bytes) :
  forall (Xs : list (list bytes)) (p : Pipeline),
  Z.of_nat (length (stream Xs)) < LLONG_MAX ->
  pending_ p ++ concat cs = stream Xs ->
  (pending_ p = [] \/
   exists X Xs' q, Xs = X :: Xs' /\ resp_array X true = pending_ p ++ q /\ q <> []) ->
  run str_hash (map Read cs) p =
  Some (mkPipeline (world_ p) [] (q_ p ++ Xs) (workers_ p) (outq_ p) (sent_ p)).
Proof.
  induction cs as [| c cs IH]; intros Xs p Hmax Hcut Hor.
  - cbn [concat] in Hcut. rewrite app_nil_r in Hcut. cbn [map run].
    destruct Hor as [Hp | (X & Xs' & q & -> & HX & Hq)].
    + rewrite Hp in Hcut. symmetry in Hcut. apply stream_nil_inv in Hcut as ->.
      rewrite app_nil_r. destruct p; cbn in *. by subst.
    + exfalso. cbn [stream map concat] in Hcut. rewrite HX in Hcut.
      rewrite <- app_assoc in Hcut.
      rewrite <- (app_nil_r (pending_ p)) in Hcut at 1.
      apply app_inv_head in Hcut. symmetry in Hcut.
      apply app_eq_nil in Hcut as [? _]. done.
  - cbn [concat] in Hcut. rewrite app_assoc in Hcut.
    destruct (read_chunk str_hash p c (concat cs) Xs Hmax Hcut)
      as (Xs1 & Xs2 & tail & -> & Hrest & Hor' & Hexec).
    cbn [map run]. rewrite Hexec.
    rewrite (IH Xs2); cbn [pending_ world_ q_ workers_ outq_ sent_]; try done.
    + by rewrite <- app_assoc.
    + rewrite length_stream_app in Hmax. lia.
Qed.

(** X7. However the bytes of a sequence of well-formed requests are cut
    into reads, the reads queue exactly these requests, in order, and leave
    the buffer empty; nothing is answered or run by reading. *)
Theorem reads_queue_the_requests (str_hash : bytes -> nat) (cs : list bytes)
    (Xs : list (list bytes)) (w : World) (n : nat) :
  Z.of_nat (length (stream Xs)) < LLONG_MAX ->
  concat cs = stream Xs ->
  run str_hash (map Read cs) (connect w n) =
  Some (mkPipeline w [] Xs (replicate n None) [] []).
Proof.
  intros Hmax Hcut.
  by rewrite (read_chunks str_hash cs Xs (connect w n)); eauto.
Qed.

Lemma reads_queue_the_requests_witness :
  run hash0 (map Read [b "*1" ++ CRLF ++ b "$4" ++ CRLF ++ b "PI"; b "NG" ++ CRLF ++ b "*1";
                       CRLF ++ b "$4" ++ CRLF ++ b "PING" ++ CRLF])
      (connect fresh_world 2) =
  Some (mkPipeline fresh_world [] [[b "PING"]; [b "PING"]] (replicate 2 None) [] []).
Proof.
  apply (reads_queue_the_requests hash0 _ [[b "PING"]; [b "PING"]]).
  - vm_compute. reflexivity.
  - vm_compute. reflexivity.
Defined.


(** ** One worker thread *)






(** * More on the shard *)

(** ** Sweep *)

Lemma erase_keys_lookup (ks : list bytes) : forall (s : Shard) (k : bytes),
  let s' := foldl (fun s k => Shard.erase_all k s) s ks in
  (k ∈ ks -> map_ s' !! k = None /\ ttl_ s' !! k = None /\ hmap_ s' !! k = None) /\
  (k ∉ ks -> map_ s' !! k = map_ s !! k /\ ttl_ s' !! k = ttl_ s !! k /\
             hmap_ s' !! k = hmap_ s !! k).
Proof.
  induction ks as [| k0 ks IH]; intros s k; cbn [foldl].
  - split; [intros H; by apply elem_of_nil in H | done].
  - destruct (IH (Shard.erase_all k0 s) k) as [IHin IHout].
    destruct (decide (k ∈ ks)) as [Hin | Hout].
    + split; [intros _; by apply IHin |].
      intros Hn. exfalso. apply Hn. by right.
    + destruct (IHout Hout) as (Hm & Ht & Hh). cbn in Hm, Ht, Hh.
      split.
      * intros Hk. apply elem_of_cons in Hk as [-> | Hk]; [| done].
        rewrite Hm, Ht, Hh. by rewrite !lookup_delete_eq.
      * intros Hk. apply not_elem_of_cons in Hk as [Hne _].
        rewrite Hm, Ht, Hh. by rewrite !lookup_delete_ne.
Qed.

Lemma sweep_list_spec (now : time_point) (s : Shard) (k : bytes) :
  k ∈ (filter (fun kv => kv.2 <= now) (map_to_list (ttl_ s))).*1 <->
  Shard.is_expired_unlocked s k now = true.
Proof.
  unfold Shard.is_expired_unlocked. split.
  - intros Hk. apply list_elem_of_fmap in Hk as ([k' tp] & -> & Hin).
    apply list_elem_of_filter in Hin as [Hle Hin].
    apply elem_of_map_to_list in Hin. cbn in *. rewrite Hin.
    by apply Z.leb_le.
  - destruct (ttl_ s !! k) as [tp |] eqn:Htp; [| discriminate].
    intros Hle. apply Z.leb_le in Hle.
    apply list_elem_of_fmap. exists (k, tp). split; [done |].
    apply list_elem_of_filter. split; [done |].
    by apply elem_of_map_to_list.
Qed.

(** The lookups of a key after a sweep. *)
Lemma sweep_lookup (now : time_point) (s : Shard) (k : bytes) :
  let s' := Shard.sweep now s in
  if Shard.is_expired_unlocked s k now
  then map_ s' !! k = None /\ ttl_ s' !! k = None /\ hmap_ s' !! k = None
  else map_ s' !! k = map_ s !! k /\ ttl_ s' !! k = ttl_ s !! k /\
       hmap_ s' !! k = hmap_ s !! k.
Proof.
  cbv zeta. unfold Shard.sweep.
  destruct (erase_keys_lookup
              (filter (fun kv => kv.2 <= now) (map_to_list (ttl_ s))).*1 s k)
    as [Hin Hout].
  destruct (Shard.is_expired_unlocked s k now) eqn:He.
  - apply Hin. by apply sweep_list_spec.
  - apply Hout. intros Hk. apply sweep_list_spec in Hk. congruence.
Qed.

(** X9. A sweep erases from the three maps of the shard exactly the keys
    whose expiry time has been reached, and leaves every other key as it
    was. *)
Theorem sweep_erases_the_expired (now : time_point) (s : Shard) (k : bytes) :
  let s' := Shard.sweep now s in
  if Shard.is_expired_unlocked s k now
  then map_ s' !! k = None /\ ttl_ s' !! k = None /\ hmap_ s' !! k = None
  else map_ s' !! k = map_ s !! k /\ ttl_ s' !! k = ttl_ s !! k /\
       hmap_ s' !! k = hmap_ s !! k.
Proof. apply sweep_lookup. Qed.

(** ** Strings *)

Lemma is_expired_erase_all (s : Shard) (k k' : bytes) (now : time_point) :
  Shard.is_expired_unlocked (Shard.erase_all k s) k' now =
  if decide (k' = k) then false else Shard.is_expired_unlocked s k' now.
Proof.
  unfold Shard.is_expired_unlocked, Shard.erase_all. cbn.
  case_decide as Hk; [subst; by rewrite lookup_delete_eq |].
  by rewrite lookup_delete_ne.
Qed.

(** X10. A value stored under a key is what a lookup of that key at the
    same time returns, the key is then a string and no longer a hash, and
    the lookup of any other key answers as before. *)
Theorem get_after_set (k v k' : bytes) (now : time_point) (s : Shard) :
  (Shard.get k' now (Shard.set k v now s)).1 =
    (if decide (k' = k) then Some v else (Shard.get k' now s).1) /\
  kind_of k now (Shard.set k v now s) = VString /\
  hmap_ (Shard.set k v now s) !! k = None.
Proof.
  unfold kind_of, Shard.type_of, Shard.get, Shard.set, Shard.is_expired_unlocked,
    contains.
  destruct (ttl_ s !! k) as [tp |] eqn:Htp; cbn.
  - destruct (tp <=? now) eqn:Hle; cbn.
    + rewrite !lookup_delete_eq, lookup_insert_eq. cbn.
      split; [| done].
      case_decide as Hk; [subst; by rewrite lookup_delete_eq, lookup_insert_eq |].
      rewrite lookup_delete_ne by done.
      destruct (ttl_ s !! k') as [tp' |]; [destruct (tp' <=? now) |]; cbn;
        try done; by rewrite lookup_insert_ne.
    + rewrite Htp, Hle, lookup_insert_eq, lookup_delete_eq. cbn.
      split; [| done].
      case_decide as Hk; [subst; by rewrite Htp, Hle, lookup_insert_eq |].
      destruct (ttl_ s !! k') as [tp' |]; [destruct (tp' <=? now) |]; cbn;
        try done; by rewrite lookup_insert_ne.
  - rewrite Htp, lookup_insert_eq, lookup_delete_eq. cbn.
    split; [| done].
    case_decide as Hk; [subst; by rewrite Htp, lookup_insert_eq |].
    destruct (ttl_ s !! k') as [tp' |]; [destruct (tp' <=? now) |]; cbn;
      try done; by rewrite lookup_insert_ne.
Qed.


(** ** Hashes *)

(** The shard [hset] leaves and the number it reports. *)
Lemma hset_snd (key field value : bytes) (now : time_point) (s : Shard) :
  (Shard.hset key field value now s).2 =
  let s1 := if Shard.is_expired_unlocked s key now
            then Shard.erase_all key s else s in
  mkShard (map_ s1) (ttl_ s1)
    (<[key := <[field := value]> (default ∅ (hmap_ s1 !! key))]> (hmap_ s1)).
Proof.
  unfold Shard.hset. cbn zeta.
  by destruct (default ∅ (hmap_ _ !! key) !! field).
Qed.

Lemma hset_fst (key field value : bytes) (now : time_point) (s : Shard) :
  (Shard.hset key field value now s).1 =
  let s1 := if Shard.is_expired_unlocked s key now
            then Shard.erase_all key s else s in
  match default ∅ (hmap_ s1 !! key) !! field with None => 1 | Some _ => 0 end.
Proof.
  unfold Shard.hset. cbn zeta.
  by destruct (default ∅ (hmap_ _ !! key) !! field).
Qed.

(** A lookup after [hset], at the same time. *)
Lemma hget_after_hset (key field value key' field' : bytes)
    (now : time_point) (s : Shard) :
  Shard.hget key' field' now (Shard.hset key field value now s).2 =
  if decide (key' = key /\ field' = field) then Some value
  else Shard.hget key' field' now s.
Proof.
  rewrite hset_snd. cbn zeta. unfold Shard.hget.
  destruct (Shard.is_expired_unlocked s key now) eqn:He;
    unfold Shard.is_expired_unlocked in *; cbn.
  - destruct (decide (key' = key)) as [-> | Hk].
    + rewrite !lookup_delete_eq, lookup_insert_eq. cbn.
      destruct (ttl_ s !! key) as [tp |]; [| discriminate]. rewrite He.
      case_decide as Hf.
      * destruct Hf as [_ ->]. by rewrite lookup_insert_eq.
      * rewrite lookup_insert_ne; [done |]. intros <-. by apply Hf.
    + rewrite lookup_delete_ne, lookup_insert_ne, lookup_delete_ne by done.
      case_decide as Hf; [by destruct Hf |]. done.
  - destruct (decide (key' = key)) as [-> | Hk].
    + rewrite He, lookup_insert_eq.
      case_decide as Hf.
      * destruct Hf as [_ ->]. by rewrite lookup_insert_eq.
      * rewrite lookup_insert_ne by (intros <-; by apply Hf).
        by destruct (hmap_ s !! key).
    + rewrite lookup_insert_ne by done.
      case_decide as Hf; [by destruct Hf |]. done.
Qed.

(** The number [hset] reports, and the length of the hash. *)
Lemma hset_counts_new_fields (key field value : bytes) (now : time_point)
    (s : Shard) :
  (Shard.hset key field value now s).1 = 1 - Shard.hexists key field now s /\
  Shard.hlen key now (Shard.hset key field value now s).2 =
    Shard.hlen key now s + (Shard.hset key field value now s).1.
Proof.
  rewrite hset_snd, hset_fst. cbn zeta.
  unfold Shard.hexists, Shard.hlen, contains.
  destruct (Shard.is_expired_unlocked s key now) eqn:He;
    unfold Shard.is_expired_unlocked in *; cbn.
  - rewrite !lookup_delete_eq. cbn. rewrite lookup_empty, lookup_insert_eq.
    split; [done |]. by rewrite map_size_insert_None, map_size_empty.
  - rewrite He, lookup_insert_eq.
    destruct (hmap_ s !! key) as [hm |] eqn:Hhm; cbn.
    + destruct (hm !! field) as [v0 |] eqn:Hf; cbn.
      * split; [done |]. rewrite map_size_insert_Some by done. lia.
      * split; [done |]. rewrite map_size_insert_None by done. lia.
    + rewrite lookup_empty.
      split; [done |]. by rewrite map_size_insert_None, map_size_empty.
Qed.

(** X11. Setting a field of a hash: 1 is reported exactly when the hash
    did not have the field, and the length of the hash grows by the number
    reported; a lookup of the field at the same time returns the new
    value, and a lookup of any other field or of any other key answers as
    before. *)
Theorem hset_sets_the_field (key field value : bytes) (now : time_point)
    (s : Shard) :
  let r := Shard.hset key field value now s in
  r.1 = 1 - Shard.hexists key field now s /\
  Shard.hlen key now r.2 = Shard.hlen key now s + r.1 /\
  forall key' field',
    Shard.hget key' field' now r.2 =
    if decide (key' = key /\ field' = field) then Some value
    else Shard.hget key' field' now s.
Proof.
  intros r. subst r.
  destruct (hset_counts_new_fields key field value now s) as [H1 H2].
  split; [done |]. split; [done |].
  intros key' field'. apply hget_after_hset.
Qed.

(** X12. Deleting a field reports 1 exactly when the hash had the field;
    afterwards the field is gone, the length of the hash has dropped by the
    number reported and the other fields read as before. *)
Theorem hdel_removes_the_field (key field : bytes) (now : time_point)
    (s : Shard) :
  let r := Shard.hdel key field now s in
  r.1 = Shard.hexists key field now s /\
  Shard.hexists key field now r.2 = 0 /\
  Shard.hlen key now r.2 = Shard.hlen key now s - r.1 /\
  forall field', field' <> field ->
    Shard.hget key field' now r.2 = Shard.hget key field' now s.
Proof.
  intros r. subst r.
  unfold Shard.hdel, Shard.hexists, Shard.hlen, Shard.hget, contains.
  destruct (Shard.is_expired_unlocked s key now) eqn:He.
  - cbn [fst snd]. rewrite is_expired_erase_all, decide_True by done.
    cbn. rewrite lookup_delete_eq. done.
  - destruct (hmap_ s !! key) as [hm |] eqn:Hhm.
    + case_decide as Hempty; cbn [fst snd];
        unfold Shard.is_expired_unlocked in *; cbn; rewrite He.
      * rewrite lookup_delete_eq.
        assert (Hsz : size (delete field hm) = 0%nat)
          by (by rewrite Hempty, map_size_empty).
        split_and!; try done.
        -- rewrite map_size_delete in Hsz.
           destruct (hm !! field) eqn:Hf; cbn in Hsz; [| lia].
           assert (size hm <> 0%nat); [| lia].
           intros H0. apply map_size_empty_inv in H0. subst hm.
           by rewrite lookup_empty in Hf.
        -- intros field' Hne.
           rewrite <- (lookup_delete_ne hm field field') by done.
           by rewrite Hempty, lookup_empty.
      * rewrite lookup_insert_eq, lookup_delete_eq.
        split_and!; try done.
        -- rewrite map_size_delete.
           destruct (hm !! field) eqn:Hf; cbn; [| lia].
           assert (size hm <> 0%nat); [| lia].
           intros H0. apply map_size_empty_inv in H0. subst hm.
           by rewrite lookup_empty in Hf.
        -- intros field' Hne. by rewrite lookup_delete_ne.
    + cbn [fst snd]. unfold Shard.is_expired_unlocked in *. rewrite He, Hhm.
      done.
Qed.

Lemma pairs_flatten (l : list (bytes * bytes)) :
  pairs (concat (map (fun fv => [fv.1; fv.2]) l)) = l.
Proof.
  induction l as [| [f v] l IH]; [done |]. cbn. by rewrite IH.
Qed.

Lemma length_flatten (l : list (bytes * bytes)) :
  length (concat (map (fun fv : bytes * bytes => [fv.1; fv.2]) l)) =
  (2 * length l)%nat.
Proof. induction l as [| fv l IH]; [done |]. cbn. rewrite IH. lia. Qed.

(** X13. The listing of a hash holds each field followed by its value:
    it is twice as long as the hash, and its pairs are exactly the
    field/value pairs a lookup finds. *)
Theorem hgetall_lists_the_hash (key : bytes) (now : time_point) (s : Shard) :
  Z.of_nat (length (Shard.hgetall key now s)) = 2 * Shard.hlen key now s /\
  forall f v, (f, v) ∈ pairs (Shard.hgetall key now s) <->
              Shard.hget key f now s = Some v.
Proof.
  unfold Shard.hgetall, Shard.hlen, Shard.hget.
  destruct (Shard.is_expired_unlocked s key now).
  - split; [done |]. intros f v. cbn. split; [| done].
    intros H. by apply elem_of_nil in H.
  - destruct (hmap_ s !! key) as [hm |].
    + rewrite length_flatten, pairs_flatten, length_map_to_list.
      split; [lia |]. intros f v. apply elem_of_map_to_list.
    + split; [done |]. intros f v. cbn. split; [| done].
      intros H. by apply elem_of_nil in H.
Qed.


(** ** Sweep and the readers *)




(** * More on the router *)

(** ** Command names *)

Lemma handlers_skip_the_name (str_hash : bytes -> nat) :
  Forall (fun nh : bytes * Handler =>
            forall n1 n2 args, nh.2 (n1 :: args) = nh.2 (n2 :: args))
         (registrations str_hash).
Proof.
  unfold registrations.
  repeat (apply Forall_cons; split; [cbn [snd]; intros n1 n2 args; reflexivity |]).
  by apply Forall_nil.
Qed.

(** X15. The name of a command is matched without regard to the case of
    its letters: two requests whose names differ only in case, with the
    same arguments, are the same command. *)
Theorem command_names_ignore_case (str_hash : bytes -> nat)
    (name1 name2 : bytes) (args : list bytes) :
  upper name1 = upper name2 ->
  dispatch str_hash (name1 :: args) = dispatch str_hash (name2 :: args).
Proof.
  intros Hname. unfold dispatch. rewrite Hname.
  destruct (h_ str_hash !! upper name2) as [h |] eqn:Eh; [| done].
  apply h_lookup in Eh.
  pose proof (handlers_skip_the_name str_hash) as Hall.
  rewrite Forall_forall in Hall. apply (Hall _ Eh).
Qed.

Lemma command_names_ignore_case_witness :
  dispatch hash0 [b "hSet"; b "k"; b "f"; b "v"] =
  dispatch hash0 [b "HSET"; b "k"; b "f"; b "v"].
Proof. apply (command_names_ignore_case hash0). reflexivity. Defined.

(** ** Only strings expire *)

Section TtlInvariant.

Variable str_hash : bytes -> nat.


End TtlInvariant.

Ltac ttl_tac key :=
  let k' := fresh "k'" in
  let Hk' := fresh "Hk'" in
  intros k' Hk';
  repeat match goal with H : ttl_on_strings _ |- _ => specialize (H k') end;
  cbn [map_ ttl_ hmap_ Shard.erase_all] in *;
  destruct (decide (k' = key)) as [-> | ?];
  rewrite ?lookup_insert_eq, ?lookup_delete_eq in *;
  rewrite ?lookup_insert_ne, ?lookup_delete_ne in * by done;
  try done; auto.

Lemma erase_all_ttl (k : bytes) (s : Shard) :
  ttl_on_strings s -> ttl_on_strings (Shard.erase_all k s).
Proof. intros H. ttl_tac k. Qed.

Lemma get_ttl (k : bytes) (now : time_point) (s : Shard) :
  ttl_on_strings s ->
  ttl_on_strings (Shard.get k now s).2 /\
  ((Shard.get k now s).1 <> None -> map_ (Shard.get k now s).2 !! k <> None).
Proof.
  intros H. unfold Shard.get. destruct (Shard.is_expired_unlocked s k now);
    cbn [fst snd]; [split; [by apply erase_all_ttl | done] | done].
Qed.

Lemma set_ttl (k v : bytes) (now : time_point) (s : Shard) :
  ttl_on_strings s ->
  ttl_on_strings (Shard.set k v now s) /\ map_ (Shard.set k v now s) !! k <> None.
Proof.
  intros H. unfold Shard.set.
  destruct (Shard.is_expired_unlocked s k now); cbn [map_ ttl_ hmap_];
    (split; [ttl_tac k | by rewrite lookup_insert_eq]).
Qed.

Lemma del_ttl (k : bytes) (s : Shard) :
  ttl_on_strings s -> ttl_on_strings (Shard.del k s).2.
Proof. intros H. unfold Shard.del. cbn [snd]. ttl_tac k. Qed.


Lemma clear_expire_ttl (k : bytes) (s : Shard) :
  ttl_on_strings s -> ttl_on_strings (Shard.clear_expire k s).
Proof. intros H. unfold Shard.clear_expire. ttl_tac k. Qed.


Lemma type_of_ttl (k : bytes) (now : time_point) (s : Shard) :
  ttl_on_strings s -> ttl_on_strings (Shard.type_of k now s).2.
Proof.
  intros H. unfold Shard.type_of.
  destruct (Shard.is_expired_unlocked s k now); cbn [snd];
    [by apply erase_all_ttl |].
  by destruct (contains (map_ s) k), (contains (hmap_ s) k).
Qed.

Lemma hset_ttl (key field value : bytes) (now : time_point) (s : Shard) :
  ttl_on_strings s -> ttl_on_strings (Shard.hset key field value now s).2.
Proof.
  intros H. rewrite hset_snd. cbn zeta.
  destruct (Shard.is_expired_unlocked s key now); ttl_tac key.
Qed.

Lemma hdel_ttl (key field : bytes) (now : time_point) (s : Shard) :
  ttl_on_strings s -> ttl_on_strings (Shard.hdel key field now s).2.
Proof.
  intros H. unfold Shard.hdel.
  destruct (Shard.is_expired_unlocked s key now); cbn [snd];
    [by apply erase_all_ttl |].
  destruct (hmap_ s !! key); [| done].
  by case_decide.
Qed.

Section TtlHandlers.

Variable str_hash : bytes -> nat.






Create HintDb ttl_ok_db.

Hint Resolve del_ttl clear_expire_ttl hdel_ttl hset_ttl type_of_ttl
  erase_all_ttl : ttl_ok_db.

Lemma get_keeps_ttl (k : bytes) (now : time_point) (s : Shard) :
  ttl_on_strings s -> ttl_on_strings (Shard.get k now s).2.
Proof. intros H. by apply get_ttl. Qed.

Lemma set_keeps_ttl (k v : bytes) (now : time_point) (s : Shard) :
  ttl_on_strings s -> ttl_on_strings (Shard.set k v now s).
Proof. intros H. by apply set_ttl. Qed.

Hint Resolve get_keeps_ttl set_keeps_ttl : ttl_ok_db.



















End TtlHandlers.



(** ** DEL *)

Section MoreCommands.

Variable str_hash : bytes -> nat.

(** The shard of a key after an operation on the shard of another. *)
Lemma shard_at_shard_for_other {A} (key key' : bytes) (op : Shard -> A * Shard)
    (w : World) :
  has_shard w ->
  shard_at str_hash (shard_for str_hash key op w).2 key' =
  if decide (shard_index str_hash w key' = shard_index str_hash w key)
  then (op (shard_at str_hash w key)).2 else shard_at str_hash w key'.
Proof.
  intros H. rewrite shard_for_snd. unfold shard_at at 1.
  rewrite shard_index_insert. cbn [shards_].
  case_decide as Hi.
  - rewrite Hi, list_lookup_insert_eq; [done |]. by apply shard_index_lt.
  - rewrite list_lookup_insert_ne by done. done.
Qed.

Lemma shard_at_same_index (key key' : bytes) (w : World) :
  shard_index str_hash w key' = shard_index str_hash w key ->
  shard_at str_hash w key' = shard_at str_hash w key.
Proof. intros H. unfold shard_at. by rewrite H. Qed.

Lemma dispatch_DEL (name : bytes) (args : list bytes) :
  upper name = b "DEL" ->
  dispatch str_hash (name :: args) = h_DEL str_hash (name :: args).
Proof. intros H. unfold dispatch. rewrite H. reflexivity. Qed.

(** X17. DEL removes its first key from the store, value and expiry time,
    whether the key held a string or a hash and whether it had expired;
    it answers 1 when a value was stored and 0 otherwise, reads no clock,
    ignores further arguments and leaves all other keys as they were. *)
Theorem del_removes_the_key (name k : bytes) (rest : list bytes) (w : World) :
  has_shard w -> upper name = b "DEL" ->
  let s := shard_at str_hash w k in
  let r := dispatch str_hash (name :: k :: rest) w in
  r.1 = resp_int (if contains (map_ s) k || contains (hmap_ s) k then 1 else 0) /\
  reads_ r.2 = reads_ w /\
  (let s' := shard_at str_hash r.2 k in
   map_ s' !! k = None /\ ttl_ s' !! k = None /\ hmap_ s' !! k = None) /\
  forall k', k' <> k ->
    let s0 := shard_at str_hash w k' in
    let s' := shard_at str_hash r.2 k' in
    map_ s' !! k' = map_ s0 !! k' /\ ttl_ s' !! k' = ttl_ s0 !! k' /\
    hmap_ s' !! k' = hmap_ s0 !! k'.
Proof.
  intros Hne Hname s r. subst r. rewrite dispatch_DEL by done.
  unfold h_DEL.
  assert (Hn : (nargs (name :: k :: rest) <? 2) = false).
  { unfold nargs. apply Z.ltb_ge. cbn [length]. lia. }
  rewrite Hn. cbn [arg nth]. rewrite bind_run. unfold ret. cbn [fst snd].
  rewrite shard_for_fst. fold s. split; [| split; [| split]].
  - unfold Shard.del. cbn [fst]. by destruct (_ || _).
  - by rewrite shard_for_snd.
  - rewrite shard_at_shard_for by done. fold s. unfold Shard.del. cbn.
    by rewrite !lookup_delete_eq.
  - intros k' Hk'. cbv zeta. rewrite shard_at_shard_for_other by done.
    case_decide as Hi; [| done].
    rewrite (shard_at_same_index k k' w Hi). unfold Shard.del. cbn.
    by rewrite !lookup_delete_ne.
Qed.

End MoreCommands.

Lemma del_removes_the_key_witness :
  let w := (dispatch hash0 [b "SET"; b "k"; b "v"; b "PX"; b "0"] fresh_world).2 in
  let r := dispatch hash0 [b "del"; b "k"; b "other"] w in
  r.1 = resp_int 1 /\ map_ (shard_at hash0 r.2 (b "k")) !! b "k" = None.
Proof.
  intros w r.
  destruct (del_removes_the_key hash0 (b "del") (b "k") [b "other"] w)
    as (H1 & _ & (H2 & _) & _); [vm_compute; lia | reflexivity |].
  split; [exact H1 | exact H2].
Defined.


(** ** Commands touch only the keys they name *)

Ltac frame_tac key :=
  unfold lookups; cbn [map_ ttl_ hmap_ Shard.erase_all];
  rewrite ?lookup_insert_ne, ?lookup_delete_ne by done; try done.

Lemma erase_all_frame (k k' : bytes) (s : Shard) :
  k <> k' -> lookups k' (Shard.erase_all k s) = lookups k' s.
Proof. intros H. frame_tac k. Qed.

Lemma get_frame (k k' : bytes) (now : time_point) (s : Shard) :
  k <> k' -> lookups k' (Shard.get k now s).2 = lookups k' s.
Proof.
  intros H. unfold Shard.get. destruct (Shard.is_expired_unlocked s k now);
    [by apply erase_all_frame | done].
Qed.

Lemma set_frame (k v k' : bytes) (now : time_point) (s : Shard) :
  k <> k' -> lookups k' (Shard.set k v now s) = lookups k' s.
Proof.
  intros H. unfold Shard.set.
  destruct (Shard.is_expired_unlocked s k now); frame_tac k.
Qed.

Lemma del_frame (k k' : bytes) (s : Shard) :
  k <> k' -> lookups k' (Shard.del k s).2 = lookups k' s.
Proof. intros H. unfold Shard.del. cbn [snd]. frame_tac k. Qed.

Lemma set_expire_frame (k k' : bytes) (tp : time_point) (s : Shard) :
  k <> k' -> lookups k' (Shard.set_expire k tp s) = lookups k' s.
Proof.
  intros H. unfold Shard.set_expire. destruct (_ || _); frame_tac k.
Qed.

Lemma clear_expire_frame (k k' : bytes) (s : Shard) :
  k <> k' -> lookups k' (Shard.clear_expire k s) = lookups k' s.
Proof. intros H. unfold Shard.clear_expire. frame_tac k. Qed.

Lemma type_of_frame (k k' : bytes) (now : time_point) (s : Shard) :
  k <> k' -> lookups k' (Shard.type_of k now s).2 = lookups k' s.
Proof.
  intros H. unfold Shard.type_of.
  destruct (Shard.is_expired_unlocked s k now); cbn [snd];
    [by apply erase_all_frame |].
  by destruct (contains (map_ s) k), (contains (hmap_ s) k).
Qed.

Lemma hset_frame (k f v k' : bytes) (now : time_point) (s : Shard) :
  k <> k' -> lookups k' (Shard.hset k f v now s).2 = lookups k' s.
Proof.
  intros H. rewrite hset_snd. cbv zeta.
  destruct (Shard.is_expired_unlocked s k now); frame_tac k.
Qed.

Lemma hdel_frame (k f k' : bytes) (now : time_point) (s : Shard) :
  k <> k' -> lookups k' (Shard.hdel k f now s).2 = lookups k' s.
Proof.
  intros H. unfold Shard.hdel.
  destruct (Shard.is_expired_unlocked s k now); cbn [snd];
    [by apply erase_all_frame |].
  destruct (hmap_ s !! k); [| done].
  case_decide; cbn [snd]; frame_tac k.
Qed.

Section Frame.

Variable str_hash : bytes -> nat.
Variable k' : bytes.
Variable st : option bytes * option time_point * option (gmap bytes bytes).

Local Abbreviation frames := (frames str_hash k' st).

Lemma frames_ret {A} (a : A) : frames (ret a).
Proof. by apply hoare_ret. Qed.

Lemma frames_bind {A B} (m : M A) (f : A -> M B) :
  frames m -> (forall a, frames (f a)) -> frames (bind m f).
Proof. intros Hm Hf. eapply hoare_bind; [exact Hm | exact Hf]. Qed.

Lemma frames_now : frames steady_now.
Proof. by apply hoare_now. Qed.

Lemma frames_shard_for {A} (key : bytes) (op : Shard -> A * Shard) :
  key <> k' -> (forall s, lookups k' (op s).2 = lookups k' s) ->
  frames (shard_for str_hash key op).
Proof.
  intros Hkey Hop w [Hne Hst]. split; [by apply has_shard_shard_for |].
  rewrite shard_at_shard_for_other by done.
  case_decide as Hi; [| done].
  rewrite Hop. by rewrite <- (shard_at_same_index str_hash key k' w Hi).
Qed.

Create HintDb frame_db.

Hint Resolve get_frame set_frame del_frame set_expire_frame clear_expire_frame
  type_of_frame hset_frame hdel_frame : frame_db.

Ltac frame_step :=
  first
    [ apply frames_ret
    | apply frames_now
    | apply frames_shard_for;
      [ solve [auto | congruence]
      | intros ?; cbn [upd obs snd]; solve [eauto with frame_db] ]
    | apply frames_bind; [| intros ?]
    | match goal with
      | |- frames (if ?c then _ else _) => destruct c
      | |- frames (match ?x with _ => _ end) => destruct x
      end ].

Ltac frame_steps := cbv beta zeta; repeat frame_step.

Lemma exists_loop_frame (now : time_point) (keys : list bytes) :
  k' ∉ keys -> forall count, frames (exists_loop str_hash now keys count).
Proof.
  induction keys as [| key keys IH]; intros Hk count; cbn [exists_loop].
  - apply frames_ret.
  - apply not_elem_of_cons in Hk as [Hne Hk].
    frame_steps; by apply IH.
Qed.

Lemma mget_check_frame (now : time_point) (keys : list bytes) :
  k' ∉ keys -> frames (mget_check str_hash now keys).
Proof.
  induction keys as [| key keys IH]; intros Hk; cbn [mget_check].
  - apply frames_ret.
  - apply not_elem_of_cons in Hk as [Hne Hk].
    frame_steps; by apply IH.
Qed.

Lemma mget_loop_frame (keys : list bytes) :
  k' ∉ keys -> forall out, frames (mget_loop str_hash keys out).
Proof.
  induction keys as [| key keys IH]; intros Hk out; cbn [mget_loop].
  - apply frames_ret.
  - apply not_elem_of_cons in Hk as [Hne Hk].
    frame_steps; by apply IH.
Qed.

Lemma hmget_loop_frame (key : bytes) (fields : list bytes) :
  key <> k' -> forall out, frames (hmget_loop str_hash key fields out).
Proof.
  intros Hne. induction fields as [| f fields IH]; intros out;
    cbn [hmget_loop]; frame_steps; apply IH.
Qed.

Lemma mset_loop_frame (kvs : list bytes) :
  k' ∉ kvs -> frames (mset_loop str_hash kvs).
Proof.
  induction kvs as [kvs IH] using (induction_ltof1 _ (@length bytes)).
  unfold ltof in IH. intros Hk.
  destruct kvs as [| key [| val kvs']]; cbn [mset_loop];
    try apply frames_ret.
  apply not_elem_of_cons in Hk as [Hne Hk].
  apply not_elem_of_cons in Hk as [_ Hk].
  frame_steps. apply IH; [simpl; lia | done].
Qed.

Lemma hset_loop_frame (key : bytes) (fvs : list bytes) :
  key <> k' -> forall added, frames (hset_loop str_hash key fvs added).
Proof.
  intros Hne.
  induction fvs as [fvs IH] using (induction_ltof1 _ (@length bytes)).
  unfold ltof in IH. intros added.
  destruct fvs as [| field [| value fvs']]; cbn [hset_loop]; frame_steps.
  apply IH. simpl. lia.
Qed.

(** The handlers on a request whose arguments do not name [k']. *)
Lemma handlers_frame :
  Forall (fun nh : bytes * Handler =>
            forall a, k' ∉ skipn 1 a -> frames (nh.2 a))
         (registrations str_hash).
Proof.
  unfold registrations.
  repeat (apply Forall_cons; split; [cbn [snd]; intros a Ha |]);
    try (apply Forall_nil; exact I).
  all: destruct a as [| name [| k [| x rest]]].
  all: lazymatch goal with
       | |- frames (?h _ _) => unfold h
       | |- frames (?h _) => unfold h
       end.
  all: unfold nargs; cbn [length arg nth skipn] in *.
  all: try (apply not_elem_of_cons in Ha as [Hk Ha]).
  all: try (apply not_elem_of_cons in Ha as [Hx Ha]).
  all: try match goal with
       | |- context [Z.of_nat 0] => change (Z.of_nat 0) with 0
       end;
       try match goal with
       | |- context [Z.of_nat 1] => change (Z.of_nat 1) with 1
       end;
       try match goal with
       | |- context [Z.of_nat 2] => change (Z.of_nat 2) with 2
       end.
  all: cbn [Z.ltb Z.compare Pos.compare Pos.compare_cont orb negb].
  all: frame_steps.
  all: first [ apply exists_loop_frame | apply mget_check_frame
             | apply mget_loop_frame | apply hmget_loop_frame
             | apply mset_loop_frame | apply hset_loop_frame | idtac ].
  all: try done.
  all: try (by repeat (apply not_elem_of_cons; split)).
Qed.

Lemma dispatch_frame (args : list bytes) :
  k' ∉ skipn 1 args -> frames (dispatch str_hash args).
Proof.
  intros Hk. unfold dispatch. destruct args as [| name args]; [apply frames_ret |].
  destruct (h_ str_hash !! upper name) as [h |] eqn:Eh; [| apply frames_ret].
  apply h_lookup in Eh.
  pose proof handlers_frame as Hall.
  rewrite Forall_forall in Hall. by apply (Hall _ Eh).
Qed.

End Frame.

(** X18. A command touches only the keys it names: for a key that is not
    among the arguments of a request, the store holds after the dispatch
    the same string, expiry time and hash as before. *)
Theorem commands_touch_only_named_keys (str_hash : bytes -> nat)
    (args : list bytes) (k : bytes) (w : World) :
  has_shard w -> k ∉ skipn 1 args ->
  lookups k (shard_at str_hash (dispatch str_hash args w).2 k) =
  lookups k (shard_at str_hash w k).
Proof.
  intros Hne Hk.
  by destruct (dispatch_frame str_hash k (lookups k (shard_at str_hash w k))
                 args Hk w).
Qed.

Lemma commands_touch_only_named_keys_witness :
  let w := (dispatch hash0 [b "SET"; b "a"; b "1"; b "PX"; b "0"] fresh_world).2 in
  lookups (b "a")
    (shard_at hash0 (dispatch hash0 [b "MSET"; b "b"; b "2"; b "c"; b "3"] w).2
       (b "a")) =
  lookups (b "a") (shard_at hash0 w (b "a")).
Proof.
  intros w.
  apply (commands_touch_only_named_keys hash0
           [b "MSET"; b "b"; b "2"; b "c"; b "3"] (b "a") w).
  - vm_compute. lia.
  - cbn [skipn]. intros H.
    repeat (apply elem_of_cons in H as [H | H]; [discriminate H |]).
    by apply elem_of_nil in H.
Defined.


(** ** SET with an expiry, then GET *)

Section SetThenGet.

Variable str_hash : bytes -> nat.

Lemma dispatch_GET (name : bytes) (args : list bytes) :
  upper name = b "GET" ->
  dispatch str_hash (name :: args) = h_GET str_hash (name :: args).
Proof. intros H. unfold dispatch. rewrite H. reflexivity. Qed.

(** The shard of the key after SET with PX. *)
Lemma set_px_run (name k v opt n : bytes) (ms : Z) (w : World) :
  has_shard w -> upper name = b "SET" -> upper opt = b "PX" ->
  stoll n = Some ms ->
  let expiry := add_ms (clock_ w (S (reads_ w))) (if ms <? 0 then 0 else ms) in
  let r := dispatch str_hash [name; k; v; opt; n] w in
  r.1 = resp_simple (b "OK") /\
  has_shard r.2 /\ clock_ r.2 = clock_ w /\ reads_ r.2 = S (S (reads_ w)) /\
  shard_at str_hash r.2 k =
    Shard.set_expire k expiry (Shard.set k v (now_of w) (shard_at str_hash w k)).
Proof.
  intros Hne Hname Hopt Hn expiry r. subst r.
  rewrite dispatch_SET by done. unfold h_SET, set_options, nargs.
  cbn [length arg nth].
  change (Z.of_nat 5 <? 3) with false.
  change (5 <=? Z.of_nat 5) with true. cbv iota beta zeta.
  fold (upper opt). rewrite Hopt.
  rewrite decide_False by (intros [=]).
  rewrite decide_True by done. rewrite Hn.
  set (ttl := if ms <? 0 then 0 else ms).
  assert (Httl : (0 <=? ttl) = true).
  { apply Z.leb_le. subst ttl. destruct (Z.ltb_spec ms 0); lia. }
  rewrite bind_run, steady_now_run. cbn [fst snd].
  rewrite bind_run. rewrite Httl.
  set (w1 := (shard_for str_hash k (upd (Shard.set k v (now_of w))) (tick w)).2).
  assert (Hw1 : has_shard w1) by (by apply has_shard_shard_for).
  assert (Hs1 : shard_at str_hash w1 k =
                Shard.set k v (now_of w) (shard_at str_hash w k)).
  { subst w1. by rewrite shard_at_shard_for. }
  assert (Hc1 : clock_ w1 = clock_ w /\ reads_ w1 = S (reads_ w)).
  { subst w1. by rewrite shard_for_snd. }
  destruct Hc1 as [Hc1 Hr1].
  rewrite !bind_run, steady_now_run. cbn [fst snd]. unfold ret. cbn [fst snd].
  split; [done |]. split; [by apply has_shard_shard_for |].
  rewrite shard_at_shard_for by done.
  rewrite shard_for_snd. cbn [clock_ reads_ tick].
  split; [done |]. split; [by rewrite Hr1 |].
  rewrite shard_at_tick, Hs1. unfold upd. cbn [snd].
  unfold now_of. by rewrite Hc1, Hr1.
Qed.

(** GET on a key that holds a string with an expiry time. *)
Lemma get_run (name k v : bytes) (e : time_point) (w : World) :
  has_shard w -> upper name = b "GET" ->
  map_ (shard_at str_hash w k) !! k = Some v ->
  ttl_ (shard_at str_hash w k) !! k = Some e ->
  (dispatch str_hash [name; k] w).1 =
  if (e <=? clock_ w (reads_ w)) || (e <=? clock_ w (S (reads_ w)))
  then resp_nil else resp_bulk v.
Proof.
  intros Hne Hname Hm He. rewrite dispatch_GET by done.
  unfold h_GET, nargs. cbn [length arg nth].
  change (Z.of_nat 2 <? 2) with false. cbv iota beta zeta.
  rewrite bind_run, steady_now_run. cbn [fst snd].
  rewrite bind_run, shard_for_fst, shard_at_tick.
  set (s := shard_at str_hash w k) in *.
  set (w1 := (shard_for str_hash k (Shard.type_of k (now_of w)) (tick w)).2).
  assert (Hs1 : shard_at str_hash w1 k = (Shard.type_of k (now_of w) s).2).
  { subst w1. by rewrite shard_at_shard_for. }
  assert (Hc1 : clock_ w1 = clock_ w /\ reads_ w1 = S (reads_ w)).
  { subst w1. by rewrite shard_for_snd. }
  destruct Hc1 as [Hc1 Hr1].
  unfold Shard.type_of in *. unfold Shard.is_expired_unlocked in *.
  rewrite He in *. fold (now_of w).
  destruct (e <=? now_of w) eqn:Hexp; cbn [fst snd orb] in *.
  - rewrite bind_run, steady_now_run. cbn [fst snd].
    rewrite bind_run, shard_for_fst, shard_at_tick, Hs1.
    unfold Shard.get, Shard.is_expired_unlocked, Shard.erase_all. cbn.
    by rewrite !lookup_delete_eq.
  - unfold contains in *. rewrite Hm in *. cbn [fst snd] in *.
    rewrite bind_run, steady_now_run. cbn [fst snd].
    rewrite bind_run, shard_for_fst, shard_at_tick, Hs1.
    unfold Shard.get, Shard.is_expired_unlocked. rewrite He.
    unfold now_of. rewrite Hc1, Hr1.
    destruct (e <=? clock_ w (S (reads_ w))); cbn [fst]; [done |].
    by rewrite Hm.
Qed.

Lemma set_then_expire (k v : bytes) (e now : time_point) (s : Shard) :
  let s' := Shard.set_expire k e (Shard.set k v now s) in
  map_ s' !! k = Some v /\ ttl_ s' !! k = Some e.
Proof.
  cbv zeta.
  assert (Hm : map_ (Shard.set k v now s) !! k = Some v).
  { unfold Shard.set. cbn. apply lookup_insert_eq. }
  set (s1 := Shard.set k v now s) in *. unfold Shard.set_expire.
  assert (Hc : contains (map_ s1) k || contains (hmap_ s1) k = true).
  { unfold contains. by rewrite Hm. }
  rewrite Hc. cbn. split; [done |]. apply lookup_insert_eq.
Qed.

(** X19. SET with PX answers OK, and a GET of the key right afterwards
    answers the value as long as neither of its two clock readings has
    reached the expiry time, and nil otherwise; the expiry time is the
    clock reading taken after the value is stored plus the given
    milliseconds, a negative number counting as zero. *)
Theorem set_px_then_get (name name' k v opt n : bytes) (ms : Z) (w : World) :
  has_shard w -> upper name = b "SET" -> upper opt = b "PX" ->
  upper name' = b "GET" -> stoll n = Some ms ->
  let expiry := add_ms (clock_ w (S (reads_ w))) (if ms <? 0 then 0 else ms) in
  let r := dispatch str_hash [name; k; v; opt; n] w in
  r.1 = resp_simple (b "OK") /\
  (dispatch str_hash [name'; k] r.2).1 =
    if (expiry <=? clock_ w (S (S (reads_ w)))) ||
       (expiry <=? clock_ w (S (S (S (reads_ w)))))
    then resp_nil else resp_bulk v.
Proof.
  intros Hne Hname Hopt Hname' Hn expiry r.
  destruct (set_px_run name k v opt n ms w Hne Hname Hopt Hn)
    as (Hok & Hne' & Hc & Hr & Hs).
  fold r in Hok, Hne', Hc, Hr, Hs. fold expiry in Hs.
  split; [done |].
  rewrite (get_run name' k v expiry r.2 Hne' Hname').
  - by rewrite Hc, Hr.
  - rewrite Hs. apply set_then_expire.
  - rewrite Hs. apply set_then_expire.
Qed.

End SetThenGet.

Lemma set_px_then_get_witness :
  let r := dispatch hash0 [b "set"; b "k"; b "v"; b "px"; b "2"] fresh_world in
  r.1 = resp_simple (b "OK") /\
  (dispatch hash0 [b "get"; b "k"] r.2).1 = resp_nil.
Proof.
  intros r.
  apply (set_px_then_get hash0 (b "set") (b "get") (b "k") (b "v") (b "px")
           (b "2") 2 fresh_world); try reflexivity.
  vm_compute. lia.
Defined.


(** ** HSET, then HGET *)

Section HsetThenHget.

Variable str_hash : bytes -> nat.

Lemma dispatch_HSET (name : bytes) (args : list bytes) :
  upper name = b "HSET" ->
  dispatch str_hash (name :: args) = h_HSET str_hash (name :: args).
Proof. intros H. unfold dispatch. rewrite H. reflexivity. Qed.

Lemma dispatch_HGET (name : bytes) (args : list bytes) :
  upper name = b "HGET" ->
  dispatch str_hash (name :: args) = h_HGET str_hash (name :: args).
Proof. intros H. unfold dispatch. rewrite H. reflexivity. Qed.

(** [type_of] on a key with no string and no expiry time. *)
Lemma type_of_no_string (k : bytes) (now : time_point) (s : Shard) :
  map_ s !! k = None -> ttl_ s !! k = None ->
  Shard.type_of k now s =
  (if contains (hmap_ s) k then VHash else VNone, s).
Proof.
  intros Hm Ht. unfold Shard.type_of, Shard.is_expired_unlocked, contains.
  rewrite Hm, Ht. by destruct (hmap_ s !! k).
Qed.

(** HSET of one field on a key with no string and no expiry time. *)
Lemma hset_run (name k f v : bytes) (w : World) :
  has_shard w -> upper name = b "HSET" ->
  map_ (shard_at str_hash w k) !! k = None ->
  ttl_ (shard_at str_hash w k) !! k = None ->
  let s := shard_at str_hash w k in
  let t1 := clock_ w (S (reads_ w)) in
  let r := dispatch str_hash [name; k; f; v] w in
  r.1 = resp_int ((Shard.hset k f v t1 s).1) /\
  has_shard r.2 /\
  shard_at str_hash r.2 k = (Shard.hset k f v t1 s).2.
Proof.
  intros Hne Hname Hm Ht s t1 r. subst r.
  rewrite dispatch_HSET by done.
  unfold h_HSET, nargs. cbn [length arg nth skipn].
  change ((Z.of_nat 4 <? 4) || negb ((Z.of_nat 4 - 2) mod 2 =? 0)) with false.
  cbv iota beta zeta.
  rewrite bind_run, steady_now_run. cbn [fst snd].
  rewrite bind_run.
  rewrite (shard_for_unchanged str_hash k _
             (if contains (hmap_ s) k then VHash else VNone) (tick w));
    [| done | rewrite shard_at_tick; by apply type_of_no_string].
  cbn [fst snd].
  set (body := (let* added := hset_loop str_hash k [f; v] 0 in
                ret (resp_int added))%cmd).
  assert (Hrun :
    (match (if contains (hmap_ s) k then VHash else VNone) with
     | VString => ret resp_wrongtype
     | _ => body
     end) (tick w) = body (tick w)).
  { by destruct (contains (hmap_ s) k). }
  rewrite Hrun. clear Hrun. subst body.
  cbn [hset_loop]. rewrite !bind_run, steady_now_run. cbn [fst snd].
  unfold ret. cbn [fst snd].
  rewrite shard_for_fst, !shard_at_tick. fold s.
  change (now_of (tick w)) with t1.
  split; [f_equal; lia |].
  split; [by apply has_shard_shard_for |].
  by rewrite shard_at_shard_for.
Qed.

(** HGET on a key that holds a hash and has no expiry time. *)
Lemma hget_run (name k f : bytes) (hm : gmap bytes bytes) (w : World) :
  has_shard w -> upper name = b "HGET" ->
  map_ (shard_at str_hash w k) !! k = None ->
  ttl_ (shard_at str_hash w k) !! k = None ->
  hmap_ (shard_at str_hash w k) !! k = Some hm ->
  (dispatch str_hash [name; k; f] w).1 =
  match hm !! f with Some x => resp_bulk x | None => resp_nil end.
Proof.
  intros Hne Hname Hm Ht Hh.
  set (s := shard_at str_hash w k) in *.
  rewrite dispatch_HGET by done.
  unfold h_HGET, nargs. cbn [length arg nth].
  change (Z.of_nat 3 <? 3) with false. cbv iota beta zeta.
  rewrite bind_run, steady_now_run. cbn [fst snd].
  rewrite bind_run.
  rewrite (shard_for_unchanged str_hash k _ VHash (tick w)); [| done |].
  - cbn [fst snd]. rewrite bind_run, steady_now_run. cbn [fst snd].
    rewrite bind_run, shard_for_fst, !shard_at_tick. fold s.
    unfold obs. cbn [fst]. unfold Shard.hget, Shard.is_expired_unlocked.
    rewrite Ht, Hh. by destruct (hm !! f).
  - rewrite shard_at_tick. fold s. rewrite type_of_no_string by done.
    unfold contains. by rewrite Hh.
Qed.

(** X20. On a key that holds no string and has no expiry time, HSET of
    one field answers 1 when the field is new and 0 when it replaces a
    value, and HGET of the field right afterwards answers the value set,
    whatever the clock reads. *)
Theorem hset_then_hget (name name' k f v : bytes) (w : World) :
  has_shard w -> upper name = b "HSET" -> upper name' = b "HGET" ->
  map_ (shard_at str_hash w k) !! k = None ->
  ttl_ (shard_at str_hash w k) !! k = None ->
  let r := dispatch str_hash [name; k; f; v] w in
  r.1 = resp_int (1 - Shard.hexists k f (now_of w) (shard_at str_hash w k)) /\
  (dispatch str_hash [name'; k; f] r.2).1 = resp_bulk v.
Proof.
  intros Hne Hname Hname' Hm Ht r.
  destruct (hset_run name k f v w Hne Hname Hm Ht) as (Hr & Hne2 & Hs2).
  fold r in Hr, Hne2, Hs2.
  set (s := shard_at str_hash w k) in *.
  assert (He : forall now, Shard.is_expired_unlocked s k now = false).
  { intros now. unfold Shard.is_expired_unlocked. by rewrite Ht. }
  rewrite hset_snd, He in Hs2. cbv zeta in Hs2.
  rewrite hset_fst, He in Hr. cbv zeta in Hr.
  split.
  - rewrite Hr. unfold Shard.hexists, contains. rewrite He. f_equal.
    destruct (hmap_ s !! k) as [hm |]; cbn; [by destruct (hm !! f) |].
    by rewrite lookup_empty.
  - rewrite (hget_run name' k f (<[f := v]> (default ∅ (hmap_ s !! k))) r.2);
      try done.
    + by rewrite lookup_insert_eq.
    + by rewrite Hs2.
    + by rewrite Hs2.
    + rewrite Hs2. cbn. by rewrite lookup_insert_eq.
Qed.

End HsetThenHget.

Lemma hset_then_hget_witness :
  let r := dispatch hash0 [b "hset"; b "h"; b "f"; b "v"] fresh_world in
  r.1 = resp_int 1 /\
  (dispatch hash0 [b "hget"; b "h"; b "f"] r.2).1 = resp_bulk (b "v").
Proof.
  intros r.
  apply (hset_then_hget hash0 (b "hset") (b "hget") (b "h") (b "f") (b "v")
           fresh_world); try reflexivity.
  vm_compute. lia.
Defined.


(** ** Commands on a key of the wrong kind *)

Section WrongType.

Variable str_hash : bytes -> nat.

(** [type_of] on a key that holds a live value changes nothing. *)
Lemma type_of_live (k : bytes) (now : time_point) (s : Shard) :
  kind_of k now s <> VNone -> Shard.type_of k now s = (kind_of k now s, s).
Proof.
  unfold kind_of, Shard.type_of.
  destruct (Shard.is_expired_unlocked s k now); [done |].
  by destruct (contains (map_ s) k), (contains (hmap_ s) k).
Qed.

Lemma type_check_run (k : bytes) (t : ValueType) (w : World) :
  has_shard w -> kind_of k (now_of w) (shard_at str_hash w k) = t ->
  t <> VNone ->
  shard_for str_hash k (Shard.type_of k (now_of w)) (tick w) = (t, tick w).
Proof.
  intros Hne Hk Ht. apply shard_for_unchanged; [done |].
  rewrite shard_at_tick, type_of_live by congruence. by rewrite Hk.
Qed.

Lemma dispatch_cmd (name : bytes) (h : Handler) (args : list bytes) :
  h_ str_hash !! upper name = Some h ->
  dispatch str_hash (name :: args) = h (name :: args).
Proof. intros H. unfold dispatch. by rewrite H. Qed.

(** A handler that checks the kind of its key first. *)
Lemma refused_run (k : bytes) (t : ValueType) (w : World)
    (body : ValueType -> M bytes) :
  has_shard w -> kind_of k (now_of w) (shard_at str_hash w k) = t ->
  t <> VNone -> body t = ret resp_wrongtype ->
  (let* now := steady_now in
   let* t' := shard_for str_hash k (Shard.type_of k now) in
   body t')%cmd w = (resp_wrongtype, tick w).
Proof.
  intros Hne Hk Ht Hbody.
  rewrite bind_run, steady_now_run. cbn [fst snd].
  rewrite bind_run, (type_check_run k t w) by done. cbn [fst snd].
  by rewrite Hbody.
Qed.

(** X21. A hash command on a key that holds a string, and GET on a key
    that holds a hash, are answered with the WRONGTYPE error and leave
    the store as it was; only the clock has been read, once. *)
Theorem wrong_kind_is_refused (k f v : bytes) (w : World) :
  has_shard w ->
  let kind := kind_of k (now_of w) (shard_at str_hash w k) in
  (kind = VString ->
   Forall (fun args => dispatch str_hash args w = (resp_wrongtype, tick w))
     [ [b "HSET"; k; f; v]; [b "HGET"; k; f]; [b "HDEL"; k; f];
       [b "HEXISTS"; k; f]; [b "HLEN"; k]; [b "HGETALL"; k];
       [b "HMGET"; k; f] ]) /\
  (kind = VHash ->
   dispatch str_hash [b "GET"; k] w = (resp_wrongtype, tick w)).
Proof.
  intros Hne kind. subst kind. split; intros Hk.
  - repeat (apply Forall_cons; split); try (apply Forall_nil; exact I).
    + rewrite (dispatch_cmd _ (h_HSET str_hash)) by reflexivity.
      by apply (refused_run k VString w
                  (fun t => match t with
                            | VString => ret resp_wrongtype
                            | _ => _
                            end)).
    + rewrite (dispatch_cmd _ (h_HGET str_hash)) by reflexivity.
      by apply (refused_run k VString w
                  (fun t => match t with
                            | VString => ret resp_wrongtype
                            | _ => _
                            end)).
    + rewrite (dispatch_cmd _ (h_HDEL str_hash)) by reflexivity.
      by apply (refused_run k VString w
                  (fun t => match t with
                            | VString => ret resp_wrongtype
                            | _ => _
                            end)).
    + rewrite (dispatch_cmd _ (h_HEXISTS str_hash)) by reflexivity.
      by apply (refused_run k VString w
                  (fun t => match t with
                            | VString => ret resp_wrongtype
                            | _ => _
                            end)).
    + rewrite (dispatch_cmd _ (h_HLEN str_hash)) by reflexivity.
      by apply (refused_run k VString w
                  (fun t => match t with
                            | VString => ret resp_wrongtype
                            | _ => _
                            end)).
    + rewrite (dispatch_cmd _ (h_HGETALL str_hash)) by reflexivity.
      by apply (refused_run k VString w
                  (fun t => match t with
                            | VString => ret resp_wrongtype
                            | _ => _
                            end)).
    + rewrite (dispatch_cmd _ (h_HMGET str_hash)) by reflexivity.
      by apply (refused_run k VString w
                  (fun t => match t with
                            | VString => ret resp_wrongtype
                            | _ => _
                            end)).
  - rewrite (dispatch_cmd _ (h_GET str_hash)) by reflexivity.
    by apply (refused_run k VHash w
                (fun t => match t with
                          | VHash => ret resp_wrongtype
                          | _ => _
                          end)).
Qed.

End WrongType.

Lemma wrong_kind_is_refused_witness :
  let w := (dispatch hash0 [b "SET"; b "k"; b "v"] fresh_world).2 in
  dispatch hash0 [b "HGET"; b "k"; b "f"] w = (resp_wrongtype, tick w).
Proof.
  intros w.
  destruct (wrong_kind_is_refused hash0 (b "k") (b "f") (b "v") w) as [H _];
    [vm_compute; lia |].
  specialize (H eq_refl).
  apply Forall_cons in H as [_ H]. apply Forall_cons in H as [H _]. exact H.
Defined.


(** ** EXPIRE, then TTL *)

Section ExpireThenTtl.

Variable str_hash : bytes -> nat.

Lemma wrap_ll_small (z : Z) : LLONG_MIN <= z <= LLONG_MAX -> wrap_ll z = z.
Proof.
  intros H. unfold wrap_ll, LLONG_MIN, LLONG_MAX, SIZE_MOD in *.
  rewrite Z.mod_small by lia. lia.
Qed.

(** EXPIRE on a key that holds a live string. *)
Lemma expire_run (name k n v : bytes) (sec : Z) (w : World) :
  has_shard w -> upper name = b "EXPIRE" -> stoll n = Some sec ->
  map_ (shard_at str_hash w k) !! k = Some v ->
  Shard.is_expired_unlocked (shard_at str_hash w k) k (now_of w) = false ->
  let expiry := add_sec (clock_ w (S (reads_ w))) (if sec <? 0 then 0 else sec) in
  let r := dispatch str_hash [name; k; n] w in
  r.1 = resp_int 1 /\
  has_shard r.2 /\ clock_ r.2 = clock_ w /\ reads_ r.2 = S (S (reads_ w)) /\
  shard_at str_hash r.2 k = Shard.set_expire k expiry (shard_at str_hash w k).
Proof.
  intros Hne Hname Hn Hm He expiry r. subst r.
  set (s := shard_at str_hash w k) in *.
  rewrite (dispatch_cmd str_hash name (h_EXPIRE str_hash))
    by (rewrite Hname; reflexivity).
  unfold h_EXPIRE, nargs. cbn [length arg nth].
  change (Z.of_nat 3 <? 3) with false. cbv iota beta zeta. rewrite Hn.
  rewrite bind_run, steady_now_run. cbn [fst snd].
  rewrite bind_run.
  rewrite (shard_for_unchanged str_hash k _ (Some v) (tick w)); [| done |].
  - cbn [fst snd]. rewrite !bind_run, steady_now_run. cbn [fst snd].
    unfold ret. cbn [fst snd].
    split; [done |]. split; [by apply has_shard_shard_for |].
    rewrite shard_at_shard_for by done. rewrite shard_for_snd.
    cbn [clock_ reads_ tick]. split; [done |]. split; [done |].
    by rewrite !shard_at_tick.
  - rewrite shard_at_tick. fold s. unfold Shard.get. by rewrite He, Hm.
Qed.

(** X22. EXPIRE on a key that holds a live string answers 1, and TTL on
    the key answers the number of seconds given as long as the clock has
    advanced by no more than 999 milliseconds since the expiry was set. *)
Theorem expire_then_ttl (name name' k n v : bytes) (sec : Z) (w : World) :
  has_shard w -> upper name = b "EXPIRE" -> upper name' = b "TTL" ->
  stoll n = Some sec -> 0 < sec ->
  map_ (shard_at str_hash w k) !! k = Some v ->
  Shard.is_expired_unlocked (shard_at str_hash w k) k (now_of w) = false ->
  let t1 := clock_ w (S (reads_ w)) in
  let t2 := clock_ w (S (S (reads_ w))) in
  0 <= t1 -> t1 + sec * (1000 * ticks_per_ms) <= LLONG_MAX ->
  0 <= t2 - t1 <= 999 * ticks_per_ms ->
  let r := dispatch str_hash [name; k; n] w in
  r.1 = resp_int 1 /\ (dispatch str_hash [name'; k] r.2).1 = resp_int sec.
Proof.
  intros Hne Hname Hname' Hn Hsec Hm He t1 t2 Ht1 Hmax Ht2 r.
  destruct (expire_run name k n v sec w Hne Hname Hn Hm He)
    as (Hr & Hne2 & Hc & Hrd & Hs).
  fold r in Hr, Hne2, Hc, Hrd, Hs. fold t1 in Hs.
  split; [done |].
  replace (if sec <? 0 then 0 else sec) with sec in Hs
    by (destruct (Z.ltb_spec sec 0); lia).
  unfold add_sec in Hs.
  assert (Hpos : 0 <= sec * (1000 * ticks_per_ms)) by (unfold ticks_per_ms; lia).
  rewrite (wrap_ll_small (sec * (1000 * ticks_per_ms))) in Hs
    by (unfold LLONG_MIN; lia).
  rewrite (wrap_ll_small (t1 + sec * (1000 * ticks_per_ms))) in Hs
    by (unfold LLONG_MIN; lia).
  set (e := t1 + sec * (1000 * ticks_per_ms)) in *.
  set (s := shard_at str_hash w k) in *.
  assert (Hc' : contains (map_ s) k || contains (hmap_ s) k = true).
  { unfold contains. by rewrite Hm. }
  unfold Shard.set_expire in Hs. rewrite Hc' in Hs.
  rewrite (dispatch_cmd str_hash name' (h_TTL str_hash))
    by (rewrite Hname'; reflexivity).
  unfold h_TTL, nargs. cbn [length arg nth].
  change (Z.of_nat 2 <? 2) with false. cbv iota beta zeta.
  rewrite bind_run, steady_now_run. cbn [fst snd].
  rewrite bind_run, shard_for_fst, shard_at_tick, Hs.
  unfold obs. cbn [fst]. unfold now_of. rewrite Hc, Hrd. fold t2.
  unfold Shard.ttl_ms. cbn [map_ ttl_ hmap_]. rewrite Hc'. cbn [negb].
  rewrite lookup_insert_eq.
  set (d := e - t2).
  assert (Hd : (1000 * sec - 999) * ticks_per_ms <= d <= 1000 * sec * ticks_per_ms).
  { subst d e. unfold ticks_per_ms in *. lia. }
  assert (Hms : 1000 * sec - 999 <= to_ms d <= 1000 * sec).
  { unfold to_ms. rewrite Z.quot_div_nonneg by (unfold ticks_per_ms in *; lia).
    split.
    - apply Z.div_le_lower_bound; unfold ticks_per_ms in *; lia.
    - apply Z.div_le_upper_bound; unfold ticks_per_ms in *; lia. }
  replace (to_ms d <=? 0) with false by (symmetry; apply Z.leb_gt; lia).
  replace (to_ms d =? -2) with false by (symmetry; apply Z.eqb_neq; lia).
  replace (to_ms d =? -1) with false by (symmetry; apply Z.eqb_neq; lia).
  unfold ret. cbn [fst]. f_equal.
  rewrite Z.quot_div_nonneg by lia.
  symmetry. apply Z.div_unique with (r := to_ms d + 999 - 1000 * sec); lia.
Qed.

End ExpireThenTtl.

Lemma expire_then_ttl_witness :
  let w := (dispatch hash0 [b "SET"; b "k"; b "v"] fresh_world).2 in
  let r := dispatch hash0 [b "expire"; b "k"; b "10"] w in
  r.1 = resp_int 1 /\ (dispatch hash0 [b "ttl"; b "k"] r.2).1 = resp_int 10.
Proof.
  intros w.
  apply (expire_then_ttl hash0 (b "expire") (b "ttl") (b "k") (b "10") (b "v")
           10 w);
    first [ reflexivity | vm_compute; lia | vm_compute; discriminate
          | vm_compute; split; discriminate ].
Defined.


(** ** MSET *)

Section Mset.

Variable str_hash : bytes -> nat.

(** SET with no option. *)
Lemma set_plain_run (k v : bytes) (w : World) :
  dispatch str_hash [b "SET"; k; v] w =
  (resp_simple (b "OK"),
   (shard_for str_hash k (upd (Shard.set k v (now_of w))) (tick w)).2).
Proof.
  rewrite (dispatch_cmd str_hash _ (h_SET str_hash)) by reflexivity.
  unfold h_SET, set_options, nargs. cbn [length arg nth].
  change (Z.of_nat 3 <? 3) with false.
  change (5 <=? Z.of_nat 3) with false.
  change (negb (Z.of_nat 3 =? 3)) with false.
  change (0 <=? -1) with false. cbv iota beta zeta.
  rewrite bind_run, steady_now_run. cbn [fst snd].
  rewrite !bind_run. unfold ret. f_equal.
Qed.

Lemma mset_loop_run (kvs : list (bytes * bytes)) : forall (w : World),
  mset_loop str_hash (flatten_pairs kvs) w =
  (tt, foldl (fun w kv => (dispatch str_hash [b "SET"; kv.1; kv.2] w).2) w kvs).
Proof.
  induction kvs as [| [k v] kvs IH]; intros w; [done |].
  cbn [flatten_pairs map concat app fst snd foldl mset_loop].
  fold (flatten_pairs kvs).
  rewrite bind_run, steady_now_run. cbn [fst snd].
  rewrite !bind_run. rewrite IH. by rewrite set_plain_run.
Qed.

Lemma length_flatten_pairs (kvs : list (bytes * bytes)) :
  length (flatten_pairs kvs) = (2 * length kvs)%nat.
Proof. induction kvs as [| kv kvs IH]; [done |]. cbn. unfold flatten_pairs in IH. rewrite IH. lia. Qed.

(** X23. MSET with at least one key/value pair answers OK and leaves the
    store and the clock as the SET commands of its pairs do, run one after
    the other in the order given. *)
Theorem mset_is_a_sequence_of_sets (name : bytes) (kvs : list (bytes * bytes))
    (w : World) :
  upper name = b "MSET" -> kvs <> [] ->
  dispatch str_hash (name :: flatten_pairs kvs) w =
  (resp_simple (b "OK"),
   foldl (fun w kv => (dispatch str_hash [b "SET"; kv.1; kv.2] w).2) w kvs).
Proof.
  intros Hname Hkvs.
  rewrite (dispatch_cmd str_hash name (h_MSET str_hash))
    by (rewrite Hname; reflexivity).
  unfold h_MSET, nargs. cbn [length skipn]. rewrite length_flatten_pairs.
  assert (Hlen : (0 < length kvs)%nat) by (destruct kvs; [done | cbn; lia]).
  replace (Z.of_nat (S (2 * length kvs)) - 1) with (Z.of_nat (length kvs) * 2)
    by lia.
  rewrite Z.mod_mul by lia.
  replace (Z.of_nat (S (2 * length kvs)) <? 3) with false
    by (symmetry; apply Z.ltb_ge; lia).
  cbn [orb negb Z.eqb]. cbv iota.
  change (drop 0 (flatten_pairs kvs)) with (flatten_pairs kvs).
  rewrite bind_run, mset_loop_run. reflexivity.
Qed.

End Mset.

Lemma mset_is_a_sequence_of_sets_witness :
  dispatch hash0 [b "mset"; b "a"; b "1"; b "b"; b "2"; b "a"; b "3"] fresh_world =
  (resp_simple (b "OK"),
   (dispatch hash0 [b "SET"; b "a"; b "3"]
      (dispatch hash0 [b "SET"; b "b"; b "2"]
         (dispatch hash0 [b "SET"; b "a"; b "1"] fresh_world).2).2).2).
Proof.
  apply (mset_is_a_sequence_of_sets hash0 (b "mset")
           [(b "a", b "1"); (b "b", b "2"); (b "a", b "3")] fresh_world);
    [reflexivity | discriminate].
Defined.


(** ** Replies are values of the protocol *)

Lemma resp_values_app (xs ys : list bytes) :
  resp_values xs -> resp_values ys -> resp_values (xs ++ ys).
Proof.
  induction 1 as [| x xs Hx Hxs IH]; intros Hys; [done |].
  cbn [app]. constructor; [done | by apply IH].
Qed.

Lemma resp_values_bulks (xs : list bytes) : resp_values (map bulk_frame xs).
Proof.
  induction xs as [| x xs IH]; cbn [map]; constructor; [| done].
  apply rv_bulk.
Qed.

Lemma bulk_or_nil_value (v : option bytes) : resp_value (bulk_or_nil v).
Proof. destruct v; [apply rv_bulk | apply rv_nil]. Qed.

Lemma resp_simple_value (s : bytes) : one_line s -> resp_value (resp_simple s).
Proof. apply rv_simple. Qed.

Lemma resp_error_value (s : bytes) : one_line s -> resp_value (resp_error s).
Proof.
  intros [Hcr Hlf]. unfold resp_error.
  change (b "-ERR " ++ s ++ CRLF) with ("-"%char :: (b "ERR " ++ s) ++ CRLF).
  apply rv_error. split; intros H; apply elem_of_app in H as [H | H];
    try done; revert H; cbn; intros H;
    repeat (apply elem_of_cons in H as [H | H]; [discriminate H |]);
    by apply elem_of_nil in H.
Qed.

Lemma resp_bulk_value (x : bytes) : resp_value (resp_bulk x).
Proof. apply rv_bulk. Qed.

Lemma resp_nil_value : resp_value resp_nil.
Proof. apply rv_nil. Qed.

Lemma resp_int_value (v : Z) : resp_value (resp_int v).
Proof. apply rv_int. Qed.

Lemma resp_array_value (xs : list bytes) : resp_value (resp_array xs true).
Proof.
  rewrite resp_array_frames.
  rewrite <- (length_map bulk_frame xs) at 1.
  cbn [app]. rewrite <- app_assoc.
  apply rv_array, resp_values_bulks.
Qed.

Lemma resp_wrongtype_value : resp_value resp_wrongtype.
Proof.
  unfold resp_wrongtype.
  apply (rv_error (b "WRONGTYPE Operation against a key holding the wrong kind of value")).
  split; intros H; revert H; cbn; intros H;
    repeat (apply elem_of_cons in H as [H | H]; [discriminate H |]);
    by apply elem_of_nil in H.
Qed.

Ltac one_line_tac :=
  let H := fresh "H" in
  split; intros H; revert H; cbn; intros H;
  repeat (apply elem_of_cons in H as [H | H]; [discriminate H |]);
  by apply elem_of_nil in H.

Section Replies.

Variable str_hash : bytes -> nat.

Lemma replies_ret (r : bytes) : resp_value r -> replies_value (ret r).
Proof. intros Hr. by apply hoare_ret. Qed.

Lemma replies_bind {A} (m : M A) (f : A -> M bytes) :
  (forall a, replies_value (f a)) -> replies_value (bind m f).
Proof.
  intros Hf w _. unfold bind. destruct (m w) as [a w']. by apply Hf.
Qed.

Lemma mget_loop_value (keys : list bytes) : forall (pre : list bytes) (n : nat),
  resp_values pre -> n = (length pre + length keys)%nat ->
  replies_value
    (mget_loop str_hash keys ("*"%char :: dec (Z.of_nat n) ++ CRLF ++ concat pre)).
Proof.
  induction keys as [| key keys IH]; intros pre n Hpre Hn; cbn [mget_loop].
  - apply replies_ret. rewrite Nat.add_0_r in Hn. subst n. by apply rv_array.
  - apply replies_bind. intros now. apply replies_bind. intros v.
    replace (("*"%char :: dec (Z.of_nat n) ++ CRLF ++ concat pre) ++ bulk_or_nil v)
      with ("*"%char :: dec (Z.of_nat n) ++ CRLF ++ concat (pre ++ [bulk_or_nil v])).
    + apply IH.
      * apply resp_values_app; [done |].
        constructor; [apply bulk_or_nil_value | constructor].
      * rewrite length_app. cbn [length] in *. lia.
    + rewrite concat_app. cbn [concat app]. rewrite app_nil_r.
      by rewrite <- !app_assoc.
Qed.

Lemma hmget_loop_value (key : bytes) (fields : list bytes) :
  forall (pre : list bytes) (n : nat),
  resp_values pre -> n = (length pre + length fields)%nat ->
  replies_value
    (hmget_loop str_hash key fields
       ("*"%char :: dec (Z.of_nat n) ++ CRLF ++ concat pre)).
Proof.
  induction fields as [| f fields IH]; intros pre n Hpre Hn; cbn [hmget_loop].
  - apply replies_ret. rewrite Nat.add_0_r in Hn. subst n. by apply rv_array.
  - apply replies_bind. intros now. apply replies_bind. intros v.
    replace (("*"%char :: dec (Z.of_nat n) ++ CRLF ++ concat pre) ++ bulk_or_nil v)
      with ("*"%char :: dec (Z.of_nat n) ++ CRLF ++ concat (pre ++ [bulk_or_nil v])).
    + apply IH.
      * apply resp_values_app; [done |].
        constructor; [apply bulk_or_nil_value | constructor].
      * rewrite length_app. cbn [length] in *. lia.
    + rewrite concat_app. cbn [concat app]. rewrite app_nil_r.
      by rewrite <- !app_assoc.
Qed.

Lemma h_MGET_value (a : list bytes) : replies_value (h_MGET str_hash a).
Proof.
  unfold h_MGET. destruct a as [| name keys].
  - apply replies_ret, resp_error_value. one_line_tac.
  - destruct (nargs (name :: keys) <? 2);
      [apply replies_ret, resp_error_value; one_line_tac |].
    apply replies_bind. intros now. apply replies_bind. intros [|];
      [apply replies_ret, resp_wrongtype_value |].
    cbn [skipn]. unfold nargs. cbn [length].
    replace (Z.of_nat (S (length keys)) - 1) with (Z.of_nat (length keys)) by lia.
    rewrite <- (app_nil_r CRLF).
    by apply (mget_loop_value keys [] (length keys)); [constructor |].
Qed.

Lemma h_HMGET_value (a : list bytes) : replies_value (h_HMGET str_hash a).
Proof.
  unfold h_HMGET. destruct a as [| name [| key fields]];
    try (apply replies_ret, resp_error_value; one_line_tac).
  destruct (nargs (name :: key :: fields) <? 3);
    [apply replies_ret, resp_error_value; one_line_tac |].
  cbv zeta. apply replies_bind. intros now. apply replies_bind.
  assert (Hloop : replies_value
            (hmget_loop str_hash (arg (name :: key :: fields) 1)
               (skipn 2 (name :: key :: fields))
               ("*"%char :: dec (nargs (name :: key :: fields) - 2) ++ CRLF))).
  { cbn [skipn]. unfold nargs. cbn [length].
    replace (Z.of_nat (S (S (length fields))) - 2)
      with (Z.of_nat (length fields)) by lia.
    rewrite <- (app_nil_r CRLF).
    by apply (hmget_loop_value _ fields [] (length fields)); [constructor |]. }
  intros [| |]; [done | apply replies_ret, resp_wrongtype_value | done].
Qed.

Create HintDb reply_db.

Hint Resolve resp_bulk_value resp_nil_value resp_int_value resp_array_value
  resp_wrongtype_value : reply_db.

Ltac reply_step :=
  first
    [ apply replies_ret;
      first [ solve [auto with reply_db]
            | apply resp_simple_value; one_line_tac
            | apply resp_error_value; unfold not_an_integer; one_line_tac ]
    | apply replies_bind; intros ?
    | match goal with
      | |- replies_value (if ?c then _ else _) => destruct c
      | |- replies_value (match ?x with _ => _ end) => destruct x
      end ].

Ltac reply_steps := cbv beta zeta; repeat reply_step.

Lemma set_options_value (a : list bytes) (e : bytes) :
  set_options a = inl e -> resp_value e.
Proof.
  unfold set_options. intros H.
  repeat match type of H with
         | (if ?c then _ else _) = _ => destruct c
         | match ?x with _ => _ end = _ => destruct x
         end;
    try discriminate H; injection H as <-;
    apply resp_error_value; unfold not_an_integer; one_line_tac.
Qed.

Lemma h_SET_value (a : list bytes) : replies_value (h_SET str_hash a).
Proof.
  unfold h_SET. cbv zeta.
  destruct (nargs a <? 3); [apply replies_ret, resp_error_value; one_line_tac |].
  destruct (set_options a) as [e | ttl] eqn:Ho.
  - apply replies_ret. by eapply set_options_value.
  - reply_steps.
Qed.

Lemma handlers_reply_values :
  Forall (fun nh : bytes * Handler => forall a, replies_value (nh.2 a))
         (registrations str_hash).
Proof.
  unfold registrations.
  repeat (apply Forall_cons; split; [cbn [snd]; intros a |]);
    try (apply Forall_nil; exact I).
  all: lazymatch goal with
       | |- replies_value (h_MGET _ _) => apply h_MGET_value
       | |- replies_value (h_HMGET _ _) => apply h_HMGET_value
       | |- replies_value (h_SET _ _) => apply h_SET_value
       | |- replies_value (?h _ _) => unfold h
       | |- replies_value (?h _) => unfold h
       end.
  all: reply_steps.
Qed.

(** X24. Every reply of the router is one well-formed value of the
    protocol: a simple string or an error on one line, an integer, a bulk
    string with its length, nil, or an array with its count of such
    values. *)
Theorem replies_are_protocol_values (args : list bytes) (w : World) :
  resp_value (dispatch str_hash args w).1.
Proof.
  assert (H : replies_value (dispatch str_hash args)).
  { unfold dispatch. destruct args as [| name args].
    - apply replies_ret, resp_error_value. one_line_tac.
    - destruct (h_ str_hash !! upper name) as [h |] eqn:Eh.
      + apply h_lookup in Eh.
        pose proof handlers_reply_values as Hall.
        rewrite Forall_forall in Hall. apply (Hall _ Eh).
      + apply replies_ret, resp_error_value. one_line_tac. }
  by apply H.
Qed.

End Replies.


(** ** A command name alone *)





(** * The command-line client *)

(** ** [tokenize] *)

Lemma nonempty_snoc (out : list bytes) (cur : bytes) :
  Forall (fun t : bytes => t <> []) out -> cur <> [] ->
  Forall (fun t : bytes => t <> []) (out ++ [cur]).
Proof.
  intros Hout Hcur. apply Forall_app. split; [done |]. by apply Forall_singleton.
Qed.

Lemma tokenize_loop_nonempty (n : nat) :
  forall (line : bytes) (out : list bytes) (cur : bytes) (inq : bool) (q : ascii),
  (length line <= n)%nat -> Forall (fun t => t <> []) out ->
  Forall (fun t => t <> []) (tokenize_loop line out cur inq q).
Proof.
  induction n as [| n IH]; intros line out cur inq q Hlen Hout.
  - destruct line; [| cbn in Hlen; lia]. cbn.
    case_decide; [done |]. by apply nonempty_snoc.
  - destruct line as [| c rest].
    + cbn. case_decide; [done |]. by apply nonempty_snoc.
    + cbn [tokenize_loop]. cbn [length] in Hlen.
      repeat first
        [ apply IH; [lia | first [done | by apply nonempty_snoc]]
        | case_decide
        | match goal with
          | |- context [if ?c then _ else _] => destruct c
          end ].
      all: destruct rest as [| c' rest']; cbn [length] in Hlen;
        (apply IH; [cbn [length]; lia | done]).
Qed.

(** X26. No word the client cuts out of a command line is empty: an
    argument typed as an empty pair of quotes is dropped. *)
Theorem tokenize_yields_no_empty_word (line : bytes) :
  Forall (fun t => t <> []) (tokenize line).
Proof. by apply (tokenize_loop_nonempty (length line)). Qed.

Lemma plain_word_step (s : bytes) : forall (rest : bytes) (out : list bytes)
    (cur : bytes) (q : ascii),
  forallb plain s = true ->
  tokenize_loop (s ++ rest) out cur false q =
  tokenize_loop rest out (cur ++ s) false q.
Proof.
  induction s as [| c s IH]; intros rest out cur q Hs.
  - by rewrite app_nil_r.
  - cbn [forallb] in Hs. apply andb_true_iff in Hs as [Hc Hs].
    unfold plain in Hc.
    apply andb_true_iff in Hc as [Hc Hsq]. apply andb_true_iff in Hc as [Hsp Hdq].
    apply negb_true_iff in Hsp, Hdq, Hsq.
    cbn [app tokenize_loop]. rewrite Hsp, Hdq, Hsq. cbn [negb andb orb].
    rewrite IH by done. by rewrite <- app_assoc.
Qed.

Lemma quoted_body_step (s : bytes) : forall (rest : bytes) (out : list bytes)
    (cur : bytes),
  tokenize_loop (concat (map escape_char s) ++ rest) out cur true DQUOTE =
  tokenize_loop rest out (cur ++ s) true DQUOTE.
Proof.
  induction s as [| c s IH]; intros rest out cur.
  - by rewrite app_nil_r.
  - cbn [map concat]. rewrite <- app_assoc. unfold escape_char at 1.
    destruct (Ascii.eqb c DQUOTE) eqn:Hdq; cbn [orb].
    + apply Ascii.eqb_eq in Hdq as ->.
      cbn [app tokenize_loop negb andb].
      change (Ascii.eqb BACKSLASH DQUOTE) with false.
      change (Ascii.eqb BACKSLASH BACKSLASH) with true. cbn [andb].
      change (unescape DQUOTE) with DQUOTE.
      rewrite IH. by rewrite <- app_assoc.
    + destruct (Ascii.eqb c BACKSLASH) eqn:Hbs.
      * apply Ascii.eqb_eq in Hbs as ->.
        cbn [app tokenize_loop negb andb].
        change (Ascii.eqb BACKSLASH DQUOTE) with false.
        change (Ascii.eqb BACKSLASH BACKSLASH) with true. cbn [andb].
        change (unescape BACKSLASH) with BACKSLASH.
        rewrite IH. by rewrite <- app_assoc.
      * cbn [app tokenize_loop negb andb]. rewrite Hdq, Hbs. cbn [andb].
        rewrite IH. by rewrite <- app_assoc.
Qed.

Lemma space_step (rest : bytes) (out : list bytes) (cur : bytes) (q : ascii) :
  cur <> [] ->
  tokenize_loop (b " " ++ rest) out cur false q =
  tokenize_loop rest (out ++ [cur]) [] false q.
Proof.
  intros Hcur. change (b " " ++ rest) with (" "%char :: rest).
  cbn [tokenize_loop negb andb].
  change (is_space " ") with true. cbn [andb]. by rewrite decide_False.
Qed.

Lemma argument_step (a : bytes * bool) (rest : bytes) (out : list bytes)
    (q : ascii) :
  typable a ->
  exists q', tokenize_loop (written a ++ b " " ++ rest) out [] false q =
             tokenize_loop rest (out ++ [a.1]) [] false q'.
Proof.
  destruct a as [s [|]]; intros [Hne Hplain]; cbn [fst snd] in *;
    unfold written; cbn [fst snd].
  - exists DQUOTE. unfold quoted.
    cbn [app tokenize_loop negb andb].
    change (is_space DQUOTE) with false.
    change (Ascii.eqb DQUOTE DQUOTE) with true. cbn [orb andb].
    rewrite <- app_assoc, quoted_body_step.
    cbn [app tokenize_loop negb andb].
    change (Ascii.eqb DQUOTE DQUOTE) with true. cbn [andb].
    by rewrite space_step.
  - exists q. rewrite plain_word_step by auto.
    by rewrite space_step.
Qed.

Lemma command_line_loop (args : list (bytes * bool)) :
  forall (out : list bytes) (q : ascii),
  Forall typable args ->
  tokenize_loop (command_line args) out [] false q = out ++ map fst args.
Proof.
  induction args as [| a args IH]; intros out q Hargs.
  - cbn. by rewrite app_nil_r.
  - apply Forall_cons in Hargs as [Ha Hargs].
    unfold command_line. cbn [map concat]. fold (command_line args).
    rewrite <- app_assoc.
    destruct (argument_step a (command_line args) out q Ha) as [q' ->].
    rewrite IH by done. by rewrite <- app_assoc.
Qed.

(** X27. Every list of non-empty arguments can be typed: written one after
    the other, each followed by a space and each either between double
    quotes, with a backslash before a double quote or a backslash of its
    own, or as it is when it has no white space and no quote, the line is
    cut back into exactly these arguments. *)
Theorem tokenize_reads_command_line (args : list (bytes * bool)) :
  Forall typable args -> tokenize (command_line args) = map fst args.
Proof. intros Hargs. unfold tokenize. by rewrite command_line_loop. Qed.

Lemma tokenize_reads_command_line_witness :
  tokenize (b "SET " ++ quoted (b "a b") ++ b " " ++
            quoted [DQUOTE; BACKSLASH; CR] ++ b " ") =
  [b "SET"; b "a b"; [DQUOTE; BACKSLASH; CR]].
Proof.
  apply (tokenize_reads_command_line
           [(b "SET", false); (b "a b", true); ([DQUOTE; BACKSLASH; CR], true)]).
  repeat (apply Forall_cons; split; [split; [discriminate | ]|]);
    try (apply Forall_nil; exact I); cbn [snd]; try discriminate; reflexivity.
Defined.

(** ** [to_resp] *)

Lemma to_resp_eq (args : list bytes) : to_resp args = resp_array args true.
Proof. reflexivity. Qed.


(** ** From the client to the server *)

(** X28. The bytes the client writes for a list of arguments are one
    request to the server: read in one piece by a fresh connection, they
    queue exactly these arguments as one job and leave nothing in the
    buffer. *)
Theorem client_request_is_queued (str_hash : bytes -> nat) (args : list bytes)
    (w : World) (n : nat) :
  Z.of_nat (length (to_resp args)) < LLONG_MAX ->
  exec str_hash (Read (to_resp args)) (connect w n) =
  Some (mkPipeline w [] [args] (replicate n None) [] []).
Proof.
  intros Hmax. rewrite to_resp_eq in *.
  assert (Hs : stream [args] = resp_array args true).
  { unfold stream. cbn [map concat]. by rewrite app_nil_r. }
  pose proof (read_chunks str_hash [resp_array args true] [args] (connect w n))
    as Hrun.
  cbn [map run] in Hrun.
  destruct (exec str_hash (Read (resp_array args true)) (connect w n)) as [p |].
  - rewrite Hrun; [done | by rewrite Hs | | by left].
    cbn [connect pending_ concat app]. by rewrite Hs, app_nil_r.
  - discriminate Hrun; [by rewrite Hs | | by left].
    cbn [connect pending_ concat app]. by rewrite Hs, app_nil_r.
Qed.

Lemma client_request_is_queued_witness :
  exec hash0 (Read (to_resp (tokenize (b "GET k")))) (connect fresh_world 2) =
  Some (mkPipeline fresh_world [] [[b "GET"; b "k"]] (replicate 2 None) [] []).
Proof.
  apply (client_request_is_queued hash0 [b "GET"; b "k"] fresh_world 2).
  vm_compute. reflexivity.
Defined.

(** * Expiry helpers *)

Lemma to_ms_mul (m : Z) : to_ms (m * ticks_per_ms) = m.
Proof. unfold to_ms, ticks_per_ms. by rewrite Z.quot_mul. Qed.

Lemma to_ms_nonpos (d : Z) : d <= 0 -> to_ms d <= 0.
Proof.
  intros H. destruct (Z.leb_spec (to_ms d) 0) as [| Hgt]; [done |].
  apply to_ms_pos in Hgt. unfold ticks_per_ms in Hgt. lia.
Qed.

(** X29. A deadline built [ms] milliseconds after a time point has
    [ms] milliseconds remaining at that time point, a negative [ms]
    counting as zero, and has expired there exactly when [ms] is not
    positive; and whenever a deadline has expired, the remaining time is
    zero. *)
Theorem remaining_after_from_milliseconds (ms : Z) (base t : time_point) :
  0 <= base <= LLONG_MAX -> base + ms * ticks_per_ms <= LLONG_MAX ->
  base <= t <= LLONG_MAX ->
  let when := Some (Ttl.from_milliseconds ms base) in
  Ttl.remaining_ms when base = Z.max 0 ms /\
  Ttl.is_expired when base = (ms <=? 0) /\
  (Ttl.is_expired when t = true -> Ttl.remaining_ms when t = 0).
Proof.
  intros Hbase Hmax Ht when. subst when.
  unfold Ttl.from_milliseconds, add_ms.
  set (m := if ms <? 0 then 0 else ms).
  assert (Hm : m = Z.max 0 ms) by (subst m; destruct (Z.ltb_spec ms 0); lia).
  assert (Hm0 : 0 <= m) by lia.
  assert (Hmm : base + m * ticks_per_ms <= LLONG_MAX).
  { destruct (Z.ltb_spec ms 0); subst m; unfold ticks_per_ms in *; lia. }
  assert (Hpos : 0 <= m * ticks_per_ms) by (unfold ticks_per_ms; lia).
  rewrite (wrap_ll_small (m * ticks_per_ms)) by (unfold LLONG_MIN; lia).
  rewrite (wrap_ll_small (base + m * ticks_per_ms)) by (unfold LLONG_MIN; lia).
  unfold Ttl.remaining_ms, Ttl.is_expired. split_and!.
  - replace (base + m * ticks_per_ms - base) with (m * ticks_per_ms) by lia.
    rewrite wrap_ll_small by (unfold LLONG_MIN; lia).
    rewrite to_ms_mul. destruct (Z.ltb_spec m 0); lia.
  - destruct (Z.leb_spec ms 0), (Z.leb_spec (base + m * ticks_per_ms) base);
      try done; unfold ticks_per_ms in *; lia.
  - intros He. apply Z.leb_le in He.
    rewrite wrap_ll_small by (unfold LLONG_MIN, LLONG_MAX in *; lia).
    pose proof (to_ms_nonpos (base + m * ticks_per_ms - t) ltac:(lia)).
    destruct (Z.ltb_spec (to_ms (base + m * ticks_per_ms - t)) 0); lia.
Qed.

Lemma remaining_after_from_milliseconds_witness :
  Ttl.remaining_ms (Some (Ttl.from_milliseconds 1500 10)) 10 = 1500.
Proof.
  destruct (remaining_after_from_milliseconds 1500 10 10) as [H _];
    [vm_compute; split; discriminate | vm_compute; discriminate
    | vm_compute; split; discriminate | exact H].
Defined.


(** * The expiry index *)

(** ** The heap *)









(** ** Set and clear keep the index consistent *)








(** ** The sweep *)








